(** * webharvest: the concurrent scheduler of the web scrapper

    A shallow embedding of [webharvest/schemas.py], [webharvest/driver.py]
    and [webharvest/webscrapper.py]: the task records, the driver contexts
    with their state machine, the bounded driver queue, the worker
    ([Webscrapper.scrape_item]), the futures of the executor and the result
    collector ([Webscrapper.process_completed_tasks]), and the drain of the
    queue ([Webscrapper.clear_driver_queue]).

    Conventions of the embedding:
    - The task records are Python objects shared by [scraping_contexts], by
      the values of [self.futures] and by the driver context that works on
      them. They live in a store, a list, and are named by their index;
      future [i] is the one submitted for record [i].
    - Code that can raise returns a [PyResult]; code that can block for ever
      or loop for ever returns an [option], [None] standing for no return.
    - A blocking [get] with a timeout on a queue that stays empty costs its
      whole timeout; the time waited is counted.
    - The steps of the state machine are the caller's code. A step is a
      function of its class, the browser session and the record of its
      context: it touches no other record and no other context.
    - Logging, screenshots and [driver.quit()] have no effect on the records,
      the queue or the futures and do not fail. *)

From stdpp Require Import base option list strings gmap.


(** ** Python results and the exceptions the scheduler meets *)

(** What Python code raises: instances of [BaseException].
    [WebScrapperException] is the expected domain failure of
    [webharvest/exceptions.py]; [OtherException] stands for any subclass of
    [Exception] this file does not name (selenium errors and the like).
    [SystemExit] and [KeyboardInterrupt] derive from [BaseException] directly:
    an [except Exception] does not catch them. *)
Inductive PyException : Type :=
  | WebScrapperException (msg : string)
  | TypeError (msg : string)
  | AttributeError (msg : string)
  | ValueError (msg : string)
  | queue_Empty
  | CancelledError
  | OtherException (msg : string)
  | SystemExit (code : nat)
  | KeyboardInterrupt.

#[global] Instance PyException_eq_dec : EqDecision PyException.
Proof. solve_decision. Defined.

(** [isinstance(e, WebScrapperException)] *)
Definition isinstance_WebScrapperException (e : PyException) : bool :=
  match e with
  | WebScrapperException _ => true
  | _ => false
  end.

(** [isinstance(e, Exception)] *)
Definition isinstance_Exception (e : PyException) : bool :=
  match e with
  | SystemExit _ | KeyboardInterrupt => false
  | _ => true
  end.

(** [isinstance(e, CancelledError)] of [concurrent.futures] *)
Definition isinstance_CancelledError (e : PyException) : bool :=
  match e with
  | CancelledError => true
  | _ => false
  end.

Inductive PyResult (A : Type) : Type :=
  | Return (a : A)
  | Raise (e : PyException).
Arguments Return {A} a.
Arguments Raise {A} e.

(** ** webharvest/schemas.py *)

Inductive ContextStatusEnum : Type :=
  | INITIALIZED
  | SUCCEED
  | FAILED
  | CRITICAL
  | CANCELLED.

#[global] Instance ContextStatusEnum_eq_dec : EqDecision ContextStatusEnum.
Proof. solve_decision. Defined.

(** [WebscrapperOptionsSchema] *)
Record WebscrapperOptionsSchema : Type := mkOptions {
  threads_num : nat
}.

(** [ContextStatusSchema]: the record of one webscrapping run. *)
Record ContextStatusSchema (InputDataT OutputDataT : Type) : Type := mkContextStatus {
  status : ContextStatusEnum;
  error : option PyException;
  current_state : option string;
  input_data : InputDataT;
  output_data : OutputDataT;
  tmp_data : gmap string string
}.
Arguments mkContextStatus {InputDataT OutputDataT}.
Arguments status {InputDataT OutputDataT}.
Arguments error {InputDataT OutputDataT}.
Arguments current_state {InputDataT OutputDataT}.
Arguments input_data {InputDataT OutputDataT}.
Arguments output_data {InputDataT OutputDataT}.
Arguments tmp_data {InputDataT OutputDataT}.

(** ** webharvest/driver.py: classes and instances of driver states *)

(** A Python class as far as [DriverContext.set_state] looks at it: its
    [__name__], whether [DriverState] is among its bases, whether it still
    has the abstract method [run] ([DriverState] is an [abc.ABC] whose [run] is
    an [abc.abstractmethod], so such a class cannot be instantiated), and what
    its constructor raises when it is called with a driver context
    ([DriverState.__init__] raises nothing; a subclass may override it). *)
Record PyClass : Type := mkClass {
  cls_name : string;
  cls_issubclass_DriverState : bool;
  cls_abstract : bool;
  cls_init : option PyException
}.

#[global] Instance PyClass_eq_dec : EqDecision PyClass.
Proof. solve_decision. Defined.

(** The class [DriverState] itself. *)
Definition DriverState_cls : PyClass := mkClass "DriverState" true true None.

(** An instance of a [DriverState] subclass: [DriverState.__init__] stores the
    context it is bound to and nothing else. *)
Record DriverState : Type := mkDriverState {
  state_cls : PyClass;
  driver_context : nat
}.

(** [DriverContext]: one automation session. [context_status] and [state]
    are attributes that exist only once they have been assigned;
    [context_status] names a record of the store. *)
Record DriverContext (Session : Type) : Type := mkDriverContext {
  driver_id : nat;
  driver : Session;
  context_status : option nat;
  state : option DriverState;
  quit_called : bool
}.
Arguments mkDriverContext {Session}.
Arguments driver_id {Session}.
Arguments driver {Session}.
Arguments context_status {Session}.
Arguments state {Session}.
Arguments quit_called {Session}.

(** What one call of a state's [run] does, as the scheduler can see it: the
    record it leaves, the session it leaves, the class it passed to
    [set_state] (if it called it) and the exception it raised (if any). *)
Record StepEffect (InputDataT OutputDataT Session : Type) : Type := mkEffect {
  eff_status : ContextStatusSchema InputDataT OutputDataT;
  eff_driver : Session;
  eff_set_state : option PyClass;
  eff_raise : option PyException
}.
Arguments mkEffect {InputDataT OutputDataT Session}.
Arguments eff_status {InputDataT OutputDataT Session}.
Arguments eff_driver {InputDataT OutputDataT Session}.
Arguments eff_set_state {InputDataT OutputDataT Session}.
Arguments eff_raise {InputDataT OutputDataT Session}.

(** ** queue.Queue, as the driver pool uses it *)

(** [maxsize] bounds the queue when positive; [unfinished_tasks] counts the
    [put]s that no [task_done] has answered yet. *)
Record Queue (A : Type) : Type := mkQueue {
  maxsize : nat;
  queue : list A;
  unfinished_tasks : nat
}.
Arguments mkQueue {A}.
Arguments maxsize {A}.
Arguments queue {A}.
Arguments unfinished_tasks {A}.

(** The outcome of [get(block=True, timeout=t)]: an item, or [queue.Empty]
    after the caller has waited the whole timeout. *)
Inductive GetResult (A : Type) : Type :=
  | Got (x : A) (q : Queue A)
  | TimedOut (waited : nat).
Arguments Got {A}.
Arguments TimedOut {A}.

(** [Queue.get] on a queue that no other thread fills meanwhile. *)
Definition Queue_get {A} (timeout : nat) (q : Queue A) : GetResult A :=
  match queue q with
  | [] => TimedOut timeout
  | x :: rest => Got x (mkQueue (maxsize q) rest (unfinished_tasks q))
  end.

Definition Queue_full {A} (q : Queue A) : bool :=
  bool_decide (0 < maxsize q ∧ maxsize q ≤ length (queue q)).

(** [Queue.put] without timeout: [None] when the queue is full, where the
    call blocks for as long as nobody takes an item. *)
Definition Queue_put {A} (x : A) (q : Queue A) : option (Queue A) :=
  if Queue_full q then None
  else Some (mkQueue (maxsize q) (queue q ++ [x]) (S (unfinished_tasks q))).

(** [Queue.task_done] *)
Definition Queue_task_done {A} (q : Queue A) : Queue A * PyResult unit :=
  match unfinished_tasks q with
  | 0 => (q, Raise (ValueError "task_done() called too many times"))
  | S n => (mkQueue (maxsize q) (queue q) n, Return ())
  end.

(** ** concurrent.futures.Future *)

Module Future.

(** The states of a future. A future whose call is being executed is in
    the state RUNNING of the library; it is written [RUNNING held] while the
    call is at most in its [finally] block, with the driver the worker thread
    holds, if it has taken one, and [RETURNING id] once the call has put the
    driver [id] back and has [return driver_context.status] left to evaluate.
    [FINISHED] holds what the call returned (the record, by name) or
    raised. *)
Inductive State (Session : Type) : Type :=
  | PENDING
  | RUNNING (held : option (DriverContext Session))
  | RETURNING (id : nat)
  | CANCELLED
  | CANCELLED_AND_NOTIFIED
  | FINISHED (res : PyResult nat).
Arguments PENDING {Session}.
Arguments RUNNING {Session}.
Arguments RETURNING {Session}.
Arguments CANCELLED {Session}.
Arguments CANCELLED_AND_NOTIFIED {Session}.
Arguments FINISHED {Session}.

(** [Future.cancel] (its boolean result is not used by the scheduler). *)
Definition cancel {Session} (f : State Session) : State Session :=
  match f with
  | RUNNING _ | RETURNING _ | FINISHED _ => f
  | CANCELLED | CANCELLED_AND_NOTIFIED => f
  | PENDING => CANCELLED
  end.

(** [Future.result()]: [None] while the call would still block. *)
Definition result {Session} (f : State Session) : option (PyResult nat) :=
  match f with
  | CANCELLED | CANCELLED_AND_NOTIFIED => Some (Raise CancelledError)
  | FINISHED res => Some res
  | PENDING | RUNNING _ | RETURNING _ => None
  end.

(** The futures [as_completed] yields: finished ones, and cancelled ones once
    the executor has dropped their work item. *)
Definition as_completed_ready {Session} (f : State Session) : bool :=
  match f with
  | CANCELLED_AND_NOTIFIED | FINISHED _ => true
  | _ => false
  end.

Definition is_RUNNING {Session} (f : State Session) : bool :=
  match f with
  | RUNNING _ | RETURNING _ => true
  | _ => false
  end.

End Future.

(** ** The methods of webharvest/driver.py and webharvest/webscrapper.py *)

Section Webharvest.
Context {InputDataT OutputDataT Session : Type}.

#[local] Abbreviation Status := (ContextStatusSchema InputDataT OutputDataT).
#[local] Abbreviation Store := (list (ContextStatusSchema InputDataT OutputDataT)).
#[local] Abbreviation Context_ := (DriverContext Session).
#[local] Abbreviation Futures := (list (Future.State Session)).

Definition set_status (s : ContextStatusEnum) (cs : Status) : Status :=
  mkContextStatus s (error cs) (current_state cs)
                  (input_data cs) (output_data cs) (tmp_data cs).

Definition set_error (e : option PyException) (cs : Status) : Status :=
  mkContextStatus (status cs) e (current_state cs)
                  (input_data cs) (output_data cs) (tmp_data cs).

Definition set_current_state (n : option string) (cs : Status) : Status :=
  mkContextStatus (status cs) (error cs) n
                  (input_data cs) (output_data cs) (tmp_data cs).

(** A fresh record as pydantic builds it from the two required fields. *)
Definition blank_context_status (i : InputDataT) (o : OutputDataT) : Status :=
  mkContextStatus INITIALIZED None None i o ∅.

Definition with_status (r : option nat) (c : Context_) : Context_ :=
  mkDriverContext (driver_id c) (driver c) r (state c) (quit_called c).

Definition with_state (s : option DriverState) (c : Context_) : Context_ :=
  mkDriverContext (driver_id c) (driver c) (context_status c) s (quit_called c).

Definition with_driver (d : Session) (c : Context_) : Context_ :=
  mkDriverContext (driver_id c) d (context_status c) (state c) (quit_called c).

(** *** DriverContext *)

(** The property [DriverContext.status]: the record the context is bound to,
    [None] when the attribute is missing. *)
Definition status_of (σ : Store) (c : Context_) : option Status :=
  context_status c ≫= λ r, σ !! r.

(** [DriverContext.set_state]. [issubclass] decides the guard; the call
    [state_cls(driver_context=self)] then fails with [TypeError] for a class
    that is still abstract, and with the exception of the class's own
    constructor when that raises; the assignment to [self.state] comes
    last. *)
Definition set_state (c : Context_) (cls : PyClass) : PyResult Context_ :=
  if negb (cls_issubclass_DriverState cls) then
    Raise (TypeError "state must be a subclass of DriverState.")
  else if cls_abstract cls then
    Raise (TypeError "Can't instantiate abstract class")
  else
    match cls_init cls with
    | Some e => Raise e
    | None => Return (with_state (Some (mkDriverState cls (driver_id c))) c)
    end.

(** [DriverContext.has_finished] *)
Definition has_finished (σ : Store) (c : Context_) : PyResult bool :=
  match status_of σ c with
  | None => Raise (AttributeError "context_status")
  | Some cs =>
      Return (bool_decide (status cs ∈ [SUCCEED; FAILED; CRITICAL; CANCELLED]))
  end.

(** [DriverContext.clear_context], that is [quit]: closes the session. *)
Definition clear_context (c : Context_) : Context_ :=
  mkDriverContext (driver_id c) (driver c) (context_status c) (state c) true.

(** The step graph is the caller's: [state_run cls] is the body of [run] of
    the class [cls]; it reads the session and the record of its context. *)
Context (state_run : PyClass → Session → Status → StepEffect InputDataT OutputDataT Session).

(** The effect of a step on its context: the session it leaves, then the
    [set_state] call of the step, whose [TypeError] is the step's. *)
Definition apply_effect (c : Context_) (eff : StepEffect InputDataT OutputDataT Session)
  : Context_ * PyResult unit :=
  let c1 := with_driver (eff_driver eff) c in
  let raised :=
    match eff_raise eff with
    | Some e => Raise e
    | None => Return ()
    end in
  match eff_set_state eff with
  | None => (c1, raised)
  | Some cls =>
      match set_state c1 cls with
      | Raise e => (c1, Raise e)
      | Return c2 => (c2, raised)
      end
  end.

(** [DriverContext.run]:
    [self.status.current_state = self.state.__class__.__name__] and then
    [self.state.run()]. *)
Definition run (σ : Store) (c : Context_) : Store * Context_ * PyResult unit :=
  match state c with
  | None => (σ, c, Raise (AttributeError "state"))
  | Some st =>
      match context_status c with
      | None => (σ, c, Raise (AttributeError "context_status"))
      | Some r =>
          match σ !! r with
          | None => (σ, c, Raise (AttributeError "context_status"))
          | Some cs =>
              let cs1 := set_current_state (Some (cls_name (state_cls st))) cs in
              let eff := state_run (state_cls st) (driver c) cs1 in
              let '(c', res) := apply_effect c eff in
              (<[r := eff_status eff]> σ, c', res)
          end
      end
  end.

(** *** Webscrapper.scrape_item *)

(** The loop [while not driver_context.has_finished(): driver_context.run()];
    [None] when [fuel] iterations were not enough. *)
Fixpoint run_until_finished (fuel : nat) (σ : Store) (c : Context_)
  : option (Store * Context_ * PyResult unit) :=
  match fuel with
  | 0 => None
  | S fuel' =>
      match has_finished σ c with
      | Raise e => Some (σ, c, Raise e)
      | Return true => Some (σ, c, Return ())
      | Return false =>
          match run σ c with
          | (σ', c', Raise e) => Some (σ', c', Raise e)
          | (σ', c', Return _) => run_until_finished fuel' σ' c'
          end
      end
  end.

(** [driver_context.status.error = e], the body of both handlers. (The
    handler of the unexpected exception also takes a screenshot, which touches
    neither the records nor the queue and swallows its own failures.) *)
Definition record_error (σ : Store) (c : Context_) (e : PyException) : Store :=
  match context_status c with
  | Some r => alter (set_error (Some e)) r σ
  | None => σ
  end.

(** Steps 2 to 3.1 of [scrape_item]: bind the record to the driver, run the
    loop, and let the handlers store the exception that ended it. An exception
    that no handler catches (one that is no [Exception], such as the
    [SystemExit] of a step that calls [sys.exit]) is still raised when the
    [try] is left. *)
Definition scrape_item_run (fuel : nat) (σ : Store) (c : Context_) (blank : nat)
  : option (Store * Context_ * PyResult unit) :=
  let c0 := with_status (Some blank) c in
  match run_until_finished fuel σ c0 with
  | None => None
  | Some (σ', c', Return _) => Some (σ', c', Return ())
  | Some (σ', c', Raise e) =>
      if isinstance_WebScrapperException e then
        Some (record_error σ' c' e, c', Return ())
      else if isinstance_Exception e then
        Some (record_error σ' c' e, c', Return ())
      else Some (σ', c', Raise e)
  end.

(** Step 3.2, the [finally] block: [put] the driver back and [task_done].
    [None] when [put] blocks for ever. *)
Definition release (q : Queue Context_) (c : Context_)
  : option (Queue Context_ * PyResult unit) :=
  Queue_task_done <$> Queue_put c q.

(** Steps 2 to 3.2 of [scrape_item], for a worker that holds the driver [c]:
    the [try] with its handlers and the [finally]. The result is the driver
    as it was put back and what is being raised when the [finally] block is
    left, if anything. *)
Definition scrape_item_try (fuel : nat) (q : Queue Context_) (σ : Store)
    (c : Context_) (blank : nat)
  : option (Queue Context_ * Store * Context_ * PyResult unit) :=
  match scrape_item_run fuel σ c blank with
  | None => None
  | Some (σ', c', tried) =>
      match release q c' with
      | None => None
      | Some (q', Raise e) => Some (q', σ', c', Raise e)
      | Some (q', Return _) => Some (q', σ', c', tried)
      end
  end.

(** The last line of [scrape_item], [return driver_context.status]: it reads
    the attribute of the driver object when the driver is in the queue
    again. [attr] is the attribute at that moment. *)
Definition returned_status (attr : option nat) : PyResult nat :=
  match attr with
  | Some r => Return r
  | None => Raise (AttributeError "context_status")
  end.

(** [scrape_item] from step 2 on, as one uninterrupted call: no other thread
    takes the driver between the [put] and the [return], so the attribute
    read is the one this call has bound. (In a run the read is a step of its
    own, [ReturnStatus] below.) *)
Definition scrape_item_locked (fuel : nat) (q : Queue Context_) (σ : Store)
    (c : Context_) (blank : nat)
  : option (Queue Context_ * Store * PyResult nat) :=
  match scrape_item_try fuel q σ c blank with
  | None => None
  | Some (q', σ', c', Raise e) => Some (q', σ', Raise e)
  | Some (q', σ', c', Return _) => Some (q', σ', returned_status (context_status c'))
  end.

(** [Webscrapper.scrape_item]: the driver is taken with
    [get(block=True, timeout=60)], outside the [try]. *)
Definition scrape_item (fuel : nat) (q : Queue Context_) (σ : Store) (blank : nat)
  : option (Queue Context_ * Store * PyResult nat) :=
  match Queue_get 60 q with
  | TimedOut _ => Some (q, σ, Raise queue_Empty)
  | Got c q1 => scrape_item_locked fuel q1 σ c blank
  end.

(** *** The result collector *)

(** [Webscrapper.cancel_futures] *)
Definition cancel_futures (fs : Futures) : Futures := Future.cancel <$> fs.

(** [Webscrapper.process_completed_future] for the future [i], whose entry in
    [self.futures] is the record [i]. [None] while [future.result()] would
    block. *)
Definition process_completed_future (σ : Store) (fs : Futures) (i : nat)
  : option (Store * Futures * PyResult nat) :=
  match fs !! i ≫= Future.result with
  | None => None
  | Some (Return r) =>
      match error <$> σ !! r with
      | Some (Some e) =>
          if isinstance_WebScrapperException e then
            Some (alter (set_status FAILED) r σ, fs, Return r)
          else if isinstance_Exception e then
            Some (alter (set_status CRITICAL) r σ, cancel_futures fs, Return r)
          else Some (σ, fs, Return r)
      | _ => Some (σ, fs, Return r)
      end
  | Some (Raise e) =>
      if isinstance_CancelledError e then
        Some (alter (set_status CANCELLED) i σ, fs, Return i)
      else Some (σ, fs, Raise e)
  end.

(** [Webscrapper.process_completed_tasks] over the futures in the order in
    which [as_completed] yields them. [sink] lists the records passed to
    [add_context_status] so far. *)
Fixpoint process_completed_tasks (order : list nat) (σ : Store) (fs : Futures)
    (sink : list nat) : option (Store * Futures * list nat * PyResult unit) :=
  match order with
  | [] => Some (σ, fs, sink, Return ())
  | i :: order' =>
      match process_completed_future σ fs i with
      | None => None
      | Some (σ', fs', Raise e) => Some (σ', fs', sink, Raise e)
      | Some (σ', fs', Return r) =>
          process_completed_tasks order' σ' fs' (sink ++ [r])
      end
  end.

(** *** Draining the driver queue *)

(** What [clear_driver_queue] has done when it returns. *)
Record Drained : Type := mkDrained {
  drained_queue : Queue Context_;
  cleared : list Context_;
  warned_remaining : option nat;
  waited : nat;
  drain_raised : option PyException
}.

(** [Webscrapper._clear_driver_context]: [get(timeout=1000)], [clear_context],
    [task_done]. *)
Definition _clear_driver_context (q : Queue Context_)
  : GetResult Context_ * PyResult unit :=
  match Queue_get 1000 q with
  | TimedOut w => (TimedOut w, Raise queue_Empty)
  | Got c q1 =>
      let '(q2, res) := Queue_task_done q1 in
      (Got (clear_context c) q2, res)
  end.

(** The loop of [clear_driver_queue], [todo] indices from [idx] on. *)
Fixpoint clear_from (num_drivers : nat) (todo : nat) (idx : nat) (d : Drained) : Drained :=
  match todo with
  | 0 => d
  | S todo' =>
      match _clear_driver_context (drained_queue d) with
      | (TimedOut w, _) =>
          mkDrained (drained_queue d) (cleared d) (Some (num_drivers - idx))
                    (waited d + w) None
      | (Got c q', Raise e) =>
          mkDrained q' (cleared d ++ [c]) None (waited d) (Some e)
      | (Got c q', Return _) =>
          clear_from num_drivers todo' (S idx)
                     (mkDrained q' (cleared d ++ [c]) None (waited d) None)
      end
  end.

(** [Webscrapper.clear_driver_queue] *)
Definition clear_driver_queue (opts : WebscrapperOptionsSchema) (q : Queue Context_)
  : Drained :=
  let num_drivers := threads_num opts in
  clear_from num_drivers num_drivers 0 (mkDrained q [] None 0 None).

(** *** A run of the scheduler *)

(** The shared state of a run after [create_and_submit_tasks] has submitted
    one future per record: the records, the futures (future [i] was submitted
    for record [i]), the driver queue, the records passed to
    [add_context_status], the futures [as_completed] has yielded, the
    exception that left [process_completed_tasks], if one did, and the
    attribute [status] of the driver objects: [bound] maps the id of a driver
    to the record that the last [driver_context.status = ...] has bound to
    it. The driver objects are shared by the threads; a worker's own view of
    the driver it holds is the context value in its future. *)
Record Run : Type := mkRun {
  scraping_contexts : Store;
  futures : Futures;
  driver_queue : Queue Context_;
  status_contexts : list nat;
  yielded : list nat;
  collector_raised : option PyException;
  bound : gmap nat nat
}.

(** The number of futures whose call is being executed by a worker thread. *)
Definition running (fs : Futures) : nat :=
  length (filter (λ f, Future.is_RUNNING f = true) fs).

(** What a thread of the run does next. *)
Inductive Label : Type :=
  | Start (i : nat)
  | DropCancelled (i : nat)
  | Acquire (i : nat)
  | AcquireTimeout (i : nat)
  | Finish (i : nat)
  | ReturnStatus (i : nat)
  | Collect (i : nat).

(** The steps of the worker threads. *)
Definition is_worker_step (l : Label) : bool :=
  match l with
  | Collect _ => false
  | _ => true
  end.

(** The steps of a run with [max_workers] worker threads, when no signal
    arrives. Worker threads take pending futures ([Start]) or drop cancelled
    ones ([DropCancelled]); they take a driver and bind their record to it
    ([Acquire], or [AcquireTimeout] when the queue stays empty), run the rest
    of [scrape_item] up to the end of its [finally] block ([Finish]), and
    then evaluate [return driver_context.status] on the driver object, which
    another worker may have taken and bound to its own record meanwhile
    ([ReturnStatus]). The main thread leaves the [with] block of
    [create_and_submit_tasks] when the executor has joined its workers, so it
    processes a future that [as_completed] yields ([Collect]) only when no
    future is pending or running, and until an exception leaves its loop. *)
Inductive step (max_workers : nat) : Run → Label → Run → Prop :=
  | step_Start σ fs q sink ys err b i :
      fs !! i = Some Future.PENDING →
      running fs < max_workers →
      step max_workers (mkRun σ fs q sink ys err b) (Start i)
           (mkRun σ (<[i := Future.RUNNING None]> fs) q sink ys err b)
  | step_DropCancelled σ fs q sink ys err b i :
      fs !! i = Some Future.CANCELLED →
      step max_workers (mkRun σ fs q sink ys err b) (DropCancelled i)
           (mkRun σ (<[i := Future.CANCELLED_AND_NOTIFIED]> fs) q sink ys err b)
  | step_Acquire σ fs q sink ys err b i c q' :
      fs !! i = Some (Future.RUNNING None) →
      Queue_get 60 q = Got c q' →
      step max_workers (mkRun σ fs q sink ys err b) (Acquire i)
           (mkRun σ (<[i := Future.RUNNING (Some c)]> fs) q' sink ys err
                  (<[driver_id c := i]> b))
  | step_AcquireTimeout σ fs q sink ys err b i w :
      fs !! i = Some (Future.RUNNING None) →
      Queue_get 60 q = TimedOut w →
      step max_workers (mkRun σ fs q sink ys err b) (AcquireTimeout i)
           (mkRun σ (<[i := Future.FINISHED (Raise queue_Empty)]> fs) q sink ys err b)
  | step_Finish σ fs q sink ys err b i c fuel q' σ' c' :
      fs !! i = Some (Future.RUNNING (Some c)) →
      scrape_item_try fuel q σ c i = Some (q', σ', c', Return ()) →
      step max_workers (mkRun σ fs q sink ys err b) (Finish i)
           (mkRun σ' (<[i := Future.RETURNING (driver_id c')]> fs) q' sink ys err b)
  | step_Finish_Raise σ fs q sink ys err b i c fuel q' σ' c' e :
      fs !! i = Some (Future.RUNNING (Some c)) →
      scrape_item_try fuel q σ c i = Some (q', σ', c', Raise e) →
      step max_workers (mkRun σ fs q sink ys err b) (Finish i)
           (mkRun σ' (<[i := Future.FINISHED (Raise e)]> fs) q' sink ys err b)
  | step_ReturnStatus σ fs q sink ys err b i d :
      fs !! i = Some (Future.RETURNING d) →
      step max_workers (mkRun σ fs q sink ys err b) (ReturnStatus i)
           (mkRun σ (<[i := Future.FINISHED (returned_status (b !! d))]> fs)
                  q sink ys err b)
  | step_Collect_Return σ fs q sink ys b i f σ' fs' r :
      Forall (λ g, Future.as_completed_ready g = true) fs →
      fs !! i = Some f →
      i ∉ ys →
      process_completed_future σ fs i = Some (σ', fs', Return r) →
      step max_workers (mkRun σ fs q sink ys None b) (Collect i)
           (mkRun σ' fs' q (sink ++ [r]) (ys ++ [i]) None b)
  | step_Collect_Raise σ fs q sink ys b i f σ' fs' e :
      Forall (λ g, Future.as_completed_ready g = true) fs →
      fs !! i = Some f →
      i ∉ ys →
      process_completed_future σ fs i = Some (σ', fs', Raise e) →
      step max_workers (mkRun σ fs q sink ys None b) (Collect i)
           (mkRun σ' fs' q sink (ys ++ [i]) (Some e) b).

(** Runs: sequences of steps, with their labels. *)
Inductive steps (max_workers : nat) : Run → list Label → Run → Prop :=
  | steps_nil s : steps max_workers s [] s
  | steps_cons s1 l s2 ls s3 :
      step max_workers s1 l s2 →
      steps max_workers s2 ls s3 →
      steps max_workers s1 (l :: ls) s3.

(** The run as [start_scraping] starts it: [drivers] are the contexts the
    warm-up has put into the queue, whose bound is [threads_num]; every
    record has its pending future; no record is bound to a driver. *)
Definition initial_run (opts : WebscrapperOptionsSchema) (σ : Store)
    (drivers : list Context_) : Run :=
  mkRun σ (replicate (length σ) Future.PENDING)
        (mkQueue (threads_num opts) drivers (length drivers)) [] [] None ∅.

(** No thread can take a step. *)
Definition final (max_workers : nat) (s : Run) : Prop :=
  ∀ l s', ¬ step max_workers s l s'.

(** The same steps as a function, for running a schedule that is given:
    [None] when the thread cannot take the step; [fuel] bounds the loop of the
    worker that finishes. *)
Definition exec_step (max_workers fuel : nat) (l : Label) (s : Run) : option Run :=
  let '(mkRun σ fs q sink ys err b) := s in
  match l with
  | Start i =>
      match fs !! i with
      | Some Future.PENDING =>
          if decide (running fs < max_workers)
          then Some (mkRun σ (<[i := Future.RUNNING None]> fs) q sink ys err b)
          else None
      | _ => None
      end
  | DropCancelled i =>
      match fs !! i with
      | Some Future.CANCELLED =>
          Some (mkRun σ (<[i := Future.CANCELLED_AND_NOTIFIED]> fs) q sink ys err b)
      | _ => None
      end
  | Acquire i =>
      match fs !! i, Queue_get 60 q with
      | Some (Future.RUNNING None), Got c q' =>
          Some (mkRun σ (<[i := Future.RUNNING (Some c)]> fs) q' sink ys err
                      (<[driver_id c := i]> b))
      | _, _ => None
      end
  | AcquireTimeout i =>
      match fs !! i, Queue_get 60 q with
      | Some (Future.RUNNING None), TimedOut _ =>
          Some (mkRun σ (<[i := Future.FINISHED (Raise queue_Empty)]> fs) q sink ys err b)
      | _, _ => None
      end
  | Finish i =>
      match fs !! i with
      | Some (Future.RUNNING (Some c)) =>
          match scrape_item_try fuel q σ c i with
          | Some (q', σ', c', Return _) =>
              Some (mkRun σ' (<[i := Future.RETURNING (driver_id c')]> fs) q'
                          sink ys err b)
          | Some (q', σ', c', Raise e) =>
              Some (mkRun σ' (<[i := Future.FINISHED (Raise e)]> fs) q' sink ys err b)
          | None => None
          end
      | _ => None
      end
  | ReturnStatus i =>
      match fs !! i with
      | Some (Future.RETURNING d) =>
          Some (mkRun σ (<[i := Future.FINISHED (returned_status (b !! d))]> fs)
                      q sink ys err b)
      | _ => None
      end
  | Collect i =>
      match err, fs !! i with
      | None, Some f =>
          if forallb Future.as_completed_ready fs && bool_decide (i ∉ ys) then
            match process_completed_future σ fs i with
            | Some (σ', fs', Return r) =>
                Some (mkRun σ' fs' q (sink ++ [r]) (ys ++ [i]) None b)
            | Some (σ', fs', Raise e) =>
                Some (mkRun σ' fs' q sink (ys ++ [i]) (Some e) b)
            | None => None
            end
          else None
      | _, _ => None
      end
  end.

Fixpoint exec_steps (max_workers fuel : nat) (ls : list Label) (s : Run) : option Run :=
  match ls with
  | [] => Some s
  | l :: ls' => exec_step max_workers fuel l s ≫= exec_steps max_workers fuel ls'
  end.

(** *** Runs that the stop signal interrupts *)

(** Where the main thread is: in [start_scraping] (in the [with] block of
    [create_and_submit_tasks] or in the loop of [process_completed_tasks]);
    in [stop_signal_handler], which SIGINT has started, at index [idx] of the
    loop of [clear_driver_queue] and with the drivers [quit] so far; or gone,
    after [sys.exit(0)] has raised [SystemExit] (or another exception has
    left the handler): then [process_completed_tasks] does not go on. *)
Inductive Main : Type :=
  | Scraping
  | Handling (idx : nat) (quit : list Context_)
  | Exited (e : PyException).

Inductive SignalLabel : Type :=
  | Thread (l : Label)
  | SIGINT
  | HandlerClear
  | HandlerExit.

(** The steps of a run in which SIGINT may arrive: those of [step], of which
    the main thread takes its own only while it is in [start_scraping], and
    those of [stop_signal_handler]: [cancel_futures], then one
    [_clear_driver_context] per index, which takes drivers from the queue
    while the workers go on, until all indices are done or a [get] times out,
    then [stop_handler] and [sys.exit(0)]. The interpreter waits for the
    worker threads before it exits, so their steps go on. *)
Inductive signal_step (num_drivers : nat) : Main * Run → SignalLabel → Main * Run → Prop :=
  | signal_Thread m s l s' :
      step num_drivers s l s' →
      m = Scraping ∨ is_worker_step l = true →
      signal_step num_drivers (m, s) (Thread l) (m, s')
  | signal_SIGINT σ fs q sink ys err b :
      signal_step num_drivers (Scraping, mkRun σ fs q sink ys err b) SIGINT
                  (Handling 0 [], mkRun σ (cancel_futures fs) q sink ys err b)
  | signal_Clear σ fs q sink ys err b idx quit c q' :
      idx < num_drivers →
      _clear_driver_context q = (Got c q', Return ()) →
      signal_step num_drivers (Handling idx quit, mkRun σ fs q sink ys err b) HandlerClear
                  (Handling (S idx) (quit ++ [c]), mkRun σ fs q' sink ys err b)
  | signal_Clear_Raise σ fs q sink ys err b idx quit c q' e :
      idx < num_drivers →
      _clear_driver_context q = (Got c q', Raise e) →
      signal_step num_drivers (Handling idx quit, mkRun σ fs q sink ys err b) HandlerClear
                  (Exited e, mkRun σ fs q' sink ys err b)
  | signal_Clear_Empty s idx quit w res :
      idx < num_drivers →
      _clear_driver_context (driver_queue s) = (TimedOut w, res) →
      signal_step num_drivers (Handling idx quit, s) HandlerClear
                  (Exited (SystemExit 0), s)
  | signal_Exit s quit :
      signal_step num_drivers (Handling num_drivers quit, s) HandlerExit
                  (Exited (SystemExit 0), s).

Inductive signal_steps (num_drivers : nat)
  : Main * Run → list SignalLabel → Main * Run → Prop :=
  | signal_steps_nil s : signal_steps num_drivers s [] s
  | signal_steps_cons s1 l s2 ls s3 :
      signal_step num_drivers s1 l s2 →
      signal_steps num_drivers s2 ls s3 →
      signal_steps num_drivers s1 (l :: ls) s3.

(** The same steps as a function, for running a schedule that is given. *)
Definition with_queue (q : Queue Context_) (s : Run) : Run :=
  mkRun (scraping_contexts s) (futures s) q (status_contexts s) (yielded s)
        (collector_raised s) (bound s).

Definition with_futures (fs : Futures) (s : Run) : Run :=
  mkRun (scraping_contexts s) fs (driver_queue s) (status_contexts s) (yielded s)
        (collector_raised s) (bound s).

Definition exec_signal_step (num_drivers fuel : nat) (l : SignalLabel)
    (ms : Main * Run) : option (Main * Run) :=
  let '(m, s) := ms in
  match l, m with
  | Thread l', Scraping => (λ s', (m, s')) <$> exec_step num_drivers fuel l' s
  | Thread l', _ =>
      if is_worker_step l' then (λ s', (m, s')) <$> exec_step num_drivers fuel l' s
      else None
  | SIGINT, Scraping => Some (Handling 0 [], with_futures (cancel_futures (futures s)) s)
  | HandlerClear, Handling idx quit =>
      if decide (idx < num_drivers) then
        match _clear_driver_context (driver_queue s) with
        | (Got c q', Return _) => Some (Handling (S idx) (quit ++ [c]), with_queue q' s)
        | (Got c q', Raise e) => Some (Exited e, with_queue q' s)
        | (TimedOut _, _) => Some (Exited (SystemExit 0), s)
        end
      else None
  | HandlerExit, Handling idx quit =>
      if decide (idx = num_drivers) then Some (Exited (SystemExit 0), s) else None
  | _, _ => None
  end.

Fixpoint exec_signal_steps (num_drivers fuel : nat) (ls : list SignalLabel)
    (ms : Main * Run) : option (Main * Run) :=
  match ls with
  | [] => Some ms
  | l :: ls' =>
      exec_signal_step num_drivers fuel l ms ≫= exec_signal_steps num_drivers fuel ls'
  end.

(** *** The vocabulary of the properties *)

(** The terminal statuses of a record. *)
Definition Terminal : list ContextStatusEnum := [SUCCEED; FAILED; CRITICAL; CANCELLED].

(** The context as a call of [set_state] leaves it: a call that raises has
    assigned nothing. *)
Definition after_set_state (c : Context_) (cls : PyClass) : Context_ :=
  match set_state c cls with
  | Return c' => c'
  | Raise _ => c
  end.

Definition raises_TypeError {A} (res : PyResult A) : Prop :=
  ∃ msg, res = Raise (TypeError msg).

(** The execution of a task as the specification words it: while the status
    of the record is not terminal, run the current step; a step that raises
    ends the execution with its exception. *)
Inductive spec_execution : Store → Context_ → Store → Context_ → PyResult unit → Prop :=
  | spec_terminal σ c cs :
      status_of σ c = Some cs →
      status cs ∈ Terminal →
      spec_execution σ c σ c (Return ())
  | spec_raise σ c cs σ' c' e :
      status_of σ c = Some cs →
      status cs ∉ Terminal →
      run σ c = (σ', c', Raise e) →
      spec_execution σ c σ' c' (Raise e)
  | spec_step σ c cs σ1 c1 σ' c' res :
      status_of σ c = Some cs →
      status cs ∉ Terminal →
      run σ c = (σ1, c1, Return ()) →
      spec_execution σ1 c1 σ' c' res →
      spec_execution σ c σ' c' res.

(** How the collector may change a record: not at all, or by putting one of
    FAILED, CRITICAL, CANCELLED into its status. *)
Definition collector_rewrite (cs cs' : Status) : Prop :=
  cs' = cs ∨ ∃ s, s ∈ [FAILED; CRITICAL; CANCELLED] ∧ cs' = set_status s cs.

(** A queue with a bound never holds more items than the bound. *)
Definition Queue_wf {A} (q : Queue A) : Prop :=
  maxsize q = 0 ∨ length (queue q) ≤ maxsize q.

(** The number of elements of a list that satisfy a boolean test. *)
Definition count {A} (p : A → bool) (l : list A) : nat :=
  length (filter (λ a, p a = true) l).

(** The futures whose worker holds a driver. *)
Definition holds_driver (f : Future.State Session) : bool :=
  match f with
  | Future.RUNNING (Some _) => true
  | _ => false
  end.

(** Every future that has finished has returned the record it was submitted
    for. *)
Definition own_records (s : Run) : Prop :=
  ∀ i res, futures s !! i = Some (Future.FINISHED res) → res = Return i.

(** No call of [run] raises anything but an instance of [Exception]: no
    step calls [sys.exit] or lets a [KeyboardInterrupt] through. *)
Definition raises_only_Exception : Prop :=
  ∀ (σ : Store) (c : Context_) σ' c' e,
    run σ c = (σ', c', Raise e) → isinstance_Exception e = true.

Definition is_cancelled (f : Future.State Session) : Prop :=
  f = Future.CANCELLED ∨ f = Future.CANCELLED_AND_NOTIFIED.

(** The invariant of a run with [K] worker threads, [K] drivers and [N]
    records that no signal interrupts. *)
Record invariant (K N : nat) (s : Run) : Prop := mkInvariant {
  inv_futures : length (futures s) = N;
  inv_contexts : length (scraping_contexts s) = N;
  inv_maxsize : maxsize (driver_queue s) = K;
  inv_unfinished : unfinished_tasks (driver_queue s) = K;
  inv_drivers : length (queue (driver_queue s)) + count holds_driver (futures s) = K;
  inv_workers : running (futures s) ≤ K;
  inv_held : ∀ i c, futures s !! i = Some (Future.RUNNING (Some c)) →
               is_Some (bound s !! driver_id c);
  inv_returning : ∀ i d, futures s !! i = Some (Future.RETURNING d) →
                    is_Some (bound s !! d);
  inv_bound : ∀ d r, bound s !! d = Some r → r < N;
  inv_returned : ∀ i r, futures s !! i = Some (Future.FINISHED (Return r)) → r < N;
  inv_raised : ∀ i e, futures s !! i = Some (Future.FINISHED (Raise e)) →
                 isinstance_Exception e = false;
  inv_no_cancel : ∀ i f, futures s !! i = Some f → ¬ is_cancelled f;
  inv_nodup : NoDup (yielded s);
  inv_yielded : ∀ i, i ∈ yielded s → i < N;
  inv_sink : ∀ r, r ∈ status_contexts s → r < N;
  inv_sink_length : length (status_contexts s) ≤ length (yielded s);
  inv_no_raise : collector_raised s = None →
                 length (status_contexts s) = length (yielded s)
}.

(** Every task's loop ends, whatever record and driver it starts from. *)
Definition always_terminates : Prop :=
  ∀ (σ : Store) (c : Context_),
    ∃ fuel, is_Some (run_until_finished fuel σ c).

(** [as_completed] has yielded every future: the loop of
    [process_completed_tasks] has ended. *)
Definition collector_done (s : Run) : Prop :=
  ∀ i, i < length (futures s) → i ∈ yielded s.

(** What is left to do in a run: the steps its futures still have to take
    and the futures still to be yielded. *)
Definition rank (f : Future.State Session) : nat :=
  match f with
  | Future.PENDING => 4
  | Future.RUNNING None => 3
  | Future.RUNNING (Some _) => 2
  | Future.RETURNING _ => 1
  | Future.CANCELLED => 1
  | Future.CANCELLED_AND_NOTIFIED | Future.FINISHED _ => 0
  end.

Definition to_yield (n : nat) (ys : list nat) : nat :=
  length (filter (λ i, i ∉ ys) (seq 0 n)).

Definition remaining (s : Run) : nat :=
  sum_list (rank <$> futures s) + to_yield (length (futures s)) (yielded s).

(** A future is ready for the collector and, if it has finished, returned its
    own record. *)
Definition collectable (fs : Futures) (i : nat) : Prop :=
  ∃ f, fs !! i = Some f ∧ Future.as_completed_ready f = true
       ∧ ∀ res, f = Future.FINISHED res → res = Return i.

End Webharvest.
Arguments Run : clear implicits.
Arguments Drained : clear implicits.
Arguments Main : clear implicits.

(** ** webharvest/driver.py: reading tables and lists *)

(** [TableDataSchema] of [schemas.py] *)
Record TableDataSchema : Type := mkTableData {
  header : list (option string);
  body : list (list (option string))
}.

(** A [tr] element as [get_simple_table_data] queries it: the [textContent]
    attribute ([None] when the attribute is no string) of the cells that
    [find_elements(By.XPATH, ".//th")] and [find_elements(By.XPATH, ".//td")]
    return for the row, in the order in which they return them. *)
Record RowElement : Type := mkRow {
  th_texts : list (option string);
  td_texts : list (option string)
}.

(** [list.pop()]: the last item and the list without it, [None] on the empty
    list, where Python raises [IndexError]. *)
Definition list_pop {A} (l : list A) : option (A * list A) :=
  match reverse l with
  | [] => None
  | x :: r => Some (x, reverse r)
  end.

Section Tables.
(** [str.strip] of Python. *)
Context (strip : string → string).

(** [DriverContext._safe_textContent_getter], given the attribute. *)
Definition _safe_textContent_getter (text_content : option string) : option string :=
  match text_content with
  | Some text => Some (strip text)
  | None => None
  end.

(** [DriverContext.get_simple_table_data], given the rows that
    [find_elements(By.XPATH, ".//tr")] returns for the table. *)
Definition get_simple_table_data (found_rows : list RowElement)
  : PyResult TableDataSchema :=
  let table_rows := reverse found_rows in
  match list_pop table_rows with
  | None => Raise (OtherException "IndexError: pop from empty list")
  | Some (header_row, table_rows) =>
      let headers := _safe_textContent_getter <$> th_texts header_row in
      let body :=
        match headers with
        | [] => [_safe_textContent_getter <$> td_texts header_row]
        | _ :: _ => []
        end in
      let body :=
        body ++ ((λ row, _safe_textContent_getter <$> td_texts row) <$> table_rows) in
      Return (mkTableData headers (reverse body))
  end.

(** [DriverContext.get_simple_list_data], given the [textContent] of the
    items that [find_elements(By.XPATH, ".//li")] returns for the list. *)
Definition get_simple_list_data (found_items : list (option string))
  : list (option string) :=
  _safe_textContent_getter <$> reverse found_items.

End Tables.

(** ** webharvest/webscrapper.py: the warm-up of the driver queue *)

Definition returned {A} (res : PyResult A) : bool :=
  match res with
  | Return _ => true
  | Raise _ => false
  end.

Section WarmUp.
Context {Session : Type}.

#[local] Abbreviation Context_ := (DriverContext Session).

(** A driver context as [DriverContext.__init__] leaves it: the webdriver is
    there, no record is bound and no state is installed. *)
Definition new_context (id : nat) (d : Session) : Context_ :=
  mkDriverContext id d None None false.

(** [Webscrapper.generate_driver_context] in the slot [id]: [created] is what
    the constructor of the driver context class, which creates the webdriver,
    returns or raises. *)
Definition generate_driver_context (initial_state : PyClass) (id : nat)
    (created : PyResult Session) : PyResult Context_ :=
  match created with
  | Raise e => Raise e
  | Return d => set_state (new_context id d) initial_state
  end.

(** [Webscrapper.setup_driver_context]: the result of the future is put into
    the queue; an exception is logged by one of the two handlers. [None]
    when [put] blocks for ever. *)
Definition setup_driver_context (q : Queue Context_) (result : PyResult Context_)
  : option (Queue Context_) :=
  match result with
  | Return c => Queue_put c q
  | Raise e => Some q
  end.

(** The loop of [initialize_driver_pool] over the futures in the order in
    which [as_completed] yields them. *)
Fixpoint setup_driver_contexts (initial_state : PyClass)
    (create : nat → PyResult Session) (order : list nat) (q : Queue Context_)
  : option (Queue Context_) :=
  match order with
  | [] => Some q
  | id :: order' =>
      match setup_driver_context q
              (generate_driver_context initial_state id (create id)) with
      | None => None
      | Some q' => setup_driver_contexts initial_state create order' q'
      end
  end.

(** [Webscrapper.initialize_driver_pool]. [ThreadPoolExecutor] refuses
    [max_workers <= 0] with [ValueError]; otherwise [threads_num] futures are
    submitted, joined, and set up in the order [order] of their completion. *)
Definition initialize_driver_pool (opts : WebscrapperOptionsSchema)
    (initial_state : PyClass) (create : nat → PyResult Session)
    (order : list nat) (q : Queue Context_)
  : option (PyResult (Queue Context_)) :=
  if decide (threads_num opts = 0) then
    Some (Raise (ValueError "max_workers must be greater than 0"))
  else Return <$> setup_driver_contexts initial_state create order q.

(** The context that a slot contributes to the queue, if any. *)
Definition pooled_context (initial_state : PyClass) (create : nat → PyResult Session)
    (id : nat) : option Context_ :=
  match generate_driver_context initial_state id (create id) with
  | Return c => Some c
  | Raise _ => None
  end.

(** The queue that [Webscrapper.__init__] creates. *)
Definition new_driver_queue (opts : WebscrapperOptionsSchema) : Queue Context_ :=
  mkQueue (threads_num opts) [] 0.

(** The slots in which the warm-up has created a webdriver. *)
Definition created_drivers (create : nat → PyResult Session) (order : list nat)
  : list nat :=
  filter (λ id, returned (create id) = true) order.

End WarmUp.

(** ** The vocabulary of further properties of runs *)

Section RunVocabulary.
Context {InputDataT OutputDataT Session : Type}.

#[local] Abbreviation Status := (ContextStatusSchema InputDataT OutputDataT).
#[local] Abbreviation Futures := (list (Future.State Session)).
#[local] Abbreviation Run_ := (Run InputDataT OutputDataT Session).

(** The executor has been joined, as at the end of the [with] block of
    [create_and_submit_tasks]: no future is pending or running. *)
Definition joined (s : Run_) : Prop :=
  Forall (λ f, Future.as_completed_ready f = true) (futures s).

(** The drivers that the worker threads hold. *)
Definition held_driver (f : Future.State Session) : option nat :=
  match f with
  | Future.RUNNING (Some c) => Some (driver_id c)
  | _ => None
  end.

Definition held_ids (fs : Futures) : list nat := omap held_driver fs.

(** A record as a call of [scrape_item] leaves it when it returns: with a
    terminal status, or with the [Exception] that ended its loop, which a
    handler has stored. *)
Definition left_by_worker (cs : Status) : Prop :=
  status cs ∈ Terminal ∨ ∃ e, error cs = Some e ∧ isinstance_Exception e = true.

(** A record on which [process_completed_future] has nothing left to do: its
    status is the one that the collector sets for its error. *)
Definition settled (cs : Status) : Prop :=
  ∀ e, error cs = Some e →
    (isinstance_WebScrapperException e = true → status cs = FAILED)
    ∧ (isinstance_WebScrapperException e = false → isinstance_Exception e = true →
       status cs = CRITICAL).

(** The call of a future has left its [try], or is over. *)
Definition has_left_try (f : Future.State Session) : Prop :=
  match f with
  | Future.RETURNING _ | Future.FINISHED _ => True
  | _ => False
  end.

(** What holds of the collector during a run: it works on a joined
    executor, and the records it has passed on are settled. *)
Record records_invariant (s : Run_) : Prop := mkRecordsInvariant {
  rec_joined : yielded s ≠ [] → joined s;
  rec_handed : ∀ r, r ∈ status_contexts s →
                 ∃ cs, scraping_contexts s !! r = Some cs ∧ settled cs
}.

(** What holds besides when no step raises anything but an [Exception]: no
    future holds an exception, the record of a call that has left its [try]
    is as a worker leaves it, and the records passed on have a terminal
    status. *)
Record handled_invariant (s : Run_) : Prop := mkHandledInvariant {
  han_returned : ∀ i e, futures s !! i ≠ Some (Future.FINISHED (Raise e));
  han_finished : ∀ i f, futures s !! i = Some f → has_left_try f →
                   ∃ cs, scraping_contexts s !! i = Some cs ∧ left_by_worker cs;
  han_handed : ∀ r, r ∈ status_contexts s →
                 ∃ cs, scraping_contexts s !! r = Some cs ∧ status cs ∈ Terminal
}.

(** What holds besides in a run of a single worker thread whose steps raise
    only [Exception]s: a driver object is bound to the record of the call
    that holds it or is about to read its attribute, and every future that
    has finished has returned its own record. *)
Record sequential_invariant (s : Run_) : Prop := mkSequentialInvariant {
  seq_held : ∀ i c, futures s !! i = Some (Future.RUNNING (Some c)) →
               bound s !! driver_id c = Some i;
  seq_returning : ∀ i d, futures s !! i = Some (Future.RETURNING d) →
                    bound s !! d = Some i;
  seq_finished : own_records s
}.

(** What the collector writes when no future is cancelled. *)
Definition marked_failed (cs cs' : Status) : Prop :=
  cs' = cs ∨ cs' = set_status FAILED cs ∨ cs' = set_status CRITICAL cs.

(** A run whose pool holds no driver, before the collector starts: the queue
    is empty, no worker holds a driver, a future that has finished has raised
    [queue.Empty], and no record has been written or passed on. *)
Definition waits_in_vain (σ : list Status) (s : Run_) : Prop :=
  queue (driver_queue s) = []
  ∧ scraping_contexts s = σ
  ∧ length (futures s) = length σ
  ∧ ∀ i f, futures s !! i = Some f →
      f = Future.PENDING ∨ f = Future.RUNNING None
      ∨ f = Future.FINISHED (Raise queue_Empty).

End RunVocabulary.

(** ** webharvest/webscrapper.py: [start_scraping], end to end *)

Section StartScraping.
Context {InputDataT OutputDataT Session : Type}.
Context (state_run : PyClass → Session → ContextStatusSchema InputDataT OutputDataT
                     → StepEffect InputDataT OutputDataT Session).

#[local] Abbreviation Store := (list (ContextStatusSchema InputDataT OutputDataT)).
#[local] Abbreviation Context_ := (DriverContext Session).
#[local] Abbreviation Run_ := (Run InputDataT OutputDataT Session).

(** The run in which [create_and_submit_tasks] has submitted one future per
    record, with the driver queue as the warm-up has left it. *)
Definition submitted (σ : Store) (q : Queue Context_) : Run_ :=
  mkRun σ (replicate (length σ) Future.PENDING) q [] [] None ∅.

(** [Webscrapper.create_and_submit_tasks]: an executor of [threads_num]
    workers gets one future per record, and the [with] block joins the
    workers. [schedule] is what the worker threads do inside the block, step
    by step. [None] when [schedule] is no schedule of the workers of this
    run, when a loop does not end within [fuel], and when [schedule] leaves a
    future pending or running, where the block would not be left yet. *)
Definition create_and_submit_tasks (opts : WebscrapperOptionsSchema) (fuel : nat)
    (schedule : list Label) (σ : Store) (q : Queue Context_)
  : option (PyResult Run_) :=
  if decide (threads_num opts = 0) then
    Some (Raise (ValueError "max_workers must be greater than 0"))
  else if forallb is_worker_step schedule then
    match exec_steps state_run (threads_num opts) fuel schedule (submitted σ q) with
    | Some s =>
        if forallb Future.as_completed_ready (futures s) then Some (Return s)
        else None
    | None => None
    end
  else None.

(** What [start_scraping] has done when it is left: the records, the
    records passed to [add_context_status], in that order, what the drain has
    done if it was reached, and the exception that leaves [start_scraping],
    if one does; without one, [stop_processing] of the manager is called
    next. *)
Record Scraped : Type := mkScraped {
  records : Store;
  handed : list nat;
  drain : option (Drained Session);
  raised : option PyException
}.

(** [Webscrapper.start_scraping], steps 1 to 5, when no signal arrives.
    [generated] is what [generate_scraping_contexts] of the manager returns or
    raises, [create] what the constructor of the driver context does in each
    slot of the warm-up, [warm_order] and [order] the orders in which
    [as_completed] yields the futures of the warm-up and of the tasks. *)
Definition start_scraping (opts : WebscrapperOptionsSchema) (initial_state : PyClass)
    (create : nat → PyResult Session) (generated : PyResult Store)
    (warm_order : list nat) (fuel : nat) (schedule : list Label) (order : list nat)
  : option Scraped :=
  match generated with
  | Raise e => Some (mkScraped [] [] None (Some e))
  | Return σ =>
      match initialize_driver_pool opts initial_state create warm_order
              (new_driver_queue opts) with
      | None => None
      | Some (Raise e) => Some (mkScraped σ [] None (Some e))
      | Some (Return q) =>
          match create_and_submit_tasks opts fuel schedule σ q with
          | None => None
          | Some (Raise e) => Some (mkScraped σ [] None (Some e))
          | Some (Return s) =>
              match process_completed_tasks order (scraping_contexts s)
                      (futures s) [] with
              | None => None
              | Some (σ', _, sink, Raise e) => Some (mkScraped σ' sink None (Some e))
              | Some (σ', _, sink, Return _) =>
                  let d := clear_driver_queue opts (driver_queue s) in
                  Some (mkScraped σ' sink (Some d) (drain_raised d))
              end
          end
      end
  end.

End StartScraping.
Arguments Scraped : clear implicits.

(** ** examples/mywebscrapper: a small step graph *)

Module MyWebscrapper.

(** [schemas.py] *)
Record InputData : Type := mkInput { search_item : string }.
Record OutputData : Type := mkOutput { data : option string }.

(** The session of the example: the address of the page the browser shows,
    which also stands for its source. *)
Definition Page : Type := string.

(** [states.py]: [MyDriverState] leaves [run] abstract, [InitialState] and
    [FinalState] implement it. *)
Definition MyDriverState : PyClass := mkClass "MyDriverState" true true None.
Definition InitialState : PyClass := mkClass "InitialState" true false None.
Definition FinalState : PyClass := mkClass "FinalState" true false None.

(** Two more states, which only fail: one with the expected exception of the
    package, one with an exception of another class. *)
Definition NotFoundState : PyClass := mkClass "NotFoundState" true false None.
Definition CrashState : PyClass := mkClass "CrashState" true false None.

(** A state that serves one task and then ends the program: its step
    installs [ExitState], whose step calls [sys.exit(1)]. *)
Definition OnceState : PyClass := mkClass "OnceState" true false None.
Definition ExitState : PyClass := mkClass "ExitState" true false None.

(** A state whose own constructor fails. *)
Definition BrokenState : PyClass :=
  mkClass "BrokenState" true false (Some (ValueError "no page to start from")).

Definition GOOGLE_URL : string := "https://www.google.com/".

(** The bodies of [run]. *)
Definition state_run (cls : PyClass) (page : Page)
    (cs : ContextStatusSchema InputData OutputData)
  : StepEffect InputData OutputData Page :=
  if decide (cls = InitialState) then
    mkEffect cs (GOOGLE_URL +:+ "/search?q=" +:+ search_item (input_data cs))
             (Some FinalState) None
  else if decide (cls = FinalState) then
    mkEffect (mkContextStatus SUCCEED (error cs) (current_state cs)
                (input_data cs) (mkOutput (Some page)) (tmp_data cs))
             page None None
  else if decide (cls = NotFoundState) then
    mkEffect cs page None (Some (WebScrapperException "not found"))
  else if decide (cls = CrashState) then
    mkEffect cs page (Some FinalState) (Some (OtherException "crash"))
  else
    mkEffect cs page None (Some (OtherException "run method not implemented")).

(** The step graph with [OnceState] and [ExitState] added. *)
Definition exiting_run (cls : PyClass) (page : Page)
    (cs : ContextStatusSchema InputData OutputData)
  : StepEffect InputData OutputData Page :=
  if decide (cls = OnceState) then
    mkEffect (mkContextStatus SUCCEED (error cs) (current_state cs)
                (input_data cs) (mkOutput (Some page)) (tmp_data cs))
             page (Some ExitState) None
  else if decide (cls = ExitState) then
    mkEffect cs page None (Some (SystemExit 1))
  else state_run cls page cs.

(** A step graph whose steps write their own note into [current_state]
    before they fail. *)
Definition renaming_run (cls : PyClass) (page : Page)
    (cs : ContextStatusSchema InputData OutputData)
  : StepEffect InputData OutputData Page :=
  mkEffect (set_current_state (Some "retrying") cs) page None
           (Some (OtherException "crash")).

(** The record that [generate_scraping_contexts] of the example creates. *)
Definition dummy_context_status : ContextStatusSchema InputData OutputData :=
  blank_context_status (mkInput "python") (mkOutput None).

(** A driver context as [generate_driver_context] returns it, in the initial
    state [cls]. *)
Definition new_driver (id : nat) (cls : PyClass) : DriverContext Page :=
  mkDriverContext id "about:blank" None (Some (mkDriverState cls id)) false.

(** Inputs for the instances of the theorems. *)

(** One record, and a driver in the initial state that is bound to it. *)
Definition ex_store : list (ContextStatusSchema InputData OutputData) :=
  [dummy_context_status].

Definition ex_context (cls : PyClass) : DriverContext Page :=
  with_status (Some 0) (new_driver 0 cls).

(** Records as workers return them: one that failed as expected, one that
    crashed, one that succeeded. *)
Definition not_found_record : ContextStatusSchema InputData OutputData :=
  mkContextStatus INITIALIZED (Some (WebScrapperException "not found"))
    (Some "NotFoundState") (mkInput "python") (mkOutput None) ∅.

Definition crashed_record : ContextStatusSchema InputData OutputData :=
  mkContextStatus INITIALIZED (Some (OtherException "crash"))
    (Some "CrashState") (mkInput "python") (mkOutput None) ∅.

Definition succeeded_record : ContextStatusSchema InputData OutputData :=
  mkContextStatus SUCCEED None (Some "FinalState") (mkInput "python")
    (mkOutput (Some "page")) ∅.

(** A class that has nothing to do with [DriverState]. *)
Definition str_cls : PyClass := mkClass "str" false false None.

(** Three records returned or left by their workers, and their futures. *)
Definition collected_store : list (ContextStatusSchema InputData OutputData) :=
  [not_found_record; crashed_record; dummy_context_status; dummy_context_status].

Definition collected_futures : list (Future.State Page) :=
  [Future.FINISHED (Return 0); Future.FINISHED (Return 1);
   Future.CANCELLED_AND_NOTIFIED; Future.PENDING].

(** Inputs for the instances of the further properties. *)

(** [str.strip] on blanks. *)
Fixpoint lstrip (s : string) : string :=
  match s with
  | String a s' => if Ascii.eqb a (Ascii.ascii_of_nat 32) then lstrip s' else s
  | EmptyString => s
  end.

Definition strip_blanks (s : string) : string :=
  String.rev (lstrip (String.rev (lstrip s))).

(** The rows of a table with a header row and of one without, and the
    items of a list. *)
Definition headed_rows : list RowElement :=
  [mkRow [Some " Name "; Some "Age"] [];
   mkRow [] [Some "Ann"; Some " 7"];
   mkRow [] [Some "Bob "; None]].

Definition headless_rows : list RowElement :=
  [mkRow [] [Some "Ann"; Some " 7"];
   mkRow [] [Some "Bob "; None]].

Definition list_items : list (option string) :=
  [Some " one"; None; Some "three "].

(** A warm-up of two slots in which the browser of slot 1 does not start. *)
Definition create_one_of_two (id : nat) : PyResult Page :=
  if decide (id = 1) then Raise (OtherException "session not created")
  else Return "about:blank".

Definition create_all (id : nat) : PyResult Page := Return "about:blank".

(** Two records with different searches. *)
Definition two_searches : list (ContextStatusSchema InputData OutputData) :=
  [blank_context_status (mkInput "python") (mkOutput None);
   blank_context_status (mkInput "rocq") (mkOutput None)].

(** Futures of which the second has given up waiting for a driver. *)
Definition starved_futures : list (Future.State Page) :=
  [Future.FINISHED (Return 0); Future.FINISHED (Raise queue_Empty);
   Future.FINISHED (Return 2)].

(** Futures that have all returned, for the records [collected_store]. *)
Definition joined_futures : list (Future.State Page) :=
  [Future.FINISHED (Return 0); Future.FINISHED (Return 1);
   Future.FINISHED (Return 2); Future.FINISHED (Return 3)].

(** Two workers that hold the two drivers of the pool. *)
Definition holding_schedule : list Label :=
  [Start 0; Start 1; Acquire 1; Acquire 0].

Definition both_held : Run InputData OutputData Page :=
  mkRun two_searches
        [Future.RUNNING (Some (new_driver 0 InitialState));
         Future.RUNNING (Some (new_driver 1 InitialState))]
        (mkQueue 2 [] 2) [] [] None (<[0 := 0]> {[1 := 1]}).

(** One worker and one driver that starts in [CrashState], two records: the
    worker runs both tasks before the executor is joined; then the collector
    takes the two futures. *)
Definition two_records : list (ContextStatusSchema InputData OutputData) :=
  [dummy_context_status; dummy_context_status].

(** The first task has taken the driver. *)
Definition first_acquired : Run InputData OutputData Page :=
  mkRun two_records
        [Future.RUNNING (Some (new_driver 0 CrashState)); Future.PENDING]
        (mkQueue 1 [] 1) [] [] None {[0 := 0]}.

Definition joining_schedule : list Label :=
  [Start 0; Acquire 0; Finish 0; ReturnStatus 0;
   Start 1; Acquire 1; Finish 1; ReturnStatus 1].

Definition blank_page_record : ContextStatusSchema InputData OutputData :=
  mkContextStatus SUCCEED None (Some "FinalState") (mkInput "python")
    (mkOutput (Some "about:blank")) ∅.

Definition after_join : Run InputData OutputData Page :=
  mkRun [crashed_record; blank_page_record]
        [Future.FINISHED (Return 0); Future.FINISHED (Return 1)]
        (mkQueue 1 [with_status (Some 1) (new_driver 0 FinalState)] 1) [] [] None
        {[0 := 1]}.

Definition first_collected : Run InputData OutputData Page :=
  mkRun [set_status CRITICAL crashed_record; blank_page_record]
        [Future.FINISHED (Return 0); Future.FINISHED (Return 1)]
        (mkQueue 1 [with_status (Some 1) (new_driver 0 FinalState)] 1) [0] [0] None
        {[0 := 1]}.

Definition collecting_schedule : list Label :=
  joining_schedule ++ [Collect 0; Collect 1].

Definition after_collection : Run InputData OutputData Page :=
  mkRun [set_status CRITICAL crashed_record; blank_page_record]
        [Future.FINISHED (Return 0); Future.FINISHED (Return 1)]
        (mkQueue 1 [with_status (Some 1) (new_driver 0 FinalState)] 1) [0; 1] [0; 1]
        None {[0 := 1]}.

(** The same worker, interrupted: SIGINT arrives while the first task runs.
    The handler cancels the second future, waits for the driver, quits it
    and exits; the worker finishes its call and drops the cancelled work
    item. *)
Definition interrupted_schedule : list SignalLabel :=
  [Thread (Start 0); Thread (Acquire 0); SIGINT; Thread (Finish 0); HandlerClear;
   HandlerExit; Thread (ReturnStatus 0); Thread (DropCancelled 1)].

Definition after_interrupt : Run InputData OutputData Page :=
  mkRun [crashed_record; dummy_context_status]
        [Future.FINISHED (Return 0); Future.CANCELLED_AND_NOTIFIED]
        (mkQueue 1 [] 0) [] [] None {[0 := 0]}.

(** Two workers, two drivers, three records. The call for record 0 has put
    its driver back and has its [return] left; meanwhile the other worker
    takes that driver for record 2. *)
Definition three_records : list (ContextStatusSchema InputData OutputData) :=
  [dummy_context_status; dummy_context_status; dummy_context_status].

Definition racing_schedule : list Label :=
  [Start 0; Start 1; Acquire 0; Acquire 1; Finish 0; Finish 1; ReturnStatus 1;
   Start 2; Acquire 2; ReturnStatus 0; Finish 2; ReturnStatus 2].

(** The same schedule when the driver of record 0 ends the program on its
    second task. *)
Definition exiting_schedule : list Label :=
  [Start 0; Start 1; Acquire 0; Acquire 1; Finish 0; Finish 1; ReturnStatus 1;
   Start 2; Acquire 2; ReturnStatus 0; Finish 2].

End MyWebscrapper.

(** * Properties *)

(** The cases of a step of a run, with the names used throughout. *)
Ltac step_cases H :=
  destruct H as [σ fs q sink ys err b i Hi Hlt
                |σ fs q sink ys err b i Hi
                |σ fs q sink ys err b i c q' Hi Hget
                |σ fs q sink ys err b i w Hi Hget
                |σ fs q sink ys err b i c fuel q' σ' c' Hi Htry
                |σ fs q sink ys err b i c fuel q' σ' c' e Hi Htry
                |σ fs q sink ys err b i d Hi
                |σ fs q sink ys b i f σ' fs' r Hjoin Hi Hnew Hp
                |σ fs q sink ys b i f σ' fs' e Hjoin Hi Hnew Hp].

(** Changing one field of a record in place is overwriting the record. *)
Lemma alter_as_insert {A} (f : A → A) (l : list A) i x :
  l !! i = Some x → alter f i l = <[i := f x]> l.
Proof.
  intros H. apply list_eq; intros k. destruct (decide (k = i)) as [->|].
  - rewrite list_lookup_alter_eq, H. simpl.
    by rewrite list_lookup_insert_eq by by eapply lookup_lt_Some.
  - by rewrite list_lookup_alter_ne, list_lookup_insert_ne.
Qed.

Section Properties.
Context {InputDataT OutputDataT Session : Type}.
Context (state_run : PyClass → Session → ContextStatusSchema InputDataT OutputDataT
                     → StepEffect InputDataT OutputDataT Session).

#[local] Abbreviation Status := (ContextStatusSchema InputDataT OutputDataT).
#[local] Abbreviation Store := (list (ContextStatusSchema InputDataT OutputDataT)).
#[local] Abbreviation Context_ := (DriverContext Session).
#[local] Abbreviation Futures := (list (Future.State Session)).
#[local] Abbreviation Run_ := (Run InputDataT OutputDataT Session).

(** ** The state machine of a driver context *)

Lemma has_finished_bound (σ : Store) (c : Context_) cs :
  status_of σ c = Some cs →
  has_finished σ c = Return (bool_decide (status cs ∈ Terminal)).
Proof. intros H. unfold has_finished. by rewrite H. Qed.

Lemma apply_effect_context_status (c c' : Context_)
    (eff : StepEffect InputDataT OutputDataT Session) res :
  apply_effect c eff = (c', res) → context_status c' = context_status c.
Proof.
  unfold apply_effect, set_state.
  destruct (eff_set_state eff) as [cls|]; [|by intros [= <- _]].
  destruct (negb _); [by intros [= <- _]|].
  destruct (cls_abstract cls); [by intros [= <- _]|].
  destruct (cls_init cls); by intros [= <- _].
Qed.

Lemma apply_effect_driver_id (c c' : Context_)
    (eff : StepEffect InputDataT OutputDataT Session) res :
  apply_effect c eff = (c', res) → driver_id c' = driver_id c.
Proof.
  unfold apply_effect, set_state.
  destruct (eff_set_state eff) as [cls|]; [|by intros [= <- _]].
  destruct (negb _); [by intros [= <- _]|].
  destruct (cls_abstract cls); [by intros [= <- _]|].
  destruct (cls_init cls); by intros [= <- _].
Qed.

Lemma run_context_status (σ σ' : Store) (c c' : Context_) res :
  run state_run σ c = (σ', c', res) → context_status c' = context_status c.
Proof.
  unfold run. destruct (state c) as [st|]; [|by intros [= _ <- _]].
  destruct (context_status c) as [r|] eqn:Hr; [|by intros [= _ <- _]; rewrite Hr].
  destruct (σ !! r) as [cs|]; [|by intros [= _ <- _]; rewrite Hr].
  destruct (apply_effect _ _) as [c1 res1] eqn:He. intros [= _ <- _].
  rewrite <- Hr. by eapply apply_effect_context_status.
Qed.

Lemma run_driver_id (σ σ' : Store) (c c' : Context_) res :
  run state_run σ c = (σ', c', res) → driver_id c' = driver_id c.
Proof.
  unfold run. destruct (state c) as [st|]; [|by intros [= _ <- _]].
  destruct (context_status c) as [r|] eqn:Hr; [|by intros [= _ <- _]].
  destruct (σ !! r) as [cs|]; [|by intros [= _ <- _]].
  destruct (apply_effect _ _) as [c1 res1] eqn:He. intros [= _ <- _].
  by eapply apply_effect_driver_id.
Qed.

Lemma run_length (σ σ' : Store) (c c' : Context_) res :
  run state_run σ c = (σ', c', res) → length σ' = length σ.
Proof.
  unfold run. destruct (state c) as [st|]; [|by intros [= <- _ _]].
  destruct (context_status c) as [r|]; [|by intros [= <- _ _]].
  destruct (σ !! r) as [cs|]; [|by intros [= <- _ _]].
  destruct (apply_effect _ _) as [c1 res1]. intros [= <- _ _].
  by rewrite length_insert.
Qed.

(** A step touches no record but the one its context is bound to. *)
Lemma run_other_records (σ σ' : Store) (c c' : Context_) res j :
  run state_run σ c = (σ', c', res) → context_status c ≠ Some j → σ' !! j = σ !! j.
Proof.
  unfold run. destruct (state c) as [st|]; [|by intros [= <- _ _]].
  destruct (context_status c) as [r|]; [|by intros [= <- _ _]].
  destruct (σ !! r) as [cs|]; [|by intros [= <- _ _]].
  destruct (apply_effect _ _) as [c1 res1]. intros [= <- _ _] Hne.
  apply list_lookup_insert_ne. congruence.
Qed.

Lemma run_bound (σ σ' : Store) (c c' : Context_) res :
  run state_run σ c = (σ', c', res) →
  is_Some (status_of σ c) → is_Some (status_of σ' c').
Proof.
  intros Hrun [cs Hcs]. unfold status_of in *.
  rewrite (run_context_status _ _ _ _ _ Hrun).
  destruct (context_status c) as [r|]; [|done]. simpl in *.
  apply lookup_lt_is_Some. rewrite (run_length _ _ _ _ _ Hrun).
  by eapply lookup_lt_Some.
Qed.

Lemma run_until_finished_sound fuel : ∀ (σ : Store) (c : Context_) σ' c' res,
  is_Some (status_of σ c) →
  run_until_finished state_run fuel σ c = Some (σ', c', res) →
  spec_execution state_run σ c σ' c' res.
Proof.
  induction fuel as [|fuel IH]; intros σ c σ' c' res [cs Hcs] Hloop; [done|].
  simpl in Hloop. rewrite (has_finished_bound _ _ _ Hcs) in Hloop.
  case_bool_decide as Hterm.
  - injection Hloop as <- <- <-. by eapply spec_terminal.
  - destruct (run state_run σ c) as [[σ1 c1] [[]|e]] eqn:Hrun.
    + eapply spec_step; [done..|]. apply IH; [|done].
      eapply run_bound; [done|by eexists].
    + injection Hloop as <- <- <-. by eapply spec_raise.
Qed.

Lemma run_until_finished_complete (σ σ' : Store) (c c' : Context_) res :
  spec_execution state_run σ c σ' c' res →
  ∃ fuel, run_until_finished state_run fuel σ c = Some (σ', c', res).
Proof.
  induction 1 as [σ c cs Hcs Hterm|σ c cs σ' c' e Hcs Hterm Hrun
                  |σ c cs σ1 c1 σ' c' res Hcs Hterm Hrun _ [fuel IH]].
  - exists 1. simpl. rewrite (has_finished_bound _ _ _ Hcs).
    by rewrite bool_decide_eq_true_2.
  - exists 1. simpl. rewrite (has_finished_bound _ _ _ Hcs).
    rewrite bool_decide_eq_false_2 by done. by rewrite Hrun.
  - exists (S fuel). simpl. rewrite (has_finished_bound _ _ _ Hcs).
    rewrite bool_decide_eq_false_2 by done. by rewrite Hrun.
Qed.

Lemma spec_execution_returns_terminal (σ σ' : Store) (c c' : Context_) :
  spec_execution state_run σ c σ' c' (Return ()) →
  ∃ cs', status_of σ' c' = Some cs' ∧ status cs' ∈ Terminal.
Proof.
  intros H. remember (Return ()) as res eqn:Hres.
  induction H; [by eauto|done|by auto].
Qed.

(** More fuel does not change what the loop returns. *)
Lemma run_until_finished_more fuel : ∀ (σ : Store) (c : Context_) out,
  run_until_finished state_run fuel σ c = Some out →
  run_until_finished state_run (S fuel) σ c = Some out.
Proof.
  induction fuel as [|fuel IH]; intros σ c out; [done|].
  intros H. change (run_until_finished state_run (S (S fuel)) σ c) with
    (match has_finished σ c with
     | Raise e => Some (σ, c, Raise e)
     | Return true => Some (σ, c, Return ())
     | Return false =>
         match run state_run σ c with
         | (σ', c', Raise e) => Some (σ', c', Raise e)
         | (σ', c', Return _) => run_until_finished state_run (S fuel) σ' c'
         end
     end).
  simpl in H. destruct (has_finished σ c) as [[]|]; [done| |done].
  destruct (run state_run σ c) as [[σ1 c1] [[]|e]]; [by apply IH|done].
Qed.

(** C5: the worker's loop runs the current step while, and only while, the
    status of the record is outside the terminal set {SUCCEED, FAILED,
    CRITICAL, CANCELLED}. With enough fuel the loop of [scrape_item] returns
    exactly what the specification's
    [while record.status ∉ Terminal: currentStep.run()] returns; on a terminal
    status it returns at once and runs no step; on another status it runs the
    step and goes on unless the step raised; and when it returns normally the
    status is terminal. *)
Theorem scrape_loop_runs_until_terminal (σ σ' : Store) (c c' : Context_) res :
  is_Some (status_of σ c) →
  ((∃ fuel, run_until_finished state_run fuel σ c = Some (σ', c', res))
     ↔ spec_execution state_run σ c σ' c' res)
  ∧ (∀ fuel cs, status_of σ c = Some cs → status cs ∈ Terminal →
       run_until_finished state_run (S fuel) σ c = Some (σ, c, Return ()))
  ∧ (∀ fuel cs, status_of σ c = Some cs → status cs ∉ Terminal →
       run_until_finished state_run (S fuel) σ c =
         match run state_run σ c with
         | (σ1, c1, Raise e) => Some (σ1, c1, Raise e)
         | (σ1, c1, Return _) => run_until_finished state_run fuel σ1 c1
         end)
  ∧ (∀ fuel, run_until_finished state_run fuel σ c = Some (σ', c', Return ()) →
       ∃ cs', status_of σ' c' = Some cs' ∧ status cs' ∈ Terminal).
Proof.
  intros Hbound. repeat split.
  - intros [fuel Hloop]. by eapply run_until_finished_sound.
  - apply run_until_finished_complete.
  - intros fuel cs Hcs Hterm. simpl. rewrite (has_finished_bound _ _ _ Hcs).
    by rewrite bool_decide_eq_true_2.
  - intros fuel cs Hcs Hterm. simpl. rewrite (has_finished_bound _ _ _ Hcs).
    by rewrite bool_decide_eq_false_2.
  - intros fuel Hloop. apply (spec_execution_returns_terminal σ σ' c c').
    by eapply run_until_finished_sound.
Qed.

(** C9 (amended): [set_state] raises [TypeError] and assigns nothing when the
    class is not a subclass of [DriverState], and also when it is a subclass
    that is still abstract (as [DriverState] itself), because the class cannot
    be instantiated; when the constructor of a concrete subclass raises, the
    call raises that exception and assigns nothing; for every other subclass
    it installs a fresh instance of the class, bound to this context, and
    changes nothing else. *)
Theorem set_state_installs_concrete_subclasses (c : Context_) (cls : PyClass) :
  (cls_issubclass_DriverState cls = false →
     raises_TypeError (set_state c cls) ∧ after_set_state c cls = c)
  ∧ (cls_issubclass_DriverState cls = true → cls_abstract cls = true →
     raises_TypeError (set_state c cls) ∧ after_set_state c cls = c)
  ∧ (∀ e, cls_issubclass_DriverState cls = true → cls_abstract cls = false →
     cls_init cls = Some e →
     set_state c cls = Raise e ∧ after_set_state c cls = c)
  ∧ (cls_issubclass_DriverState cls = true → cls_abstract cls = false →
     cls_init cls = None →
     set_state c cls =
       Return (mkDriverContext (driver_id c) (driver c) (context_status c)
                 (Some (mkDriverState cls (driver_id c))) (quit_called c))).
Proof.
  unfold raises_TypeError, after_set_state, set_state.
  repeat split; intros; repeat match goal with H : _ = _ |- _ => rewrite H end;
    simpl; eauto.
Qed.

(** C10 (amended): [DriverContext.run] writes the class name of the
    installed state into [current_state] of the record before it executes the
    step: the step is called on the record that already carries the name.
    When the step raises, the record is as the step has left it; so
    [current_state] names the step that was running whenever the step has
    not itself overwritten the field, also when that step had installed
    another state before it failed. (A step that writes the field itself
    leaves what it has written.) *)
Theorem run_names_the_running_step (σ : Store) (c : Context_) st r cs :
  state c = Some st → context_status c = Some r → σ !! r = Some cs →
  let name := cls_name (state_cls st) in
  let cs1 := set_current_state (Some name) cs in
  let eff := state_run (state_cls st) (driver c) cs1 in
  current_state cs1 = Some name
  ∧ run state_run σ c =
      (<[r := eff_status eff]> σ, (apply_effect c eff).1, (apply_effect c eff).2)
  ∧ ∀ σ' c' e, run state_run σ c = (σ', c', Raise e) →
      current_state <$> status_of σ' c' = Some (current_state (eff_status eff))
      ∧ (current_state (eff_status eff) = current_state cs1 →
         current_state <$> status_of σ' c' = Some (Some name)).
Proof.
  intros Hst Hr Hcs name cs1 eff.
  assert (Hrun : run state_run σ c =
    (<[r := eff_status eff]> σ, (apply_effect c eff).1, (apply_effect c eff).2)).
  { unfold run. rewrite Hst, Hr, Hcs. fold name cs1 eff.
    by destruct (apply_effect c eff). }
  split; [done|]. split; [done|].
  intros σ' c' e Hraise.
  assert (current_state <$> status_of σ' c' = Some (current_state (eff_status eff)))
    as Heq.
  { unfold status_of.
    rewrite (run_context_status _ _ _ _ _ Hraise), Hr. simpl.
    rewrite Hrun in Hraise. injection Hraise as <- _ _.
    by rewrite list_lookup_insert_eq by by eapply lookup_lt_Some. }
  split; [done|]. intros Hkeep. by rewrite Heq, Hkeep.
Qed.

(** ** The result collector *)

Lemma cancel_futures_lookup (fs : Futures) j :
  cancel_futures fs !! j = Future.cancel <$> fs !! j.
Proof. apply list_lookup_fmap. Qed.

Lemma cancel_futures_no_PENDING (fs : Futures) j :
  cancel_futures fs !! j ≠ Some Future.PENDING.
Proof.
  rewrite cancel_futures_lookup. by destruct (fs !! j) as [[]|].
Qed.

(** When the executor has joined its workers, as the [with] block of
    [create_and_submit_tasks] does before the collector starts, every future
    has finished and [cancel_futures] changes none. *)
Lemma cancel_futures_joined (fs : Futures) :
  Forall (λ f, ∃ res, f = Future.FINISHED res) fs → cancel_futures fs = fs.
Proof.
  intros Hall. unfold cancel_futures.
  induction Hall as [|f fs [res ->] _ IH]; [done|].
  rewrite fmap_cons. simpl. by rewrite IH.
Qed.

(** C2: what [process_completed_future] does with a completed future. A
    record whose error is a [WebScrapperException] gets the status FAILED (its
    other fields stay as they are), no future is touched and the loop of
    [process_completed_tasks] goes on with the next future. A record with any
    other [Exception] gets the status CRITICAL and [cancel] is called on every
    future before the loop goes on, so that none is pending any more. A
    cancelled future gives its record the status CANCELLED. *)
Theorem collector_sets_failure_statuses (σ : Store) (fs : Futures) (i : nat)
    (order sink : list nat) :
  (∀ r cs e,
     fs !! i = Some (Future.FINISHED (Return r)) → σ !! r = Some cs →
     error cs = Some e → isinstance_WebScrapperException e = true →
     let cs' := mkContextStatus FAILED (Some e) (current_state cs)
                  (input_data cs) (output_data cs) (tmp_data cs) in
     process_completed_future σ fs i = Some (<[r := cs']> σ, fs, Return r)
     ∧ process_completed_tasks (i :: order) σ fs sink =
         process_completed_tasks order (<[r := cs']> σ) fs (sink ++ [r]))
  ∧ (∀ r cs e,
     fs !! i = Some (Future.FINISHED (Return r)) → σ !! r = Some cs →
     error cs = Some e → isinstance_WebScrapperException e = false →
     isinstance_Exception e = true →
     let cs' := mkContextStatus CRITICAL (Some e) (current_state cs)
                  (input_data cs) (output_data cs) (tmp_data cs) in
     process_completed_future σ fs i =
       Some (<[r := cs']> σ, Future.cancel <$> fs, Return r)
     ∧ process_completed_tasks (i :: order) σ fs sink =
         process_completed_tasks order (<[r := cs']> σ)
                                 (Future.cancel <$> fs) (sink ++ [r])
     ∧ ∀ j, fs !! j = Some Future.PENDING →
            (Future.cancel <$> fs) !! j = Some Future.CANCELLED)
  ∧ (∀ f cs,
     fs !! i = Some f → f = Future.CANCELLED ∨ f = Future.CANCELLED_AND_NOTIFIED →
     σ !! i = Some cs →
     let cs' := mkContextStatus CANCELLED (error cs) (current_state cs)
                  (input_data cs) (output_data cs) (tmp_data cs) in
     process_completed_future σ fs i = Some (<[i := cs']> σ, fs, Return i)).
Proof.
  split; [|split].
  - intros r cs e Hf Hr He Hexp cs'.
    assert (process_completed_future σ fs i = Some (<[r := cs']> σ, fs, Return r))
      as Hp.
    { unfold process_completed_future. rewrite Hf. simpl. rewrite Hr. simpl.
      rewrite He, Hexp. rewrite (alter_as_insert _ _ _ _ Hr).
      unfold set_status, cs'. by rewrite He. }
    split; [done|]. simpl. by rewrite Hp.
  - intros r cs e Hf Hr He Hexp Hexc cs'.
    assert (process_completed_future σ fs i =
              Some (<[r := cs']> σ, Future.cancel <$> fs, Return r))
      as Hp.
    { unfold process_completed_future. rewrite Hf. simpl. rewrite Hr. simpl.
      rewrite He, Hexp, Hexc. rewrite (alter_as_insert _ _ _ _ Hr).
      unfold set_status, cs'. by rewrite He. }
    split; [done|]. split; [simpl; by rewrite Hp|].
    intros j Hj. by rewrite list_lookup_fmap, Hj.
  - intros f cs Hf Hcanc Hi cs'.
    unfold process_completed_future. rewrite Hf.
    destruct Hcanc as [-> | ->]; simpl; by rewrite (alter_as_insert _ _ _ _ Hi).
Qed.

Lemma alter_collector_rewrite (σ : Store) r s j cs' :
  s ∈ [FAILED; CRITICAL; CANCELLED] →
  alter (set_status s) r σ !! j = Some cs' →
  ∃ cs, σ !! j = Some cs ∧ collector_rewrite cs cs'.
Proof.
  intros Hs. destruct (decide (j = r)) as [->|Hne].
  - rewrite list_lookup_alter_eq. destruct (σ !! r) as [cs|]; [|done].
    intros [= <-]. exists cs. split; [done|]. right. by exists s.
  - rewrite list_lookup_alter_ne by done. intros H. exists cs'. split; [done|by left].
Qed.

Lemma process_completed_future_rewrites (σ σ' : Store) (fs fs' : Futures) i res :
  process_completed_future σ fs i = Some (σ', fs', res) →
  ∀ j cs', σ' !! j = Some cs' → ∃ cs, σ !! j = Some cs ∧ collector_rewrite cs cs'.
Proof.
  unfold process_completed_future.
  destruct (fs !! i ≫= Future.result) as [[r|e]|]; [| |done].
  - destruct (error <$> σ !! r) as [[e|]|];
      [|intros [= <- _ _] j cs' H; exists cs'; split; [done|by left]..].
    destruct (isinstance_WebScrapperException e).
    + intros [= <- _ _] j cs'. apply alter_collector_rewrite. set_solver.
    + destruct (isinstance_Exception e).
      * intros [= <- _ _] j cs'. apply alter_collector_rewrite. set_solver.
      * intros [= <- _ _] j cs' H. exists cs'. split; [done|by left].
  - destruct (isinstance_CancelledError e).
    + intros [= <- _ _] j cs'. apply alter_collector_rewrite. set_solver.
    + intros [= <- _ _] j cs' H. exists cs'. split; [done|by left].
Qed.

(** The only record without an error that the collector changes is the
    record of a cancelled future. *)
Lemma process_completed_future_no_error (σ σ' : Store) (fs fs' : Futures) i res j cs cs' :
  process_completed_future σ fs i = Some (σ', fs', res) →
  σ !! j = Some cs → error cs = None → σ' !! j = Some cs' →
  cs' = cs
  ∨ (j = i ∧ cs' = set_status CANCELLED cs
     ∧ fs !! i ≫= Future.result = Some (Raise CancelledError)).
Proof.
  unfold process_completed_future. intros Hp Hj He Hj'.
  destruct (fs !! i ≫= Future.result) as [[r|e]|]; [| |done].
  - destruct (error <$> σ !! r) as [[e|]|] eqn:Her;
      [|injection Hp as <- _ _; left; congruence..].
    assert (r ≠ j) as Hne.
    { intros ->. rewrite Hj in Her. simpl in Her. congruence. }
    destruct (isinstance_WebScrapperException e); [|destruct (isinstance_Exception e)];
      simpl in Hp; injection Hp as <- _ _;
      rewrite ?list_lookup_alter_ne in Hj' by done; left; congruence.
  - destruct e; simpl in Hp; try (injection Hp as <- _ _; left; congruence).
    injection Hp as <- _ _. destruct (decide (i = j)) as [->|Hne].
    + rewrite list_lookup_alter_eq, Hj in Hj'. simpl in Hj'.
      right. split; [done|]. split; [congruence|done].
    + rewrite list_lookup_alter_ne in Hj' by done. left. congruence.
Qed.

(** C8: the collector never sets the status SUCCEED. Whatever future it
    processes, every record is afterwards as it was or has had its status
    rewritten to FAILED, CRITICAL or CANCELLED, so a record that is SUCCEED
    afterwards was SUCCEED before. A record that a worker returned with no
    error is handed on exactly as the state machine left it, with no future
    touched; and a record without error is changed in one case only, when it
    is the record of a cancelled future, which no state machine has run on:
    its status becomes CANCELLED. *)
Theorem collector_never_sets_SUCCEED (σ σ' : Store) (fs fs' : Futures) i res :
  process_completed_future σ fs i = Some (σ', fs', res) →
  (∀ j cs', σ' !! j = Some cs' →
     ∃ cs, σ !! j = Some cs ∧ collector_rewrite cs cs'
           ∧ (status cs' = SUCCEED → status cs = SUCCEED))
  ∧ (∀ r cs, fs !! i = Some (Future.FINISHED (Return r)) → σ !! r = Some cs →
       error cs = None → σ' = σ ∧ fs' = fs ∧ res = Return r)
  ∧ (∀ j cs cs', σ !! j = Some cs → error cs = None → σ' !! j = Some cs' →
       cs' = cs
       ∨ (j = i ∧ cs' = set_status CANCELLED cs
          ∧ fs !! i ≫= Future.result = Some (Raise CancelledError))).
Proof.
  intros Hp. split; [|split].
  - intros j cs' Hj.
    destruct (process_completed_future_rewrites _ _ _ _ _ _ Hp j cs' Hj)
      as (cs & Hcs & Hrw).
    exists cs. split; [done|]. split; [done|].
    destruct Hrw as [->|(s & Hs & ->)]; [done|].
    simpl. intros ->. rewrite !elem_of_cons, elem_of_nil in Hs.
    by destruct Hs as [?|[?|[?|[]]]].
  - intros r cs Hf Hr He. unfold process_completed_future in Hp.
    rewrite Hf in Hp. simpl in Hp. rewrite Hr in Hp. simpl in Hp.
    rewrite He in Hp. by injection Hp as <- <- <-.
  - intros j cs cs'. by eapply process_completed_future_no_error.
Qed.

(** ** The worker and the driver queue *)

Lemma run_until_finished_context fuel : ∀ (σ σ' : Store) (c c' : Context_) out,
  run_until_finished state_run fuel σ c = Some (σ', c', out) →
  context_status c' = context_status c ∧ driver_id c' = driver_id c
  ∧ length σ' = length σ.
Proof.
  induction fuel as [|fuel IH]; intros σ σ' c c' out; [done|]. simpl.
  destruct (has_finished σ c) as [[]|]; [by intros [= <- <- _]| |by intros [= <- <- _]].
  destruct (run state_run σ c) as [[σ1 c1] [[]|e]] eqn:Hrun.
  - intros H. destruct (IH _ _ _ _ _ H) as (-> & -> & ->).
    split; [by eapply run_context_status|].
    split; [by eapply run_driver_id|by eapply run_length].
  - intros [= <- <- _].
    split; [by eapply run_context_status|].
    split; [by eapply run_driver_id|by eapply run_length].
Qed.

(** The loop touches no record but the one its context is bound to. *)
Lemma run_until_finished_other_records fuel : ∀ (σ σ' : Store) (c c' : Context_) out j,
  run_until_finished state_run fuel σ c = Some (σ', c', out) →
  context_status c ≠ Some j → σ' !! j = σ !! j.
Proof.
  induction fuel as [|fuel IH]; intros σ σ' c c' out j; [done|]. simpl.
  destruct (has_finished σ c) as [[]|]; [by intros [= <- _ _]| |by intros [= <- _ _]].
  destruct (run state_run σ c) as [[σ1 c1] [[]|e]] eqn:Hrun.
  - intros H Hne. rewrite (IH _ _ _ _ _ j H).
    + by eapply run_other_records.
    + by rewrite (run_context_status _ _ _ _ _ Hrun).
  - intros [= <- _ _] Hne. by eapply run_other_records.
Qed.

Lemma release_returns (q : Queue Context_) (c : Context_) :
  Queue_full q = false →
  release q c =
    Some (mkQueue (maxsize q) (queue q ++ [c]) (unfinished_tasks q), Return ()).
Proof. intros Hfull. unfold release, Queue_put. by rewrite Hfull. Qed.

Lemma Queue_get_Got (q q1 : Queue Context_) (c : Context_) t :
  Queue_get t q = Got c q1 →
  queue q = c :: queue q1 ∧ maxsize q1 = maxsize q
  ∧ unfinished_tasks q1 = unfinished_tasks q.
Proof.
  unfold Queue_get. destruct (queue q) as [|x rest]; [done|].
  by intros [= <- <-].
Qed.

Lemma Queue_get_not_full (q q1 : Queue Context_) (c : Context_) t :
  Queue_wf q → Queue_get t q = Got c q1 → Queue_full q1 = false.
Proof.
  intros Hwf Hget. destruct (Queue_get_Got _ _ _ _ Hget) as (Hq & Hm & _).
  unfold Queue_full. apply bool_decide_eq_false. rewrite Hm.
  destruct Hwf as [Hwf|Hwf]; rewrite ?Hq in Hwf; simpl in Hwf; lia.
Qed.

(** What the [try] of [scrape_item] leaves once the worker holds a driver
    and its loop has ended, in whichever way: the handlers store an
    [Exception]; anything else is still being raised after the [finally]. *)
Lemma scrape_item_try_exit fuel (q : Queue Context_) (σ σ1 : Store)
    (c c1 : Context_) blank out :
  Queue_full q = false →
  run_until_finished state_run fuel σ (with_status (Some blank) c) = Some (σ1, c1, out) →
  scrape_item_try state_run fuel q σ c blank =
    Some (mkQueue (maxsize q) (queue q ++ [c1]) (unfinished_tasks q),
          match out with
          | Return _ => σ1
          | Raise e =>
              if isinstance_Exception e then alter (set_error (Some e)) blank σ1
              else σ1
          end,
          c1,
          match out with
          | Return _ => Return ()
          | Raise e => if isinstance_Exception e then Return () else Raise e
          end).
Proof.
  intros Hfull Hloop.
  destruct (run_until_finished_context _ _ _ _ _ _ Hloop) as (Hcs & _ & _).
  simpl in Hcs.
  unfold scrape_item_try, scrape_item_run. rewrite Hloop.
  destruct out as [[]|e].
  - by rewrite (release_returns _ _ Hfull).
  - unfold record_error. rewrite Hcs.
    destruct (isinstance_WebScrapperException e) eqn:Hws.
    + assert (isinstance_Exception e = true) as -> by (by destruct e).
      by rewrite (release_returns _ _ Hfull).
    + destruct (isinstance_Exception e); by rewrite (release_returns _ _ Hfull).
Qed.

Lemma scrape_item_try_loop fuel (q q' : Queue Context_) (σ σ' : Store)
    (c c' : Context_) blank res :
  scrape_item_try state_run fuel q σ c blank = Some (q', σ', c', res) →
  Queue_full q = false
  ∧ ∃ σ1 out,
      run_until_finished state_run fuel σ (with_status (Some blank) c)
      = Some (σ1, c', out).
Proof.
  unfold scrape_item_try, scrape_item_run.
  destruct (run_until_finished _ _ _ _) as [[[σ1 c1] out]|]; [|done].
  intros H. split.
  - unfold release, Queue_put in H.
    destruct out as [[]|e]; [|destruct (isinstance_WebScrapperException e);
                               [|destruct (isinstance_Exception e)]];
      by destruct (Queue_full q).
  - exists σ1, out. destruct out as [[]|e];
      [|destruct (isinstance_WebScrapperException e);
        [|destruct (isinstance_Exception e)]];
      unfold release, Queue_put in H; destruct (Queue_full q); try done;
      simpl in H; by injection H as _ _ <- _.
Qed.

(** What the [try] of [scrape_item] has done when it is over. *)
Lemma scrape_item_try_result fuel (q q' : Queue Context_) (σ σ' : Store)
    (c c' : Context_) blank res :
  scrape_item_try state_run fuel q σ c blank = Some (q', σ', c', res) →
  ∃ σ1 out,
    run_until_finished state_run fuel σ (with_status (Some blank) c) = Some (σ1, c', out)
    ∧ q' = mkQueue (maxsize q) (queue q ++ [c']) (unfinished_tasks q)
    ∧ σ' = match out with
           | Return _ => σ1
           | Raise e =>
               if isinstance_Exception e then alter (set_error (Some e)) blank σ1
               else σ1
           end
    ∧ res = match out with
            | Return _ => Return ()
            | Raise e => if isinstance_Exception e then Return () else Raise e
            end
    ∧ driver_id c' = driver_id c
    ∧ context_status c' = Some blank.
Proof.
  intros Hs. destruct (scrape_item_try_loop _ _ _ _ _ _ _ _ _ Hs)
    as (Hfull & σ1 & out & Hloop).
  rewrite (scrape_item_try_exit _ _ _ _ _ _ _ _ Hfull Hloop) in Hs.
  injection Hs as <- <- <-.
  destruct (run_until_finished_context _ _ _ _ _ _ Hloop) as (Hcs & Hid & _).
  by exists σ1, out.
Qed.

(** What [scrape_item] returns once the worker holds a driver and its loop
    has ended, in whichever way, when no other thread takes the driver
    before the call returns. *)
Lemma scrape_item_locked_exit fuel (q : Queue Context_) (σ σ1 : Store)
    (c c1 : Context_) blank out :
  Queue_full q = false →
  run_until_finished state_run fuel σ (with_status (Some blank) c) = Some (σ1, c1, out) →
  scrape_item_locked state_run fuel q σ c blank =
    Some (mkQueue (maxsize q) (queue q ++ [c1]) (unfinished_tasks q),
          match out with
          | Return _ => σ1
          | Raise e =>
              if isinstance_Exception e then alter (set_error (Some e)) blank σ1
              else σ1
          end,
          match out with
          | Return _ => Return blank
          | Raise e => if isinstance_Exception e then Return blank else Raise e
          end).
Proof.
  intros Hfull Hloop.
  destruct (run_until_finished_context _ _ _ _ _ _ Hloop) as (Hcs & _ & _).
  simpl in Hcs.
  unfold scrape_item_locked.
  rewrite (scrape_item_try_exit _ _ _ _ _ _ _ _ Hfull Hloop).
  destruct out as [[]|e]; [by rewrite Hcs|].
  destruct (isinstance_Exception e); [by rewrite Hcs|done].
Qed.

(** C4: a worker that has taken a driver from the queue puts it back exactly
    once, however its loop ends: by reaching a terminal status, by an
    expected exception, by an unexpected one, or by an exception that is no
    [Exception] and that no handler catches ([out] below is any of them).
    [scrape_item] then returns, or lets that exception through, with the
    driver appended to the queue it had left, so the queue holds the same
    drivers as before the call, each as often as before, and
    [unfinished_tasks] is what it was. (A cancelled future never starts its
    call and [cancel] does not interrupt a running one, so these are the
    exits of a worker that holds a driver.) *)
Theorem scrape_item_releases_exactly_once fuel (q q1 : Queue Context_)
    (σ σ1 : Store) (c c1 : Context_) blank out :
  Queue_wf q →
  Queue_get 60 q = Got c q1 →
  run_until_finished state_run fuel σ (with_status (Some blank) c) = Some (σ1, c1, out) →
  scrape_item state_run fuel q σ blank =
    Some (mkQueue (maxsize q) (queue q1 ++ [c1]) (unfinished_tasks q),
          match out with
          | Return _ => σ1
          | Raise e =>
              if isinstance_Exception e then alter (set_error (Some e)) blank σ1
              else σ1
          end,
          match out with
          | Return _ => Return blank
          | Raise e => if isinstance_Exception e then Return blank else Raise e
          end)
  ∧ driver_id c1 = driver_id c
  ∧ driver_id <$> (queue q1 ++ [c1]) ≡ₚ driver_id <$> queue q.
Proof.
  intros Hwf Hget Hloop.
  destruct (Queue_get_Got _ _ _ _ Hget) as (Hq & Hm & Hu).
  destruct (run_until_finished_context _ _ _ _ _ _ Hloop) as (_ & Hid & _).
  simpl in Hid. split; [|split; [done|]].
  - unfold scrape_item. rewrite Hget.
    rewrite (scrape_item_locked_exit _ _ _ _ _ _ _ _
               (Queue_get_not_full _ _ _ _ Hwf Hget) Hloop).
    by rewrite Hm, Hu.
  - rewrite Hq, fmap_app, fmap_cons. simpl. rewrite Hid.
    by rewrite <- Permutation_cons_append.
Qed.

(** ** Draining the queue *)

(** A drain with enough turns takes every driver out of the queue and
    closes it; with turns left over it then waits once for a driver that
    does not come. *)
Lemma clear_from_takes_all num : ∀ (items : list Context_) todo idx
    (q : Queue Context_) (done_ : list Context_) w,
  queue q = items → length items ≤ todo → length items ≤ unfinished_tasks q →
  clear_from num todo idx (mkDrained q done_ None w None) =
    mkDrained (mkQueue (maxsize q) [] (unfinished_tasks q - length items))
              (done_ ++ (clear_context <$> items))
              (if decide (length items = todo) then None
               else Some (num - (idx + length items)))
              (if decide (length items = todo) then w else w + 1000)
              None.
Proof.
  induction items as [|c items IH]; intros todo idx q done_ w Hq Hlen Hu.
  - destruct todo as [|todo]; simpl.
    + rewrite app_nil_r, Nat.sub_0_r. destruct q. simpl in *. by subst.
    + unfold _clear_driver_context, Queue_get. rewrite Hq. simpl.
      rewrite app_nil_r, Nat.sub_0_r, Nat.add_0_r. destruct q. simpl in *. by subst.
  - destruct todo as [|todo]; [simpl in Hlen; lia|]. simpl.
    unfold _clear_driver_context, Queue_get, Queue_task_done. rewrite Hq. simpl.
    destruct (unfinished_tasks q) as [|u] eqn:Hun; [simpl in Hu; lia|].
    rewrite IH; simpl in *; [|done|lia..].
    rewrite <- app_assoc. simpl. f_equal.
    + repeat case_decide; try lia; try done. do 2 f_equal. lia.
    + repeat case_decide; try lia; done.
Qed.

(** Draining twice: the second drain finds the queue empty and closes
    nothing more. *)
Lemma clear_driver_queue_twice (opts : WebscrapperOptionsSchema) (q : Queue Context_) :
  length (queue q) ≤ threads_num opts → length (queue q) ≤ unfinished_tasks q →
  cleared (clear_driver_queue opts q) = clear_context <$> queue q
  ∧ queue (drained_queue (clear_driver_queue opts q)) = []
  ∧ cleared (clear_driver_queue opts (drained_queue (clear_driver_queue opts q))) = [].
Proof.
  intros Hlen Hu. unfold clear_driver_queue at 1 2 4.
  rewrite (clear_from_takes_all _ (queue q)) by done. simpl.
  split; [done|]. split; [done|].
  unfold clear_driver_queue.
  destruct (threads_num opts) as [|n]; [done|].
  simpl. by unfold _clear_driver_context, Queue_get.
Qed.

(** C7 (amended): draining an empty queue closes no driver, leaves the queue
    as it is and raises nothing; but it is not immediate: with at least one
    slot to clear, the first [get(timeout=1000)] waits its whole timeout of
    1000 before the loop gives up with its warning. Only with no slot at all
    does it return at once. *)
Theorem drain_of_empty_queue (opts : WebscrapperOptionsSchema) (q : Queue Context_) :
  queue q = [] →
  cleared (clear_driver_queue opts q) = []
  ∧ drained_queue (clear_driver_queue opts q) = q
  ∧ drain_raised (clear_driver_queue opts q) = None
  ∧ waited (clear_driver_queue opts q) = (if decide (threads_num opts = 0) then 0 else 1000)
  ∧ warned_remaining (clear_driver_queue opts q) =
      (if decide (threads_num opts = 0) then None else Some (threads_num opts)).
Proof.
  intros Hq. unfold clear_driver_queue.
  destruct (threads_num opts) as [|n]; [done|].
  simpl. unfold _clear_driver_context, Queue_get. rewrite Hq. simpl.
  repeat split.
Qed.

(** ** Runs of the scheduler *)

Lemma count_cons {A} (p : A → bool) a l :
  count p (a :: l) = (if p a then 1 else 0) + count p l.
Proof.
  unfold count. rewrite filter_cons. destruct (decide (p a = true)) as [H|H].
  - by rewrite H.
  - by apply not_true_is_false in H as ->.
Qed.

Lemma count_insert {A} (p : A → bool) l : ∀ i x y,
  l !! i = Some y →
  count p (<[i := x]> l) + (if p y then 1 else 0)
  = count p l + (if p x then 1 else 0).
Proof.
  induction l as [|a l IH]; intros [|i] x y; try done; simpl.
  - intros [= ->]. rewrite !count_cons. lia.
  - intros H. rewrite !count_cons. specialize (IH i x y H). lia.
Qed.

Lemma count_fmap {A} (p : A → bool) (g : A → A) l :
  (∀ a, p (g a) = p a) → count p (g <$> l) = count p l.
Proof.
  intros Hg. induction l as [|a l IH]; [done|].
  rewrite fmap_cons, !count_cons, Hg. lia.
Qed.

Lemma count_replicate {A} (p : A → bool) n a :
  p a = false → count p (replicate n a) = 0.
Proof.
  intros Hp. induction n as [|n IH]; [done|].
  simpl. rewrite count_cons, Hp. done.
Qed.

Lemma count_le {A} (p p' : A → bool) l :
  (∀ a, p a = true → p' a = true) → count p l ≤ count p' l.
Proof.
  intros Hpp. induction l as [|a l IH]; [done|]. rewrite !count_cons.
  destruct (p a) eqn:Hp; [rewrite (Hpp _ Hp); lia|]. destruct (p' a); lia.
Qed.

Lemma count_lt {A} (p p' : A → bool) l i a :
  (∀ a, p a = true → p' a = true) →
  l !! i = Some a → p a = false → p' a = true → count p l < count p' l.
Proof.
  intros Hpp. revert i. induction l as [|b l IH]; intros [|i]; try done; simpl.
  - intros [= ->] Hp Hp'. rewrite !count_cons, Hp, Hp'.
    pose proof (count_le p p' l Hpp). lia.
  - intros H Hp Hp'. rewrite !count_cons. specialize (IH i H Hp Hp').
    destruct (p b) eqn:Hb; [rewrite (Hpp _ Hb); lia|]. destruct (p' b); lia.
Qed.

Lemma count_pos {A} (p : A → bool) l :
  0 < count p l → ∃ i a, l !! i = Some a ∧ p a = true.
Proof.
  induction l as [|b l IH]; [unfold count; simpl; lia|].
  rewrite count_cons. destruct (p b) eqn:Hb.
  - intros _. by exists 0, b.
  - intros H. destruct IH as (i & a & Hi & Ha); [lia|]. by exists (S i), a.
Qed.

Lemma sum_list_fmap_insert {A} (w : A → nat) l : ∀ i x y,
  l !! i = Some y →
  sum_list (w <$> <[i := x]> l) + w y = sum_list (w <$> l) + w x.
Proof.
  induction l as [|a l IH]; intros [|i] x y; try done.
  - intros [= ->]. change (<[0 := x]> (y :: l)) with (x :: l).
    rewrite !fmap_cons. simpl. lia.
  - intros H. change (<[S i := x]> (a :: l)) with (a :: <[i := x]> l).
    rewrite !fmap_cons. simpl. specialize (IH i x y H). lia.
Qed.

Lemma sum_list_fmap_le {A} (w : A → nat) (g : A → A) l :
  (∀ a, w (g a) ≤ w a) → sum_list (w <$> (g <$> l)) ≤ sum_list (w <$> l).
Proof.
  intros Hg. induction l as [|a l IH]; [done|].
  rewrite !fmap_cons. simpl. specialize (Hg a). lia.
Qed.

Lemma running_count (fs : Futures) : running fs = count Future.is_RUNNING fs.
Proof. done. Qed.

Lemma count_lookup {A} (p : A → bool) l i a :
  l !! i = Some a → p a = true → 0 < count p l.
Proof.
  revert i. induction l as [|b l IH]; intros [|i]; try done; simpl.
  - intros [= ->] Hp. rewrite count_cons, Hp. lia.
  - intros H Hp. rewrite count_cons. specialize (IH i H Hp). lia.
Qed.

(** Two futures whose calls are being executed take two worker threads. *)
Lemma two_running (fs : Futures) i j f g :
  i ≠ j → fs !! i = Some f → fs !! j = Some g →
  Future.is_RUNNING f = true → Future.is_RUNNING g = true → 2 ≤ running fs.
Proof.
  intros Hne Hi Hj Hf Hg. rewrite running_count.
  pose proof (count_insert Future.is_RUNNING fs i Future.PENDING f Hi) as Hc.
  rewrite Hf in Hc. simpl in Hc.
  assert (0 < count Future.is_RUNNING (<[i := Future.PENDING]> fs)).
  { eapply (count_lookup _ _ j g); [|done]. by rewrite list_lookup_insert_ne. }
  lia.
Qed.

Lemma initial_run_invariant opts (σ : Store) (drivers : list Context_) :
  length drivers = threads_num opts →
  invariant (threads_num opts) (length σ) (initial_run opts σ drivers).
Proof.
  intros Hd. split; simpl.
  - by rewrite length_replicate.
  - done.
  - done.
  - done.
  - rewrite count_replicate by done. lia.
  - rewrite running_count, count_replicate by done. lia.
  - intros i c [H _]%lookup_replicate. done.
  - intros i d [H _]%lookup_replicate. done.
  - intros d r H. by rewrite lookup_empty in H.
  - intros i r [H _]%lookup_replicate. done.
  - intros i e [H _]%lookup_replicate. done.
  - intros i f [-> _]%lookup_replicate [?|?]; done.
  - constructor.
  - intros i H. by apply elem_of_nil in H.
  - intros r H. by apply elem_of_nil in H.
  - done.
  - done.
Qed.

Lemma process_completed_future_shape (σ σ' : Store) (fs fs' : Futures) i res :
  process_completed_future σ fs i = Some (σ', fs', res) →
  length σ' = length σ ∧ (fs' = fs ∨ fs' = cancel_futures fs).
Proof.
  unfold process_completed_future.
  destruct (fs !! i ≫= Future.result) as [[r|e]|]; [| |done].
  - destruct (error <$> σ !! r) as [[e|]|]; [|intros [= <- <- _]; auto..].
    destruct (isinstance_WebScrapperException e); [|destruct (isinstance_Exception e)].
    + intros [= <- <- _]. rewrite length_alter. auto.
    + intros [= <- <- _]. rewrite length_alter. auto.
    + intros [= <- <- _]. auto.
  - destruct (isinstance_CancelledError e).
    + intros [= <- <- _]. rewrite length_alter. auto.
    + intros [= <- <- _]. auto.
Qed.

(** On futures that are all ready [cancel_futures] finds nothing to cancel. *)
Lemma cancel_futures_ready (fs : Futures) :
  Forall (λ f, Future.as_completed_ready f = true) fs → cancel_futures fs = fs.
Proof.
  intros Hall. unfold cancel_futures.
  induction Hall as [|f fs Hf _ IH]; [done|].
  rewrite fmap_cons, IH. by destruct f.
Qed.

(** A future that [as_completed] yields was cancelled or has finished; when
    it finished by returning, the collector returns normally. *)
Lemma process_completed_future_ready (σ : Store) (fs : Futures) i f :
  fs !! i = Some f → Future.as_completed_ready f = true →
  (∀ res, f = Future.FINISHED res → res = Return i) →
  ∃ σ' fs', process_completed_future σ fs i = Some (σ', fs', Return i).
Proof.
  intros Hf Hready Hres. unfold process_completed_future. rewrite Hf.
  destruct f as [|held|d| | |res]; try done; simpl.
  - eauto.
  - rewrite (Hres res eq_refl).
    destruct (error <$> σ !! i) as [[e|]|]; eauto.
    destruct (isinstance_WebScrapperException e); simpl; eauto.
    destruct (isinstance_Exception e); eauto.
Qed.

(** [future.result()] does not block on a future that [as_completed]
    yields. *)
Lemma process_completed_future_total (σ : Store) (fs : Futures) i f :
  fs !! i = Some f → Future.as_completed_ready f = true →
  ∃ σ' fs' res, process_completed_future σ fs i = Some (σ', fs', res).
Proof.
  intros Hf Hready. unfold process_completed_future. rewrite Hf.
  destruct f as [|held|d| | |[r|e]]; try done; simpl.
  - eauto.
  - destruct (error <$> σ !! r) as [[e|]|]; eauto.
    destruct (isinstance_WebScrapperException e); [eauto|].
    destruct (isinstance_Exception e); eauto.
  - destruct (isinstance_CancelledError e); eauto.
Qed.

(** What the collector passes on for a future that has finished: the record
    that the call returned; the exception that the call raised leaves the
    collector, unless it is a [CancelledError]. *)
Lemma process_completed_future_finished (σ σ' : Store) (fs fs' : Futures) i res out :
  fs !! i = Some (Future.FINISHED res) →
  process_completed_future σ fs i = Some (σ', fs', out) →
  match res with
  | Return r => out = Return r
  | Raise e =>
      if isinstance_CancelledError e then out = Return i
      else out = Raise e ∧ σ' = σ ∧ fs' = fs
  end.
Proof.
  intros Hf. unfold process_completed_future. rewrite Hf. simpl.
  destruct res as [r|e].
  - destruct (error <$> σ !! r) as [[e|]|]; [|by intros [= _ _ <-]..].
    destruct (isinstance_WebScrapperException e); [by intros [= _ _ <-]|].
    destruct (isinstance_Exception e); by intros [= _ _ <-].
  - destruct (isinstance_CancelledError e); [by intros [= _ _ <-]|].
    by intros [= <- <- <-].
Qed.

Lemma holds_driver_cancel (f : Future.State Session) :
  holds_driver (Future.cancel f) = holds_driver f.
Proof. by destruct f. Qed.

Lemma is_RUNNING_cancel (f : Future.State Session) :
  Future.is_RUNNING (Future.cancel f) = Future.is_RUNNING f.
Proof. by destruct f. Qed.

Lemma holds_driver_is_RUNNING (f : Future.State Session) :
  holds_driver f = true → Future.is_RUNNING f = true.
Proof. by destruct f as [|[]| | | |]. Qed.

(** A worker that is about to take a driver finds one: the other workers
    hold fewer drivers than there are. *)
Lemma waiting_worker_finds_driver K N (s : Run_) i :
  invariant K N s →
  futures s !! i = Some (Future.RUNNING None) →
  0 < length (queue (driver_queue s)).
Proof.
  intros Hinv Hi.
  pose proof (count_lt holds_driver Future.is_RUNNING (futures s) i
                (Future.RUNNING None) holds_driver_is_RUNNING Hi eq_refl eq_refl)
    as Hlt.
  pose proof (inv_drivers _ _ _ Hinv). pose proof (inv_workers _ _ _ Hinv).
  rewrite running_count in *. lia.
Qed.

(** A worker that holds a driver can put it back: the queue is not full. *)
Lemma holding_worker_can_release K N (s : Run_) i c :
  invariant K N s →
  futures s !! i = Some (Future.RUNNING (Some c)) →
  Queue_full (driver_queue s) = false.
Proof.
  intros Hinv Hi.
  pose proof (count_insert holds_driver (futures s) i Future.PENDING _ Hi) as Hc.
  simpl in Hc.
  pose proof (inv_drivers _ _ _ Hinv). pose proof (inv_maxsize _ _ _ Hinv).
  unfold Queue_full. apply bool_decide_eq_false. lia.
Qed.

(** What a step of a worker thread is: it moves one future on, and leaves
    the collector's lists alone. *)
Lemma step_worker_inv K (s s' : Run_) l :
  step state_run K s l s' → is_worker_step l = true →
  status_contexts s' = status_contexts s ∧ yielded s' = yielded s
  ∧ collector_raised s' = collector_raised s
  ∧ ∃ i f g, futures s !! i = Some f ∧ futures s' = <[i := g]> (futures s)
             ∧ rank g < rank f.
Proof.
  intros Hstep Hl. step_cases Hstep; try done; simpl.
  all: repeat (split; [done|]); eexists i, _, _;
       (split; [exact Hi|]); (split; [done|]); simpl; lia.
Qed.

(** What a step of the collector is: the executor has been joined, so
    [cancel_futures] finds nothing to cancel and the futures stay as they
    are. *)
Lemma step_Collect_inv K (s s' : Run_) j :
  step state_run K s (Collect j) s' →
  joined s ∧ collector_raised s = None ∧ (j ∉ yielded s) ∧ j < length (futures s)
  ∧ futures s' = futures s ∧ driver_queue s' = driver_queue s ∧ bound s' = bound s
  ∧ yielded s' = yielded s ++ [j]
  ∧ ∃ res, process_completed_future (scraping_contexts s) (futures s) j
           = Some (scraping_contexts s', futures s, res)
         ∧ status_contexts s' =
             match res with
             | Return r => status_contexts s ++ [r]
             | Raise _ => status_contexts s
             end
         ∧ collector_raised s' =
             match res with
             | Return _ => None
             | Raise e => Some e
             end.
Proof.
  inversion 1 as [| | | | | |
                 |σ fs q sink ys b i f σ' fs' r Hjoin Hi Hnew Hp
                 |σ fs q sink ys b i f σ' fs' e Hjoin Hi Hnew Hp]; subst;
    unfold joined; simpl.
  all: destruct (process_completed_future_shape _ _ _ _ _ _ Hp) as (_ & Hfs');
       assert (fs' = fs) as ->
         by (destruct Hfs' as [-> | ->]; [done|by apply cancel_futures_ready]).
  all: repeat (split; [done || by eapply lookup_lt_Some|]).
  all: eexists; split; [exact Hp|done].
Qed.

Lemma step_label K (s s' : Run_) l :
  step state_run K s l s' →
  is_worker_step l = true ∨ ∃ j, l = Collect j.
Proof. intros Hstep. destruct l; eauto. Qed.

(** A future that has finished stays as it is. *)
Lemma step_finished_stable K (s s' : Run_) l j res :
  step state_run K s l s' →
  futures s !! j = Some (Future.FINISHED res) →
  futures s' !! j = Some (Future.FINISHED res).
Proof.
  intros Hstep Hj. destruct (step_label _ _ _ _ Hstep) as [Hl|[k ->]].
  - destruct (step_worker_inv _ _ _ _ Hstep Hl) as (_ & _ & _ & i & f & g & Hi & -> & Hlt).
    rewrite list_lookup_insert_ne; [done|].
    intros ->. rewrite Hi in Hj. injection Hj as ->. simpl in Hlt. lia.
  - destruct (step_Collect_inv _ _ _ _ Hstep) as (_ & _ & _ & _ & -> & _). done.
Qed.

Lemma steps_finished_stable K (s s' : Run_) ls j res :
  steps state_run K s ls s' →
  futures s !! j = Some (Future.FINISHED res) →
  futures s' !! j = Some (Future.FINISHED res).
Proof.
  induction 1 as [s|s1 l s2 ls s3 Hstep _ IH]; [done|].
  intros Hj. apply IH. by eapply step_finished_stable.
Qed.

(** When every future has returned its own record at the end of a run, so
    it has all along. *)
Lemma steps_own_records K (s s' : Run_) ls :
  steps state_run K s ls s' → own_records s' → own_records s.
Proof.
  intros Hsteps Hown j res Hj. apply Hown. by eapply steps_finished_stable.
Qed.

(** A step of a worker on its own future [i] keeps the invariant when it
    keeps the count of the drivers and of the workers. *)
Lemma invariant_insert K N (s : Run_) i f g (σ' : Store) q' b' :
  invariant K N s → futures s !! i = Some f →
  length σ' = N → maxsize q' = K → unfinished_tasks q' = K →
  length (queue q') + (if holds_driver g then 1 else 0)
  = length (queue (driver_queue s)) + (if holds_driver f then 1 else 0) →
  (Future.is_RUNNING g = true →
   Future.is_RUNNING f = true ∨ running (futures s) < K) →
  (∀ d, is_Some (bound s !! d) → is_Some (b' !! d)) →
  (∀ d r, b' !! d = Some r → r < N) →
  (∀ c, g = Future.RUNNING (Some c) → is_Some (b' !! driver_id c)) →
  (∀ d, g = Future.RETURNING d → is_Some (b' !! d)) →
  (∀ r, g = Future.FINISHED (Return r) → r < N) →
  (∀ e, g = Future.FINISHED (Raise e) → isinstance_Exception e = false) →
  ¬ is_cancelled g →
  invariant K N (mkRun σ' (<[i := g]> (futures s)) q'
                       (status_contexts s) (yielded s) (collector_raised s) b').
Proof.
  intros [Hf Hc Hm Hu Hd Hw Hheld Hret Hb Hrd Hrs Hnc Hnd Hy Hsink Hsl Hnr]
         Hi Hσ Hm' Hu' Hq Hrun Hkeys Hb' Hg1 Hg2 Hg3 Hg4 Hg5.
  pose proof (count_insert holds_driver (futures s) i g f Hi) as H1.
  pose proof (count_insert Future.is_RUNNING (futures s) i g f Hi) as H2.
  rewrite running_count in *.
  split; simpl; rewrite ?length_insert, ?running_count; try done.
  - lia.
  - destruct (Future.is_RUNNING g); [|lia].
    destruct Hrun as [Hr|Hr]; [done|rewrite Hr in H2; lia|lia].
  - intros j c [(_ & Hg & _)|(_ & Hj)]%list_lookup_insert_Some; eauto.
  - intros j d [(_ & Hg & _)|(_ & Hj)]%list_lookup_insert_Some; eauto.
  - intros j r [(_ & Hg & _)|(_ & Hj)]%list_lookup_insert_Some; eauto.
  - intros j e [(_ & Hg & _)|(_ & Hj)]%list_lookup_insert_Some; eauto.
  - intros j h [(_ & <- & _)|(_ & Hj)]%list_lookup_insert_Some; eauto.
Qed.

Lemma step_invariant K N (s s' : Run_) l :
  invariant K N s → step state_run K s l s' → invariant K N s'.
Proof.
  intros Hinv Hstep.
  pose proof Hinv as [Hf Hc Hm Hu Hd Hw Hheld Hret Hb Hrd Hrs Hnc Hnd Hy Hsink Hsl Hnr].
  step_cases Hstep; simpl in *.
  - eapply (invariant_insert K N (mkRun σ fs q sink ys err b) i _ (Future.RUNNING None)
              σ q b Hinv Hi); simpl; try done; eauto.
    intros [?|?]; done.
  - destruct (Hnc i _ Hi). by left.
  - destruct (Queue_get_Got _ _ _ _ Hget) as (Hq & Hm' & Hu').
    assert (i < N) by (rewrite <- Hf; by eapply lookup_lt_Some).
    eapply (invariant_insert K N (mkRun σ fs q sink ys err b) i _
              (Future.RUNNING (Some c)) σ q' (<[driver_id c := i]> b) Hinv Hi);
      simpl; try done; try congruence.
    + rewrite Hq. simpl. lia.
    + by left.
    + intros d Hd'. destruct (decide (driver_id c = d)) as [<-|Hne].
      * rewrite lookup_insert_eq. eauto.
      * by rewrite lookup_insert_ne.
    + intros d r. destruct (decide (driver_id c = d)) as [<-|Hne].
      * rewrite lookup_insert_eq. by intros [= <-].
      * rewrite lookup_insert_ne by done. eauto.
    + intros c0 [= <-]. rewrite lookup_insert_eq. eauto.
    + intros [?|?]; done.
  - pose proof (waiting_worker_finds_driver _ _ _ i Hinv Hi) as Hpos. simpl in Hpos.
    unfold Queue_get in Hget. destruct (queue q); [simpl in Hpos; lia|done].
  - destruct (scrape_item_try_result _ _ _ _ _ _ _ _ _ Htry)
      as (σ1 & out & Hloop & -> & -> & Hres & Hid & Hcs).
    destruct (run_until_finished_context _ _ _ _ _ _ Hloop) as (_ & _ & Hlen).
    eapply (invariant_insert K N (mkRun σ fs q sink ys err b) i _
              (Future.RETURNING (driver_id c')) _ _ b Hinv Hi);
      simpl; try done; eauto.
    + destruct out as [[]|e]; [|destruct (isinstance_Exception e)];
        rewrite ?length_alter; congruence.
    + rewrite length_app. simpl. lia.
    + intros d [= <-]. rewrite Hid. eauto.
    + intros [?|?]; done.
  - destruct (scrape_item_try_result _ _ _ _ _ _ _ _ _ Htry)
      as (σ1 & out & Hloop & -> & -> & Hres & Hid & Hcs).
    destruct (run_until_finished_context _ _ _ _ _ _ Hloop) as (_ & _ & Hlen).
    eapply (invariant_insert K N (mkRun σ fs q sink ys err b) i _
              (Future.FINISHED (Raise e)) _ _ b Hinv Hi);
      simpl; try done; eauto.
    + destruct out as [[]|e0]; [|destruct (isinstance_Exception e0)];
        rewrite ?length_alter; congruence.
    + rewrite length_app. simpl. lia.
    + intros e0 [= <-]. destruct out as [[]|e0]; [done|].
      destruct (isinstance_Exception e0) eqn:He0; [done|]. by injection Hres as ->.
    + intros [?|?]; done.
  - destruct (Hret i d Hi) as [r Hr].
    eapply (invariant_insert K N (mkRun σ fs q sink ys err b) i _
              (Future.FINISHED (returned_status (b !! d))) σ q b Hinv Hi);
      simpl; try done; eauto.
    + rewrite Hr. simpl. intros r0 [= <-]. eauto.
    + by rewrite Hr.
    + rewrite Hr. intros [?|?]; done.
  - destruct (process_completed_future_shape _ _ _ _ _ _ Hp) as (Hlen & Hfs').
    assert (fs' = fs) as ->
      by (destruct Hfs' as [-> | ->]; [done|by apply cancel_futures_ready]).
    assert (Hif : i < N) by (rewrite <- Hf; by eapply lookup_lt_Some).
    assert (Hr : r < N).
    { pose proof (Forall_lookup_1 _ _ _ _ Hjoin Hi) as Hready.
      destruct f as [|held|d| | |res]; try done.
      { destruct (Hnc i _ Hi). by right. }
      pose proof (process_completed_future_finished _ _ _ _ _ _ _ Hi Hp) as Hout.
      destruct res as [r0|e].
      - injection Hout as <-. eauto.
      - destruct (isinstance_CancelledError e); [by injection Hout as <-|].
        by destruct Hout. }
    split; simpl; try done; try lia.
    + apply NoDup_app. split; [done|]. split; [|apply NoDup_singleton].
      intros x Hx ->%list_elem_of_singleton. done.
    + intros x [Hx| ->%list_elem_of_singleton]%elem_of_app; auto.
    + intros x [Hx| ->%list_elem_of_singleton]%elem_of_app; auto.
    + rewrite !length_app. simpl. lia.
    + intros _. rewrite !length_app. simpl. rewrite Hnr by done. done.
  - destruct (process_completed_future_shape _ _ _ _ _ _ Hp) as (Hlen & Hfs').
    assert (fs' = fs) as ->
      by (destruct Hfs' as [-> | ->]; [done|by apply cancel_futures_ready]).
    assert (Hif : i < N) by (rewrite <- Hf; by eapply lookup_lt_Some).
    split; simpl; try done; try lia.
    + apply NoDup_app. split; [done|]. split; [|apply NoDup_singleton].
      intros x Hx ->%list_elem_of_singleton. done.
    + intros x [Hx| ->%list_elem_of_singleton]%elem_of_app; auto.
    + rewrite !length_app. simpl. lia.
Qed.

Lemma steps_invariant K N (s s' : Run_) ls :
  invariant K N s → steps state_run K s ls s' → invariant K N s'.
Proof.
  intros Hinv Hsteps. induction Hsteps as [s|s1 l s2 ls s3 Hstep _ IH]; [done|].
  apply IH. by eapply step_invariant.
Qed.

(** A worker thread that executes a call can take its next step. *)
Lemma running_future_steps K N (s : Run_) j f :
  always_terminates state_run → invariant K N s →
  futures s !! j = Some f → Future.is_RUNNING f = true →
  ∃ l s', step state_run K s l s' ∧ is_worker_step l = true.
Proof.
  intros Hterm Hinv Hj Hf. destruct f as [|[c|]|d| | |]; try done.
  - pose proof (holding_worker_can_release _ _ _ _ _ Hinv Hj) as Hfull.
    destruct s as [σ fs q sink ys err b]; simpl in *.
    destruct (Hterm σ (with_status (Some j) c)) as (fuel & [[σ1 c1] out] & Hloop).
    pose proof (scrape_item_try_exit _ _ _ _ _ _ _ _ Hfull Hloop) as Htry.
    exists (Finish j).
    destruct out as [[]|e]; [|destruct (isinstance_Exception e)].
    + eexists. split; [by eapply step_Finish|done].
    + eexists. split; [by eapply step_Finish|done].
    + eexists. split; [by eapply step_Finish_Raise|done].
  - pose proof (waiting_worker_finds_driver _ _ _ _ Hinv Hj) as Hpos.
    destruct s as [σ fs q sink ys err b]; simpl in *.
    destruct (queue q) as [|c rest] eqn:Hq; [simpl in Hpos; lia|].
    eexists (Acquire j), _. split; [|done].
    eapply step_Acquire; [done|]. unfold Queue_get. by rewrite Hq.
  - destruct s as [σ fs q sink ys err b]; simpl in *.
    eexists (ReturnStatus j), _. split; [|done]. by eapply step_ReturnStatus.
Qed.

(** As long as the executor has not been joined, a worker thread can take a
    step. *)
Lemma worker_progress K N (s : Run_) :
  1 ≤ K → always_terminates state_run → invariant K N s →
  joined s ∨ ∃ l s', step state_run K s l s' ∧ is_worker_step l = true.
Proof.
  intros HK Hterm Hinv. unfold joined.
  destruct (decide (Forall (λ f, Future.as_completed_ready f = true) (futures s)))
    as [Hall|Hnot]; [by left|right].
  apply not_Forall_Exists, Exists_exists in Hnot; [|apply _].
  destruct Hnot as (f & [i Hi]%list_elem_of_lookup_1 & Hnr).
  pose proof (inv_workers _ _ _ Hinv) as Hw.
  pose proof (inv_no_cancel _ _ _ Hinv) as Hnc.
  destruct f as [|held|d| | |res]; try (by destruct Hnr).
  - destruct (decide (running (futures s) < K)) as [Hlt|Hge].
    + destruct s as [σ fs q sink ys err b]; simpl in *.
      eexists (Start i), _. split; [|done]. by eapply step_Start.
    + destruct (count_pos Future.is_RUNNING (futures s)) as (j & g & Hj & Hg).
      { rewrite <- running_count. lia. }
      by eapply running_future_steps.
  - by eapply running_future_steps.
  - by eapply running_future_steps.
  - destruct (Hnc i _ Hi). by left.
Qed.

(** As long as a future has not been yielded and no exception has left the
    collector, some thread can take a step: the collector never waits for
    ever. *)
Lemma progress K N (s : Run_) :
  1 ≤ K → always_terminates state_run → invariant K N s →
  collector_done s ∨ is_Some (collector_raised s)
  ∨ ∃ l s', step state_run K s l s'.
Proof.
  intros HK Hterm Hinv.
  destruct (decide (Forall (λ i, i ∈ yielded s) (seq 0 (length (futures s)))))
    as [Hall|Hnot].
  { left. intros i Hi. rewrite Forall_forall in Hall. apply Hall.
    apply elem_of_seq. lia. }
  right. destruct (collector_raised s) as [e|] eqn:Herr; [left; eauto|right].
  destruct (worker_progress K N s HK Hterm Hinv) as [Hjoin|(l & s' & Hstep & _)];
    [|eauto].
  apply not_Forall_Exists, Exists_exists in Hnot; [|apply _].
  destruct Hnot as (i & [_ Hi]%elem_of_seq & Hnew). simpl in Hi.
  destruct (lookup_lt_is_Some_2 _ _ Hi) as [f Hf].
  pose proof (Forall_lookup_1 _ _ _ _ Hjoin Hf) as Hready. simpl in Hready.
  destruct s as [σ fs q sink ys err b]; simpl in *. subst err.
  destruct (process_completed_future_total σ fs i f Hf Hready)
    as (σ' & fs' & [r|e] & Hp).
  - eexists _, _. by eapply step_Collect_Return.
  - eexists _, _. by eapply step_Collect_Raise.
Qed.

Lemma to_yield_le (ys : list nat) i (l : list nat) :
  length (filter (λ j, j ∉ ys ++ [i]) l) ≤ length (filter (λ j, j ∉ ys) l).
Proof.
  induction l as [|a l IH]; [done|]. rewrite !filter_cons.
  destruct (decide (a ∉ ys ++ [i])) as [H|H];
    destruct (decide (a ∉ ys)) as [H'|H']; simpl; try lia.
  exfalso. apply H'. intros Ha. apply H. apply elem_of_app. by left.
Qed.

Lemma to_yield_lt (ys : list nat) i (l : list nat) :
  i ∈ l → i ∉ ys →
  length (filter (λ j, j ∉ ys ++ [i]) l) < length (filter (λ j, j ∉ ys) l).
Proof.
  intros Hin Hnew. induction l as [|a l IH]; [by apply elem_of_nil in Hin|].
  rewrite !filter_cons. pose proof (to_yield_le ys i l) as Hle.
  apply elem_of_cons in Hin as [<-|Hin].
  - rewrite decide_False, decide_True by set_solver. simpl. lia.
  - specialize (IH Hin).
    destruct (decide (a ∉ ys ++ [i])) as [H|H];
      destruct (decide (a ∉ ys)) as [H'|H']; simpl; try lia.
    exfalso. apply H'. intros Ha. apply H. apply elem_of_app. by left.
Qed.

Lemma rank_cancel (f : Future.State Session) : rank (Future.cancel f) ≤ rank f.
Proof. destruct f as [|[]| | | |]; simpl; lia. Qed.

(** Every step leaves less to do: a run cannot go on for ever. *)
Lemma step_remaining K (s s' : Run_) l :
  step state_run K s l s' → remaining s' < remaining s.
Proof.
  intros Hstep. unfold remaining.
  destruct (step_label _ _ _ _ Hstep) as [Hl|[j ->]].
  - destruct (step_worker_inv _ _ _ _ Hstep Hl)
      as (_ & -> & _ & i & f & g & Hi & -> & Hlt).
    rewrite length_insert.
    pose proof (sum_list_fmap_insert rank (futures s) i g f Hi). lia.
  - destruct (step_Collect_inv _ _ _ _ Hstep)
      as (_ & _ & Hnew & Hj & -> & _ & _ & -> & _).
    pose proof (to_yield_lt (yielded s) j (seq 0 (length (futures s)))) as Hlt.
    unfold to_yield.
    assert (j ∈ seq 0 (length (futures s))) by (apply elem_of_seq; lia).
    specialize (Hlt ltac:(done) Hnew). lia.
Qed.

(** When every task's loop ends, every run can be continued to the end of
    the collector's loop: all futures yielded, or an exception raised. *)
Lemma run_completes K N :
  1 ≤ K → always_terminates state_run →
  ∀ n (s : Run_), remaining s ≤ n → invariant K N s →
    ∃ ls s', steps state_run K s ls s'
             ∧ (collector_done s' ∨ is_Some (collector_raised s')).
Proof.
  intros HK Hterm. induction n as [|n IH]; intros s Hn Hinv.
  - destruct (progress K N s HK Hterm Hinv) as [Hdone|[Hr|(l & s' & Hstep)]].
    + exists [], s. split; [constructor|by left].
    + exists [], s. split; [constructor|by right].
    + apply step_remaining in Hstep. lia.
  - destruct (progress K N s HK Hterm Hinv) as [Hdone|[Hr|(l & s' & Hstep)]].
    + exists [], s. split; [constructor|by left].
    + exists [], s. split; [constructor|by right].
    + destruct (IH s') as (ls & s'' & Hsteps & Hdone).
      * apply step_remaining in Hstep. lia.
      * by eapply step_invariant.
      * exists (l :: ls), s''. split; [by econstructor|done].
Qed.

Lemma steps_app K (s1 s2 s3 : Run_) ls ls' :
  steps state_run K s1 ls s2 → steps state_run K s2 ls' s3 →
  steps state_run K s1 (ls ++ ls') s3.
Proof.
  induction 1 as [|s1 l s2 ls s2' Hstep _ IH]; [done|].
  intros H. simpl. econstructor; [done|]. by apply IH.
Qed.

Lemma collected_all (N : nat) (sink : list nat) :
  NoDup sink → (∀ i, i ∈ sink → i < N) → (∀ i, i < N → i ∈ sink) →
  sink ≡ₚ seq 0 N.
Proof.
  intros Hnd Hlt Hall. apply NoDup_Permutation; [done|apply NoDup_seq|].
  intros i. rewrite elem_of_seq. split; [intros ?%Hlt; lia|intros [_ ?]; by apply Hall].
Qed.

Lemma collectable_cancel_futures (fs : Futures) i :
  collectable fs i → collectable (cancel_futures fs) i.
Proof.
  intros (f & Hf & Hready & Hres). exists f.
  rewrite cancel_futures_lookup, Hf. by destruct f.
Qed.

(** The loop of [process_completed_tasks] over futures that are all ready
    and have returned their own records passes these on, in the order in
    which the futures are yielded. *)
Lemma process_completed_tasks_hands_all (order : list nat) :
  ∀ (σ : Store) (fs : Futures) sink,
    Forall (collectable fs) order →
    ∃ σ' fs', process_completed_tasks order σ fs sink
              = Some (σ', fs', sink ++ order, Return ()).
Proof.
  induction order as [|i order IH]; intros σ fs sink Hall.
  - exists σ, fs. by rewrite app_nil_r.
  - apply Forall_cons in Hall as [(f & Hf & Hready & Hres) Hall].
    destruct (process_completed_future_ready σ fs i f Hf Hready Hres)
      as (σ1 & fs1 & Hp).
    simpl. rewrite Hp.
    destruct (IH σ1 fs1 (sink ++ [i])) as (σ' & fs' & Hloop).
    { destruct (process_completed_future_shape _ _ _ _ _ _ Hp) as (_ & [-> | ->]);
        [done|]. eapply Forall_impl; [done|]. apply collectable_cancel_futures. }
    exists σ', fs'. by rewrite Hloop, <- app_assoc.
Qed.

(** While the futures return their own records, the collector passes on
    the record of each future it takes and raises nothing. *)
Lemma step_clean K (s s' : Run_) l :
  step state_run K s l s' → own_records s →
  collector_raised s = None ∧ status_contexts s = yielded s →
  collector_raised s' = None ∧ status_contexts s' = yielded s'.
Proof.
  intros Hstep Hown [Hnr Hsink].
  destruct (step_label _ _ _ _ Hstep) as [Hl|[j ->]].
  - destruct (step_worker_inv _ _ _ _ Hstep Hl) as (-> & -> & -> & _). done.
  - destruct (step_Collect_inv _ _ _ _ Hstep)
      as (Hjoin & _ & _ & Hj & _ & _ & _ & -> & res & Hp & -> & ->).
    destruct (lookup_lt_is_Some_2 _ _ Hj) as [f Hf].
    pose proof (Forall_lookup_1 _ _ _ _ Hjoin Hf) as Hready. simpl in Hready.
    destruct (process_completed_future_ready (scraping_contexts s) (futures s) j f
                Hf Hready) as (σ2 & fs2 & Hp2).
    { intros res0 ->. eauto. }
    rewrite Hp2 in Hp. injection Hp as _ _ <-. by rewrite Hsink.
Qed.

Lemma steps_clean K (s s' : Run_) ls :
  steps state_run K s ls s' → own_records s' →
  collector_raised s = None ∧ status_contexts s = yielded s →
  collector_raised s' = None ∧ status_contexts s' = yielded s'.
Proof.
  induction 1 as [s|s1 l s2 ls s3 Hstep Hsteps IH]; [done|].
  intros Hown Hclean. apply IH; [done|].
  eapply step_clean; [done| |done].
  eapply steps_own_records; [|done]. by econstructor.
Qed.

(** The loop raises what a step raises, or the [AttributeError] of
    [has_finished]. *)
Lemma run_until_finished_raises fuel : ∀ (σ σ' : Store) (c c' : Context_) e,
  raises_only_Exception state_run →
  run_until_finished state_run fuel σ c = Some (σ', c', Raise e) →
  isinstance_Exception e = true.
Proof.
  induction fuel as [|fuel IH]; intros σ σ' c c' e Hpure; [done|]. simpl.
  unfold has_finished. destruct (status_of σ c) as [cs|]; [|by intros [= _ _ <-]].
  destruct (bool_decide _); [done|].
  destruct (run state_run σ c) as [[σ1 c1] [[]|e1]] eqn:Hrun.
  - by apply IH.
  - intros [= _ _ <-]. by eapply Hpure.
Qed.

(** With one worker thread whose steps raise only [Exception]s, no other
    call takes the driver between the [put] and the [return] of a call, so
    every future returns its own record. *)
Lemma step_sequential N (s s' : Run_) l :
  raises_only_Exception state_run →
  invariant 1 N s → step state_run 1 s l s' →
  sequential_invariant s → sequential_invariant s'.
Proof.
  intros Hpure Hinv Hstep [Hheld Hret Hown].
  pose proof (inv_workers _ _ _ Hinv) as Hw.
  assert (Hother : ∀ i j f g, futures s !! i = Some f → futures s !! j = Some g →
            Future.is_RUNNING f = true → Future.is_RUNNING g = true → i = j).
  { intros i j f g Hi Hj Hf Hg. destruct (decide (i = j)) as [|Hne]; [done|].
    pose proof (two_running _ _ _ _ _ Hne Hi Hj Hf Hg). lia. }
  unfold own_records in Hown.
  step_cases Hstep; simpl in *.
  - split; simpl.
    + intros j c [(_ & ? & _)|(_ & Hj)]%list_lookup_insert_Some; eauto; done.
    + intros j d [(_ & ? & _)|(_ & Hj)]%list_lookup_insert_Some; eauto; done.
    + intros j res [(_ & ? & _)|(_ & Hj)]%list_lookup_insert_Some; eauto; done.
  - split; simpl.
    + intros j c [(_ & ? & _)|(_ & Hj)]%list_lookup_insert_Some; eauto; done.
    + intros j d [(_ & ? & _)|(_ & Hj)]%list_lookup_insert_Some; eauto; done.
    + intros j res [(_ & ? & _)|(_ & Hj)]%list_lookup_insert_Some; eauto; done.
  - split; simpl.
    + intros j c0 [(<- & [= <-] & _)|(Hne & Hj)]%list_lookup_insert_Some.
      * by rewrite lookup_insert_eq.
      * destruct Hne. by eapply Hother.
    + intros j d [(_ & ? & _)|(Hne & Hj)]%list_lookup_insert_Some; [done|].
      destruct Hne. by eapply Hother.
    + intros j res [(_ & ? & _)|(_ & Hj)]%list_lookup_insert_Some; eauto; done.
  - pose proof (waiting_worker_finds_driver _ _ _ i Hinv Hi) as Hpos. simpl in Hpos.
    unfold Queue_get in Hget. destruct (queue q); [simpl in Hpos; lia|done].
  - destruct (scrape_item_try_result _ _ _ _ _ _ _ _ _ Htry)
      as (σ1 & out & Hloop & -> & -> & Hres & Hid & Hcs).
    split; simpl.
    + intros j c0 [(_ & ? & _)|(_ & Hj)]%list_lookup_insert_Some; eauto; done.
    + intros j d [(<- & [= <-] & _)|(_ & Hj)]%list_lookup_insert_Some; eauto.
      rewrite Hid. eauto.
    + intros j res [(_ & ? & _)|(_ & Hj)]%list_lookup_insert_Some; eauto; done.
  - destruct (scrape_item_try_result _ _ _ _ _ _ _ _ _ Htry)
      as (σ1 & out & Hloop & -> & -> & Hres & Hid & Hcs).
    destruct out as [[]|e0]; [done|].
    rewrite (run_until_finished_raises _ _ _ _ _ _ Hpure Hloop) in Hres. done.
  - rewrite (Hret i d Hi). simpl. split; simpl.
    + intros j c0 [(_ & ? & _)|(_ & Hj)]%list_lookup_insert_Some; eauto; done.
    + intros j d0 [(_ & ? & _)|(_ & Hj)]%list_lookup_insert_Some; eauto; done.
    + intros j res [(<- & [= <-] & _)|(_ & Hj)]%list_lookup_insert_Some; eauto.
  - destruct (process_completed_future_shape _ _ _ _ _ _ Hp) as (_ & Hfs').
    assert (fs' = fs) as ->
      by (destruct Hfs' as [-> | ->]; [done|by apply cancel_futures_ready]).
    by split.
  - destruct (process_completed_future_shape _ _ _ _ _ _ Hp) as (_ & Hfs').
    assert (fs' = fs) as ->
      by (destruct Hfs' as [-> | ->]; [done|by apply cancel_futures_ready]).
    by split.
Qed.

Lemma steps_sequential N (s s' : Run_) ls :
  raises_only_Exception state_run →
  invariant 1 N s → steps state_run 1 s ls s' →
  sequential_invariant s → sequential_invariant s'.
Proof.
  intros Hpure Hinv Hsteps. revert Hinv.
  induction Hsteps as [s|s1 l s2 ls s3 Hstep _ IH]; intros Hinv Hseq; [done|].
  apply IH; [by eapply step_invariant|by eapply step_sequential].
Qed.

Lemma initial_run_sequential opts (σ : Store) (drivers : list Context_) :
  sequential_invariant (initial_run opts σ drivers).
Proof.
  split; simpl.
  - intros i c [H _]%lookup_replicate. done.
  - intros i d [H _]%lookup_replicate. done.
  - intros i res [H _]%lookup_replicate. done.
Qed.

(** When the collector's loop has ended after passing on the record of each
    future, it has passed on each record once. *)
Lemma clean_run_hands_all K N (s : Run_) :
  invariant K N s → status_contexts s = yielded s → collector_done s →
  status_contexts s ≡ₚ seq 0 N.
Proof.
  intros [Hf Hc Hm Hu Hd Hw Hheld Hret Hb Hrd Hrs Hnc Hnd Hy Hsink Hsl Hnr]
         Heq Hdone.
  rewrite Heq. apply collected_all; [done..|].
  intros i Hi. apply Hdone. by rewrite Hf.
Qed.


(** ** Running a schedule *)

Lemma forallb_ready (fs : Futures) :
  forallb Future.as_completed_ready fs = true
  ↔ Forall (λ f, Future.as_completed_ready f = true) fs.
Proof.
  induction fs as [|f fs IH]; simpl; [split; [constructor|done]|].
  by rewrite andb_true_iff, Forall_cons, IH.
Qed.

Lemma exec_step_sound K fuel l (s s' : Run_) :
  exec_step state_run K fuel l s = Some s' → step state_run K s l s'.
Proof.
  destruct s as [σ fs q sink ys err b]. destruct l as [i|i|i|i|i|i|i]; simpl.
  - destruct (fs !! i) as [[]|] eqn:Hi; try done.
    case_decide; [|done]. intros [= <-]. by apply step_Start.
  - destruct (fs !! i) as [[]|] eqn:Hi; try done.
    intros [= <-]. by apply step_DropCancelled.
  - destruct (fs !! i) as [[|[]| | | |]|] eqn:Hi; try done.
    destruct (Queue_get 60 q) as [c q'|w] eqn:Hget; [|done].
    intros [= <-]. by eapply step_Acquire.
  - destruct (fs !! i) as [[|[]| | | |]|] eqn:Hi; try done.
    destruct (Queue_get 60 q) as [c q'|w] eqn:Hget; [done|].
    intros [= <-]. by eapply step_AcquireTimeout.
  - destruct (fs !! i) as [[|[c|]| | | |]|] eqn:Hi; try done.
    destruct (scrape_item_try _ _ _ _ _ _) as [[[[q' σ'] c'] [[]|e]]|] eqn:Hs;
      [| |done]; intros [= <-].
    + by eapply step_Finish.
    + by eapply step_Finish_Raise.
  - destruct (fs !! i) as [[]|] eqn:Hi; try done.
    intros [= <-]. by eapply step_ReturnStatus.
  - destruct err; [done|]. destruct (fs !! i) as [f|] eqn:Hi; [|done].
    destruct (forallb Future.as_completed_ready fs) eqn:Hall; [|done]. simpl.
    apply forallb_ready in Hall.
    case_bool_decide as Hnew; [|done].
    destruct (process_completed_future σ fs i) as [[[σ' fs'] [r|e]]|] eqn:Hp;
      [| |done]; intros [= <-].
    + by eapply step_Collect_Return.
    + by eapply step_Collect_Raise.
Qed.

Lemma exec_steps_sound K fuel ls : ∀ (s s' : Run_),
  exec_steps state_run K fuel ls s = Some s' → steps state_run K s ls s'.
Proof.
  induction ls as [|l ls IH]; intros s s'; simpl.
  - intros [= <-]. constructor.
  - destruct (exec_step state_run K fuel l s) as [s1|] eqn:Hs; [|done]. simpl.
    intros H. econstructor; [by eapply exec_step_sound|by apply IH].
Qed.

(** ** Unfolding the loop, for step graphs that are given *)

Lemma loop_unbound fuel (σ : Store) (c : Context_) :
  status_of σ c = None →
  run_until_finished state_run (S fuel) σ c
  = Some (σ, c, Raise (AttributeError "context_status")).
Proof. intros H. simpl. unfold has_finished. by rewrite H. Qed.

Lemma loop_terminal fuel (σ : Store) (c : Context_) cs :
  status_of σ c = Some cs → status cs ∈ Terminal →
  run_until_finished state_run (S fuel) σ c = Some (σ, c, Return ()).
Proof.
  intros Hcs Hterm. simpl. rewrite (has_finished_bound _ _ _ Hcs).
  by rewrite bool_decide_eq_true_2.
Qed.

Lemma loop_step fuel (σ : Store) (c : Context_) cs :
  status_of σ c = Some cs → status cs ∉ Terminal →
  run_until_finished state_run (S fuel) σ c =
    match run state_run σ c with
    | (σ1, c1, Raise e) => Some (σ1, c1, Raise e)
    | (σ1, c1, Return _) => run_until_finished state_run fuel σ1 c1
    end.
Proof.
  intros Hcs Hterm. simpl. rewrite (has_finished_bound _ _ _ Hcs).
  by rewrite bool_decide_eq_false_2.
Qed.

(** One call of [run] on a context with a record and a state. *)
Lemma run_bound_state (σ : Store) (c : Context_) cs st :
  status_of σ c = Some cs → state c = Some st →
  let eff := state_run (state_cls st) (driver c)
               (set_current_state (Some (cls_name (state_cls st))) cs) in
  ∃ r, context_status c = Some r
       ∧ run state_run σ c =
           (<[r := eff_status eff]> σ, (apply_effect c eff).1, (apply_effect c eff).2)
       ∧ status_of (<[r := eff_status eff]> σ) (apply_effect c eff).1
         = Some (eff_status eff).
Proof.
  intros Hcs Hst eff. unfold status_of in Hcs.
  destruct (context_status c) as [r|] eqn:Hr; [|done]. simpl in Hcs.
  exists r. split; [done|].
  assert (Hrun : run state_run σ c =
    (<[r := eff_status eff]> σ, (apply_effect c eff).1, (apply_effect c eff).2)).
  { unfold run. rewrite Hst, Hr, Hcs. fold eff. by destruct (apply_effect c eff). }
  split; [done|]. unfold status_of.
  rewrite (run_context_status _ _ _ _ _ Hrun), Hr. simpl.
  apply list_lookup_insert_eq. by eapply lookup_lt_Some.
Qed.

(** One turn of the loop on a record that is not terminal yet. *)
Lemma loop_run fuel (σ : Store) (c : Context_) cs st :
  status_of σ c = Some cs → status cs ∉ Terminal → state c = Some st →
  let eff := state_run (state_cls st) (driver c)
               (set_current_state (Some (cls_name (state_cls st))) cs) in
  ∃ σ1, status_of σ1 (apply_effect c eff).1 = Some (eff_status eff)
        ∧ run_until_finished state_run (S fuel) σ c =
            match (apply_effect c eff).2 with
            | Raise e => Some (σ1, (apply_effect c eff).1, Raise e)
            | Return _ => run_until_finished state_run fuel σ1 (apply_effect c eff).1
            end.
Proof.
  intros Hcs Hterm Hst eff.
  destruct (run_bound_state σ c cs st Hcs Hst) as (r & Hr & Hrun & Hcs1).
  fold eff in Hrun, Hcs1. eexists. split; [exact Hcs1|].
  rewrite (loop_step _ _ _ _ Hcs Hterm), Hrun.
  by destruct (apply_effect c eff).2.
Qed.

(** ** Runs that the stop signal interrupts *)

Lemma exec_signal_step_sound K fuel l (ms ms' : Main Session * Run_) :
  exec_signal_step state_run K fuel l ms = Some ms' →
  signal_step state_run K ms l ms'.
Proof.
  destruct ms as [m s]. destruct l as [l| | |]; simpl.
  - destruct m as [|idx quit|e].
    + destruct (exec_step state_run K fuel l s) as [s'|] eqn:Hs; [|done].
      intros [= <-]. apply signal_Thread; [by eapply exec_step_sound|by left].
    + destruct (is_worker_step l) eqn:Hl; [|done].
      destruct (exec_step state_run K fuel l s) as [s'|] eqn:Hs; [|done].
      intros [= <-]. apply signal_Thread; [by eapply exec_step_sound|by right].
    + destruct (is_worker_step l) eqn:Hl; [|done].
      destruct (exec_step state_run K fuel l s) as [s'|] eqn:Hs; [|done].
      intros [= <-]. apply signal_Thread; [by eapply exec_step_sound|by right].
  - destruct m; try done. intros [= <-]. destruct s. apply signal_SIGINT.
  - destruct m as [|idx quit|e]; try done. case_decide; [|done].
    destruct (_clear_driver_context (driver_queue s)) as [[c q'|w] res] eqn:Hc.
    + destruct s. destruct res as [[]|e]; intros [= <-].
      * by eapply signal_Clear.
      * by eapply signal_Clear_Raise.
    + intros [= <-]. by eapply signal_Clear_Empty.
  - destruct m as [|idx quit|e]; try done. case_decide as H; [|done]. subst idx.
    intros [= <-]. apply signal_Exit.
Qed.

Lemma exec_signal_steps_sound K fuel ls : ∀ (ms ms' : Main Session * Run_),
  exec_signal_steps state_run K fuel ls ms = Some ms' →
  signal_steps state_run K ms ls ms'.
Proof.
  induction ls as [|l ls IH]; intros ms ms'; simpl.
  - intros [= <-]. constructor.
  - destruct (exec_signal_step state_run K fuel l ms) as [ms1|] eqn:Hs; [|done]. simpl.
    intros H. econstructor; [by eapply exec_signal_step_sound|by apply IH].
Qed.

(** Once the signal has arrived the main thread is in the handler or gone:
    the collector takes no step, so nothing more is passed on. *)
Lemma signal_step_handler K (ms ms' : Main Session * Run_) l :
  signal_step state_run K ms l ms' → ms.1 ≠ Scraping →
  ms'.1 ≠ Scraping
  ∧ status_contexts ms'.2 = status_contexts ms.2
  ∧ yielded ms'.2 = yielded ms.2.
Proof.
  intros Hstep Hm.
  destruct Hstep as [m s l s' Hstep Hl| | | | |]; simpl in *; try done.
  destruct Hl as [->|Hl]; [done|].
  by destruct (step_worker_inv _ _ _ _ Hstep Hl) as (-> & -> & _).
Qed.

Lemma signal_steps_handler K (ms ms' : Main Session * Run_) ls :
  signal_steps state_run K ms ls ms' → ms.1 ≠ Scraping →
  ms'.1 ≠ Scraping
  ∧ status_contexts ms'.2 = status_contexts ms.2
  ∧ yielded ms'.2 = yielded ms.2.
Proof.
  induction 1 as [ms|ms1 l ms2 ls ms3 Hstep _ IH]; [done|].
  intros Hm. destruct (signal_step_handler _ _ _ _ Hstep Hm) as (Hm2 & <- & <-).
  by apply IH.
Qed.

End Properties.

(** * The example step graph: the theorems at work *)

Import MyWebscrapper.

Lemma state_run_InitialState page cs :
  state_run InitialState page cs =
    mkEffect cs (GOOGLE_URL +:+ "/search?q=" +:+ search_item (input_data cs))
             (Some FinalState) None.
Proof. reflexivity. Qed.

Lemma state_run_FinalState page cs :
  state_run FinalState page cs =
    mkEffect (mkContextStatus SUCCEED (error cs) (current_state cs)
                (input_data cs) (mkOutput (Some page)) (tmp_data cs))
             page None None.
Proof. reflexivity. Qed.

Lemma state_run_other cls page cs :
  cls ≠ InitialState → cls ≠ FinalState →
  is_Some (eff_raise (state_run cls page cs))
  ∧ (eff_set_state (state_run cls page cs) = None
     ∨ eff_set_state (state_run cls page cs) = Some FinalState).
Proof.
  intros. unfold state_run. rewrite !decide_False by done.
  repeat case_decide; simpl; eauto.
Qed.

(** Every task of the example ends, within three turns of the loop. *)
Lemma example_terminates : always_terminates state_run.
Proof.
  intros σ c. exists 3.
  destruct (status_of σ c) as [cs|] eqn:Hcs; [|by rewrite loop_unbound].
  destruct (decide (status cs ∈ Terminal)) as [Hterm|Hterm];
    [by erewrite loop_terminal|].
  destruct (state c) as [[cls id]|] eqn:Hst.
  2:{ rewrite (loop_step _ _ _ _ _ Hcs Hterm). unfold run. by rewrite Hst. }
  destruct (loop_run state_run 2 σ c cs _ Hcs Hterm Hst) as (σ1 & Hcs1 & ->).
  cbn [state_cls] in *.
  destruct (decide (cls = InitialState)) as [->|Hni];
    [|destruct (decide (cls = FinalState)) as [->|Hnf]].
  - rewrite state_run_InitialState in *.
    cbn [apply_effect eff_set_state eff_raise eff_driver eff_status set_state negb
         cls_issubclass_DriverState cls_abstract cls_init FinalState fst snd] in *.
    edestruct (loop_run state_run 1 σ1) as (σ2 & Hcs2 & ->);
      [exact Hcs1|exact Hterm|reflexivity|].
    cbn [state_cls] in *. rewrite state_run_FinalState in *.
    cbn [apply_effect eff_set_state eff_raise eff_driver eff_status fst snd] in *.
    erewrite loop_terminal; [done|exact Hcs2|]. simpl. set_solver.
  - rewrite state_run_FinalState in *.
    cbn [apply_effect eff_set_state eff_raise eff_driver eff_status fst snd] in *.
    erewrite loop_terminal; [done|exact Hcs1|]. simpl. set_solver.
  - destruct (state_run_other cls (driver c)
                (set_current_state (Some (cls_name cls)) cs) Hni Hnf)
      as [[e He] [Hs|Hs]];
      unfold apply_effect; rewrite Hs, He; simpl; done.
Qed.

(** The steps of the example raise [Exception]s only. *)
Lemma example_raises_only_Exception : raises_only_Exception state_run.
Proof.
  intros σ c σ' c' e. unfold run.
  destruct (state c) as [[cls id]|]; [|by intros [= _ _ <-]].
  destruct (context_status c) as [r|]; [|by intros [= _ _ <-]].
  destruct (σ !! r) as [cs|]; [|by intros [= _ _ <-]].
  cbn [state_cls].
  destruct (apply_effect _ _) as [c2 res] eqn:Heff. intros [= _ _ Hres].
  subst res. unfold apply_effect, state_run in Heff.
  repeat case_decide; by simplify_eq/=.
Qed.

(** C5, on the example: the loop started in [InitialState] is an execution
    in the sense of the specification and ends with the status SUCCEED. *)
Lemma scrape_loop_witness :
  is_Some (status_of ex_store (ex_context InitialState))
  ∧ ∃ σ' c',
      spec_execution state_run ex_store (ex_context InitialState) σ' c' (Return ())
      ∧ status <$> status_of σ' c' = Some SUCCEED.
Proof.
  assert (H : is_Some (status_of ex_store (ex_context InitialState)))
    by (by eexists).
  split; [exact H|]. eexists _, _. split.
  - apply (proj1 (scrape_loop_runs_until_terminal state_run ex_store _
                    (ex_context InitialState) _ _ H)).
    exists 3. vm_compute. reflexivity.
  - vm_compute. reflexivity.
Defined.

(** C9, on the example: [FinalState] is installed; [str] and the abstract
    [MyDriverState] are refused, the constructor of [BrokenState] fails, and
    nothing is assigned. *)
Lemma set_state_witness :
  set_state (ex_context InitialState) FinalState =
    Return (mkDriverContext 0 "about:blank" (Some 0)
              (Some (mkDriverState FinalState 0)) false)
  ∧ (raises_TypeError (set_state (ex_context InitialState) str_cls)
     ∧ after_set_state (ex_context InitialState) str_cls = ex_context InitialState)
  ∧ (raises_TypeError (set_state (ex_context InitialState) MyDriverState)
     ∧ after_set_state (ex_context InitialState) MyDriverState
       = ex_context InitialState)
  ∧ (set_state (ex_context InitialState) BrokenState
       = Raise (ValueError "no page to start from")
     ∧ after_set_state (ex_context InitialState) BrokenState
       = ex_context InitialState).
Proof.
  split; [|split; [|split]].
  - exact (proj2 (proj2 (proj2 (set_state_installs_concrete_subclasses
                           (ex_context InitialState) FinalState)))
             eq_refl eq_refl eq_refl).
  - exact (proj1 (set_state_installs_concrete_subclasses
                    (ex_context InitialState) str_cls) eq_refl).
  - exact (proj1 (proj2 (set_state_installs_concrete_subclasses
                           (ex_context InitialState) MyDriverState)) eq_refl eq_refl).
  - exact (proj1 (proj2 (proj2 (set_state_installs_concrete_subclasses
                           (ex_context InitialState) BrokenState)))
             _ eq_refl eq_refl eq_refl).
Defined.

(** C9 as it was claimed fails for [DriverState] itself: it is a subclass of
    [DriverState], and [set_state] installs no instance of it. *)
Lemma set_state_abstract_counterexample :
  ¬ (cls_issubclass_DriverState DriverState_cls = true →
     set_state (ex_context InitialState) DriverState_cls =
       Return (with_state (Some (mkDriverState DriverState_cls 0))
                          (ex_context InitialState))).
Proof. intros H. specialize (H eq_refl). discriminate H. Qed.

(** C10, on the example: [CrashState] installs [FinalState] and then fails;
    the record names [CrashState]. *)
Lemma run_names_witness :
  state (ex_context CrashState) = Some (mkDriverState CrashState 0)
  ∧ context_status (ex_context CrashState) = Some 0
  ∧ ex_store !! 0 = Some dummy_context_status
  ∧ ∃ σ' c' e,
      run state_run ex_store (ex_context CrashState) = (σ', c', Raise e)
      ∧ state_cls <$> state c' = Some FinalState
      ∧ current_state <$> status_of σ' c' = Some (Some "CrashState").
Proof.
  split; [reflexivity|]. split; [reflexivity|]. split; [reflexivity|].
  eexists _, _, _. split; [vm_compute; reflexivity|]. split; [reflexivity|].
  exact (proj2 (proj2 (proj2 (run_names_the_running_step state_run ex_store
                         (ex_context CrashState) (mkDriverState CrashState 0) 0
                         dummy_context_status eq_refl eq_refl eq_refl))
           _ _ _ eq_refl) eq_refl).
Defined.

(** C10 as it was claimed fails for a step that writes [current_state]
    itself before it raises: the record then holds what the step has
    written, not the name of the step. *)
Lemma run_names_counterexample :
  ∃ σ' c' e,
    state (ex_context CrashState) = Some (mkDriverState CrashState 0)
    ∧ run renaming_run ex_store (ex_context CrashState) = (σ', c', Raise e)
    ∧ current_state <$> status_of σ' c' = Some (Some "retrying")
    ∧ current_state <$> status_of σ' c' ≠ Some (Some (cls_name CrashState)).
Proof.
  eexists _, _, _. split; [reflexivity|]. split; [reflexivity|].
  split; [reflexivity|]. discriminate.
Qed.

(** C2, on the example: the three ways of the collector. *)
Lemma collector_statuses_witness :
  process_completed_future collected_store collected_futures 0 =
    Some (<[0 := mkContextStatus FAILED (Some (WebScrapperException "not found"))
                    (Some "NotFoundState") (mkInput "python") (mkOutput None) ∅]>
            collected_store,
          collected_futures, Return 0)
  ∧ (process_completed_future collected_store collected_futures 1 =
       Some (<[1 := mkContextStatus CRITICAL (Some (OtherException "crash"))
                       (Some "CrashState") (mkInput "python") (mkOutput None) ∅]>
               collected_store,
             Future.cancel <$> collected_futures, Return 1)
     ∧ (Future.cancel <$> collected_futures) !! 3 = Some Future.CANCELLED)
  ∧ process_completed_future collected_store collected_futures 2 =
      Some (<[2 := mkContextStatus CANCELLED None None (mkInput "python")
                      (mkOutput None) ∅]> collected_store,
            collected_futures, Return 2).
Proof.
  split; [|split; [split|]].
  - exact (proj1 (proj1 (collector_sets_failure_statuses
             collected_store collected_futures 0 [] [])
             0 not_found_record _ eq_refl eq_refl eq_refl eq_refl)).
  - exact (proj1 (proj1 (proj2 (collector_sets_failure_statuses
             collected_store collected_futures 1 [] []))
             1 crashed_record _ eq_refl eq_refl eq_refl eq_refl eq_refl)).
  - exact (proj2 (proj2 (proj1 (proj2 (collector_sets_failure_statuses
             collected_store collected_futures 1 [] []))
             1 crashed_record _ eq_refl eq_refl eq_refl eq_refl eq_refl)) 3 eq_refl).
  - exact (proj2 (proj2 (collector_sets_failure_statuses
             collected_store collected_futures 2 [] []))
             _ dummy_context_status eq_refl (or_intror eq_refl) eq_refl).
Defined.

(** C8, on the example: a record that succeeded passes the collector as it
    is. *)
Lemma collector_keeps_SUCCEED_witness :
  process_completed_future [succeeded_record] [Future.FINISHED (Return 0)] 0 =
    Some ([succeeded_record], [Future.FINISHED (Return 0) : Future.State Page], Return 0)
  ∧ ∃ cs, [succeeded_record] !! 0 = Some cs
          ∧ collector_rewrite cs succeeded_record
          ∧ (status succeeded_record = SUCCEED → status cs = SUCCEED).
Proof.
  assert (H : process_completed_future [succeeded_record]
                [Future.FINISHED (Return 0) : Future.State Page] 0 =
              Some ([succeeded_record], [Future.FINISHED (Return 0)], Return 0))
    by reflexivity.
  split; [exact H|].
  exact (proj1 (collector_never_sets_SUCCEED _ _ _ _ _ _ H) 0 succeeded_record eq_refl).
Defined.

(** C4, on the example: the worker whose step crashes puts its driver
    back. *)
Lemma scrape_item_releases_witness :
  let q := mkQueue 1 [new_driver 0 CrashState] 1 in
  Queue_wf q
  ∧ ∃ σ' c1,
      Queue_get 60 q = Got (new_driver 0 CrashState) (mkQueue 1 [] 1)
      ∧ scrape_item state_run 5 q ex_store 0 = Some (mkQueue 1 [c1] 1, σ', Return 0)
      ∧ driver_id c1 = 0
      ∧ error <$> σ' !! 0 = Some (Some (OtherException "crash")).
Proof.
  intros q.
  assert (Hwf : Queue_wf q) by (right; apply le_n).
  split; [exact Hwf|].
  destruct (scrape_item_releases_exactly_once state_run 5 q (mkQueue 1 [] 1)
              ex_store _ (new_driver 0 CrashState) _ 0 _ Hwf eq_refl eq_refl)
    as (Hexit & Hid & _).
  eexists _, _. split; [reflexivity|]. split; [exact Hexit|].
  split; [exact Hid|reflexivity].
Defined.

(** C7, on the example: draining the empty queue of two slots. *)
Lemma drain_of_empty_queue_witness :
  let q : Queue (DriverContext Page) := mkQueue 2 [] 0 in
  queue q = []
  ∧ cleared (clear_driver_queue (mkOptions 2) q) = []
  ∧ drained_queue (clear_driver_queue (mkOptions 2) q) = q
  ∧ waited (clear_driver_queue (mkOptions 2) q) = 1000.
Proof.
  intros q. split; [reflexivity|].
  destruct (drain_of_empty_queue (mkOptions 2) q eq_refl) as (H1 & H2 & _ & H4 & _).
  split; [exact H1|]. split; [exact H2|exact H4].
Defined.

(** C7 as it was claimed fails on the empty queue of one slot: nothing is
    closed and the queue is unchanged, but the call has waited. *)
Lemma drain_of_empty_queue_counterexample :
  let q : Queue (DriverContext Page) := mkQueue 1 [] 0 in
  ¬ (cleared (clear_driver_queue (mkOptions 1) q) = []
     ∧ drained_queue (clear_driver_queue (mkOptions 1) q) = q
     ∧ waited (clear_driver_queue (mkOptions 1) q) = 0).
Proof. intros q (_ & _ & H). discriminate H. Qed.



(** C6 (what the code does): with no driver in the queue the [get] of
    [scrape_item] waits its 60 and [queue.Empty] leaves the call, outside its
    [try]: no error is stored in the record and its status stays INITIALIZED.
    [process_completed_future] catches [CancelledError] only, so the exception
    leaves [process_completed_tasks] too: the record does not become CRITICAL
    and is never passed to [add_context_status]. *)
Theorem acquire_timeout_aborts_the_collector :
  let q : Queue (DriverContext Page) := mkQueue 1 [] 0 in
  let fs : list (Future.State Page) := [Future.FINISHED (Raise queue_Empty)] in
  Queue_get 60 q = TimedOut 60
  ∧ scrape_item state_run 5 q ex_store 0 = Some (q, ex_store, Raise queue_Empty)
  ∧ process_completed_future ex_store fs 0 = Some (ex_store, fs, Raise queue_Empty)
  ∧ process_completed_tasks [0] ex_store fs [] = Some (ex_store, fs, [], Raise queue_Empty)
  ∧ steps state_run 1 (initial_run (mkOptions 1) ex_store [])
          [Start 0; AcquireTimeout 0; Collect 0]
          (mkRun ex_store fs q [] [0] (Some queue_Empty) ∅)
  ∧ status <$> ex_store !! 0 = Some INITIALIZED.
Proof.
  intros q fs. repeat split.
  econstructor; [by apply step_Start; [|apply le_n]|].
  econstructor; [by eapply step_AcquireTimeout|].
  econstructor; [|constructor].
  eapply step_Collect_Raise;
    [repeat constructor|reflexivity|apply not_elem_of_nil|reflexivity].
Qed.

(** * Further properties of the code *)

(** ** Reading tables and lists *)

Section TableProperties.
Context (strip : string → string).

Lemma list_pop_reverse {A} (x : A) (l : list A) :
  list_pop (reverse (x :: l)) = Some (x, reverse l).
Proof. unfold list_pop. by rewrite reverse_involutive. Qed.

(** X1: for a table whose first row has [th] cells, the header is the
    stripped text of these cells and the body has one row for each of the
    other rows, in the order in which [find_elements] returned them, with the
    stripped texts of its [td] cells. *)
Theorem table_with_header_row (first : RowElement) (others : list RowElement) :
  th_texts first ≠ [] →
  get_simple_table_data strip (first :: others) =
    Return (mkTableData
              (_safe_textContent_getter strip <$> th_texts first)
              ((λ row, _safe_textContent_getter strip <$> td_texts row) <$> others)).
Proof.
  intros Hth. unfold get_simple_table_data. rewrite list_pop_reverse.
  destruct (th_texts first) as [|th ths] eqn:E; [done|].
  rewrite fmap_cons. simpl.
  by rewrite fmap_reverse, reverse_involutive.
Qed.

(** X2: for a table whose first row has no [th] cell, the header is empty and
    the first row is not the first row of the body but the last one: the body
    lists the other rows in the order of [find_elements] and then the first
    row. *)
Theorem table_without_header_row (first : RowElement) (others : list RowElement) :
  th_texts first = [] →
  get_simple_table_data strip (first :: others) =
    Return (mkTableData []
              (((λ row, _safe_textContent_getter strip <$> td_texts row) <$> others)
               ++ [_safe_textContent_getter strip <$> td_texts first])).
Proof.
  intros Hth. unfold get_simple_table_data. rewrite list_pop_reverse, Hth.
  simpl. rewrite reverse_cons, fmap_reverse. by rewrite reverse_involutive.
Qed.

(** X3: [get_simple_table_data] raises exactly for a table without rows; for
    every other table the body has one row for each row of the table, less
    the first row when that one has [th] cells. *)
Theorem table_rows_counted (found_rows : list RowElement) :
  ((∃ e, get_simple_table_data strip found_rows = Raise e) ↔ found_rows = [])
  ∧ ∀ t, get_simple_table_data strip found_rows = Return t →
      length (body t) =
        match header t with
        | [] => length found_rows
        | _ :: _ => length found_rows - 1
        end.
Proof.
  destruct found_rows as [|first others].
  - split; [split; [done|intros _; by eexists]|done].
  - unfold get_simple_table_data. rewrite list_pop_reverse.
    split; [split; [by intros [e He]|done]|].
    intros t. destruct (th_texts first) as [|th ths] eqn:Hth.
    + intros [= <-]. simpl.
      rewrite length_reverse. simpl. by rewrite length_fmap, length_reverse.
    + rewrite fmap_cons. intros [= <-]. simpl.
      rewrite length_reverse, length_fmap, length_reverse. lia.
Qed.

(** X4: [get_simple_list_data] returns the stripped texts of the items in
    the reverse of the order in which [find_elements] returned them: as many
    as there are items, the first one from the last item. *)
Theorem list_data_is_reversed (found_items : list (option string)) :
  length (get_simple_list_data strip found_items) = length found_items
  ∧ ∀ i, i < length found_items →
      get_simple_list_data strip found_items !! i =
        _safe_textContent_getter strip <$> found_items !! (length found_items - S i).
Proof.
  unfold get_simple_list_data. split.
  - by rewrite length_fmap, length_reverse.
  - intros i Hi. by rewrite list_lookup_fmap, reverse_lookup.
Qed.

End TableProperties.

(** ** The warm-up of the driver queue *)

Section WarmUpProperties.
Context {Session : Type}.

#[local] Abbreviation Context_ := (DriverContext Session).

Lemma setup_driver_contexts_fills (initial_state : PyClass)
    (create : nat → PyResult Session) (order : list nat) :
  ∀ q : Queue Context_,
    length (queue q) + length order ≤ maxsize q →
    setup_driver_contexts initial_state create order q =
      Some (mkQueue (maxsize q)
              (queue q ++ omap (pooled_context initial_state create) order)
              (unfinished_tasks q
               + length (omap (pooled_context initial_state create) order))).
Proof.
  induction order as [|id order IH]; intros q Hlen.
  - simpl. rewrite app_nil_r, Nat.add_0_r. by destruct q.
  - simpl in *.
    destruct (pooled_context initial_state create id) as [c'|] eqn:Hp;
      unfold pooled_context in Hp;
      destruct (generate_driver_context initial_state id (create id)) as [c|e];
      try done; simpl.
    + injection Hp as <-.
      unfold Queue_put, Queue_full. rewrite bool_decide_eq_false_2 by lia.
      rewrite IH by (simpl; rewrite length_app; simpl; lia). simpl.
      rewrite <- app_assoc. simpl. do 2 f_equal. by rewrite Nat.add_succ_r.
    + rewrite IH by lia. done.
Qed.



End WarmUpProperties.

(** ** The worker, the collector and the drain, further *)

Section MoreProperties.
Context {InputDataT OutputDataT Session : Type}.
Context (state_run : PyClass → Session → ContextStatusSchema InputDataT OutputDataT
                     → StepEffect InputDataT OutputDataT Session).

#[local] Abbreviation Status := (ContextStatusSchema InputDataT OutputDataT).
#[local] Abbreviation Store := (list (ContextStatusSchema InputDataT OutputDataT)).
#[local] Abbreviation Context_ := (DriverContext Session).
#[local] Abbreviation Futures := (list (Future.State Session)).
#[local] Abbreviation Run_ := (Run InputDataT OutputDataT Session).

(** What a worker that holds a driver leaves when its call is over, when no
    other thread takes the driver before the call returns. *)
Lemma scrape_item_locked_result fuel (q q' : Queue Context_) (σ σ' : Store)
    (c : Context_) blank res :
  scrape_item_locked state_run fuel q σ c blank = Some (q', σ', res) →
  ∃ σ1 c1 out,
    run_until_finished state_run fuel σ (with_status (Some blank) c) = Some (σ1, c1, out)
    ∧ q' = mkQueue (maxsize q) (queue q ++ [c1]) (unfinished_tasks q)
    ∧ σ' = match out with
           | Return _ => σ1
           | Raise e =>
               if isinstance_Exception e then alter (set_error (Some e)) blank σ1
               else σ1
           end
    ∧ res = match out with
            | Return _ => Return blank
            | Raise e => if isinstance_Exception e then Return blank else Raise e
            end
    ∧ driver_id c1 = driver_id c.
Proof.
  unfold scrape_item_locked.
  destruct (scrape_item_try state_run fuel q σ c blank) as [[[[q1 σ1'] c1] tried]|] eqn:Hs;
    [|done].
  destruct (scrape_item_try_result _ _ _ _ _ _ _ _ _ _ Hs)
    as (σ1 & out & Hloop & -> & -> & -> & Hid & Hcs).
  intros Hres. exists σ1, c1, out.
  destruct out as [[]|e]; [|destruct (isinstance_Exception e)];
    rewrite ?Hcs in Hres; simpl in Hres; by injection Hres as <- <- <-.
Qed.

(** X7: what a call of [scrape_item] raises. On an empty queue it raises
    [queue.Empty] and has changed neither the queue nor a record. With a
    driver in the queue it returns the record it was given when its loop has
    ended normally or with an [Exception], which one of its handlers has
    caught; an exception that is no [Exception] ([SystemExit],
    [KeyboardInterrupt]) is caught by no handler and leaves the call, after
    the driver has been put back. So when the steps raise [Exception]s only,
    the call raises on an empty queue only. *)
Theorem scrape_item_raises_what_no_handler_catches fuel (q q' : Queue Context_)
    (σ σ' : Store) blank res :
  scrape_item state_run fuel q σ blank = Some (q', σ', res) →
  (queue q = [] → res = Raise queue_Empty ∧ q' = q ∧ σ' = σ)
  ∧ (∀ c rest, queue q = c :: rest →
       ∃ σ1 c1 out,
         run_until_finished state_run fuel σ (with_status (Some blank) c)
           = Some (σ1, c1, out)
         ∧ queue q' = rest ++ [c1]
         ∧ res = match out with
                 | Return _ => Return blank
                 | Raise e => if isinstance_Exception e then Return blank else Raise e
                 end
         ∧ (raises_only_Exception state_run → res = Return blank)).
Proof.
  unfold scrape_item, Queue_get. destruct (queue q) as [|c0 rest0] eqn:Hq.
  - intros [= <- <- <-]. by split.
  - intros Hs. split; [done|]. intros c rest [= <- <-].
    destruct (scrape_item_locked_result _ _ _ _ _ _ _ _ Hs)
      as (σ1 & c1 & out & Hloop & -> & _ & -> & _).
    exists σ1, c1, out. split; [done|]. split; [done|]. split; [done|].
    intros Hpure. destruct out as [[]|e]; [done|].
    by rewrite (run_until_finished_raises _ _ _ _ _ _ _ Hpure Hloop).
Qed.

(** X8: a call of [scrape_item] changes no record but the one it was given,
    and the number of records stays the same. *)
Theorem scrape_item_touches_only_its_record fuel (q q' : Queue Context_)
    (σ σ' : Store) blank res :
  scrape_item state_run fuel q σ blank = Some (q', σ', res) →
  length σ' = length σ ∧ ∀ j, j ≠ blank → σ' !! j = σ !! j.
Proof.
  unfold scrape_item. destruct (Queue_get 60 q) as [c q1|w].
  - intros Hs.
    destruct (scrape_item_locked_result _ _ _ _ _ _ _ _ Hs)
      as (σ1 & c1 & out & Hloop & _ & -> & _ & _).
    destruct (run_until_finished_context _ _ _ _ _ _ _ Hloop) as (_ & _ & Hlen).
    split.
    + destruct out as [[]|e]; [|destruct (isinstance_Exception e)];
        rewrite ?length_alter; done.
    + intros j Hj.
      assert (σ1 !! j = σ !! j) as Hσ1.
      { eapply run_until_finished_other_records; [done|]. simpl. congruence. }
      destruct out as [[]|e]; [done|]. destruct (isinstance_Exception e); [|done].
      by rewrite list_lookup_alter_ne.
  - by intros [= _ <- _].
Qed.

Lemma cancel_futures_idemp (fs : Futures) :
  cancel_futures (cancel_futures fs) = cancel_futures fs.
Proof.
  unfold cancel_futures. rewrite <- list_fmap_compose.
  apply list_fmap_ext. intros _ f _. by destruct f.
Qed.

(** The collector's loop over futures that are ready, followed by the rest of
    its loop. *)
Lemma process_completed_tasks_app (pre : list nat) :
  ∀ (σ : Store) (fs : Futures) sink,
    Forall (collectable fs) pre →
    ∃ σ1 fs1,
      (fs1 = fs ∨ fs1 = cancel_futures fs)
      ∧ ∀ rest, process_completed_tasks (pre ++ rest) σ fs sink
                = process_completed_tasks rest σ1 fs1 (sink ++ pre).
Proof.
  induction pre as [|i pre IH]; intros σ fs sink Hall.
  - exists σ, fs. split; [by left|]. intros rest. by rewrite app_nil_r.
  - apply Forall_cons in Hall as [(f & Hf & Hready & Hres) Hall].
    destruct (process_completed_future_ready σ fs i f Hf Hready Hres)
      as (σ' & fs' & Hp).
    destruct (process_completed_future_shape _ _ _ _ _ _ Hp) as (_ & Hfs').
    destruct (IH σ' fs' (sink ++ [i])) as (σ1 & fs1 & Hfs1 & Hloop).
    { destruct Hfs' as [-> | ->]; [done|].
      eapply Forall_impl; [done|]. apply collectable_cancel_futures. }
    exists σ1, fs1. split.
    + destruct Hfs' as [-> | ->]; [done|]. right.
      destruct Hfs1 as [-> | ->]; [done|apply cancel_futures_idemp].
    + intros rest. simpl. rewrite Hp, Hloop. by rewrite <- app_assoc.
Qed.

(** X9: when a future holds an exception other than [CancelledError], the
    loop of [process_completed_tasks] ends with that exception as soon as the
    future is yielded: the records of the futures yielded before have been
    passed on, the record of this future and the records of all the futures
    that would have been yielded after it are not. *)
Theorem collector_stops_at_the_first_exception (pre post : list nat) i e
    (σ : Store) (fs : Futures) sink :
  Forall (collectable fs) pre →
  fs !! i = Some (Future.FINISHED (Raise e)) →
  isinstance_CancelledError e = false →
  ∃ σ' fs', process_completed_tasks (pre ++ i :: post) σ fs sink
            = Some (σ', fs', sink ++ pre, Raise e).
Proof.
  intros Hpre Hi He.
  destruct (process_completed_tasks_app pre σ fs sink Hpre) as (σ1 & fs1 & Hfs1 & ->).
  assert (fs1 !! i = Some (Future.FINISHED (Raise e))) as Hi1.
  { destruct Hfs1 as [-> | ->]; [done|]. by rewrite cancel_futures_lookup, Hi. }
  exists σ1, fs1. simpl. unfold process_completed_future. rewrite Hi1. simpl.
  by rewrite He.
Qed.

Lemma set_status_set_status a b (cs : Status) :
  set_status a (set_status b cs) = set_status a cs.
Proof. done. Qed.

Lemma marked_failed_trans (cs cs1 cs2 : Status) :
  marked_failed cs cs1 → marked_failed cs1 cs2 → marked_failed cs cs2.
Proof.
  unfold marked_failed.
  intros [->|[->| ->]] [->|[->| ->]]; rewrite ?set_status_set_status; auto.
Qed.

Lemma alter_marked_failed (σ : Store) r s j cs' :
  s = FAILED ∨ s = CRITICAL →
  alter (set_status s) r σ !! j = Some cs' →
  ∃ cs, σ !! j = Some cs ∧ marked_failed cs cs'.
Proof.
  intros Hs. destruct (decide (j = r)) as [->|Hne].
  - rewrite list_lookup_alter_eq. destruct (σ !! r) as [cs|]; [|done].
    intros [= <-]. exists cs. split; [done|]. unfold marked_failed.
    destruct Hs as [-> | ->]; auto.
  - rewrite list_lookup_alter_ne by done. intros H. exists cs'.
    split; [done|by left].
Qed.

(** X10: when every future has finished by returning a record, as after the
    join of the workers at the end of [create_and_submit_tasks], the loop of
    [process_completed_tasks] changes no future: the [cancel] calls that a
    CRITICAL record triggers find nothing to cancel. Every record is then as
    it was or has had its status set to FAILED or CRITICAL; none is set to
    CANCELLED. *)
Theorem collector_after_join_cancels_nothing (order : list nat) :
  ∀ (σ σ' : Store) (fs fs' : Futures) sink sink' res,
    Forall (λ f, ∃ r, f = Future.FINISHED (Return r)) fs →
    process_completed_tasks order σ fs sink = Some (σ', fs', sink', res) →
    fs' = fs
    ∧ res = Return ()
    ∧ length sink' = length sink + length order
    ∧ ∀ j cs', σ' !! j = Some cs' → ∃ cs, σ !! j = Some cs ∧ marked_failed cs cs'.
Proof.
  induction order as [|i order IH]; intros σ σ' fs fs' sink sink' res Hall.
  - simpl. intros [= <- <- <- <-]. split; [done|]. split; [done|].
    split; [lia|]. intros j cs' Hj. exists cs'. split; [done|by left].
  - simpl. destruct (process_completed_future σ fs i) as [[[σ1 fs1] res1]|] eqn:Hp;
      [|done].
    assert (fs1 = fs ∧ (∃ r, res1 = Return r)
            ∧ ∀ j cs1, σ1 !! j = Some cs1 → ∃ cs, σ !! j = Some cs ∧ marked_failed cs cs1)
      as (-> & [r ->] & Hσ1).
    { unfold process_completed_future in Hp.
      destruct (fs !! i) as [f|] eqn:Hi; [|done].
      rewrite Forall_forall in Hall.
      destruct (Hall f) as [r ->]; [by eapply list_elem_of_lookup_2|].
      simpl in Hp.
      assert (cancel_futures fs = fs) as Hjoin.
      { apply cancel_futures_joined, Forall_forall. intros g Hg.
        destruct (Hall g Hg) as [r' ->]. by eexists. }
      destruct (error <$> σ !! r) as [[e|]|];
        [|injection Hp as <- <- <-; split; [done|]; split; [by eexists|];
          intros j cs1 Hj; exists cs1; split; [done|by left]..].
      destruct (isinstance_WebScrapperException e);
        [|destruct (isinstance_Exception e)]; simpl in Hp;
        injection Hp as <- <- <-; rewrite ?Hjoin;
        (split; [done|]; split; [by eexists|]);
        intros j cs1; [apply alter_marked_failed; auto..|].
      intros Hj. exists cs1. split; [done|by left]. }
    intros Hloop. destruct (IH _ _ _ _ _ _ _ Hall Hloop) as (-> & -> & Hlen & Hσ').
    split; [done|]. split; [done|]. split.
    + rewrite Hlen, length_app. simpl. lia.
    + intros j cs' Hj. destruct (Hσ' j cs' Hj) as (cs1 & Hj1 & Hm1).
      destruct (Hσ1 j cs1 Hj1) as (cs & Hj0 & Hm0).
      exists cs. split; [done|]. by eapply marked_failed_trans.
Qed.

(** The loop of [clear_driver_queue]: it takes drivers from the front of the
    queue, quits each, and waits at most once. *)
Lemma clear_from_takes_a_prefix num : ∀ todo idx (q : Queue Context_)
    (done_ : list Context_) warned w,
  let d := clear_from num todo idx (mkDrained q done_ warned w None) in
  (waited d = w ∨ (waited d = w + 1000 ∧ queue (drained_queue d) = []))
  ∧ ∃ taken, cleared d = done_ ++ (clear_context <$> taken)
             ∧ queue q = taken ++ queue (drained_queue d)
             ∧ length taken ≤ todo.
Proof.
  induction todo as [|todo IH]; intros idx q done_ warned w; simpl.
  - split; [by left|]. exists []. simpl. by rewrite app_nil_r.
  - unfold _clear_driver_context, Queue_get.
    destruct (queue q) as [|c rest] eqn:Hq; simpl.
    + split; [by right|]. exists []. simpl. rewrite app_nil_r, Hq.
      split; [done|]. split; [done|lia].
    + unfold Queue_task_done. simpl.
      destruct (unfinished_tasks q) as [|u]; simpl.
      * split; [by left|]. exists [c]. simpl. split; [done|]. split; [done|lia].
      * destruct (IH (S idx) (mkQueue (maxsize q) rest u) (done_ ++ [clear_context c])
                    None w) as (Hw & taken & Hcl & Hrest & Hlen).
        simpl in *. split; [done|]. exists (c :: taken). simpl.
        rewrite Hcl, <- app_assoc. simpl.
        split; [done|]. split; [by rewrite <- Hrest|lia].
Qed.

(** X11: [clear_driver_queue] takes drivers from the front of the queue only
    and quits each driver it takes: the drivers it has quit, followed by those
    it has left in the queue, are the drivers the queue held, in their
    order. It quits at most [threads_num] drivers, and it waits at most one
    timeout of 1000, which happens only when it has emptied the queue. *)
Theorem drain_quits_the_drivers_it_takes (opts : WebscrapperOptionsSchema)
    (q : Queue Context_) :
  Forall (λ c, quit_called c = true) (cleared (clear_driver_queue opts q))
  ∧ (driver_id <$> cleared (clear_driver_queue opts q))
      ++ (driver_id <$> queue (drained_queue (clear_driver_queue opts q)))
    = driver_id <$> queue q
  ∧ length (cleared (clear_driver_queue opts q)) ≤ threads_num opts
  ∧ (waited (clear_driver_queue opts q) = 0
     ∨ (waited (clear_driver_queue opts q) = 1000
        ∧ queue (drained_queue (clear_driver_queue opts q)) = [])).
Proof.
  unfold clear_driver_queue.
  destruct (clear_from_takes_a_prefix (threads_num opts) (threads_num opts) 0 q [] None 0)
    as (Hw & taken & Hcl & Hq & Hlen).
  simpl in *. rewrite Hcl, Hq. split; [|split; [|split]].
  - apply Forall_fmap, Forall_forall. done.
  - rewrite fmap_app. f_equal. rewrite <- list_fmap_compose.
    by apply list_fmap_ext.
  - by rewrite length_fmap.
  - done.
Qed.

(** X20: a driver keeps its state from one task to the next. [scrape_item]
    binds the record to the driver it takes and runs the loop from the state
    the driver has; [set_state(initial_state)] is called by the warm-up only.
    So with one driver in the queue, the loop of a second call starts in the
    context in which the loop of the first call has ended, with the state
    that its last step installed and the webdriver as it left it. *)
Theorem driver_keeps_its_state_between_tasks fuel1 fuel2 (q q1 q2 : Queue Context_)
    (σ σ1 σ2 : Store) (c : Context_) b1 b2 r1 r2 :
  queue q = [c] →
  scrape_item state_run fuel1 q σ b1 = Some (q1, σ1, r1) →
  scrape_item state_run fuel2 q1 σ1 b2 = Some (q2, σ2, r2) →
  ∃ σ1' c1 out1 σ2' c2 out2,
    run_until_finished state_run fuel1 σ (with_status (Some b1) c)
      = Some (σ1', c1, out1)
    ∧ queue q1 = [c1]
    ∧ run_until_finished state_run fuel2 σ1 (with_status (Some b2) c1)
      = Some (σ2', c2, out2)
    ∧ state (with_status (Some b2) c1) = state c1
    ∧ driver (with_status (Some b2) c1) = driver c1
    ∧ queue q2 = [c2].
Proof.
  intros Hq H1 H2. unfold scrape_item, Queue_get in H1. rewrite Hq in H1.
  destruct (scrape_item_locked_result _ _ _ _ _ _ _ _ H1)
    as (σ1' & c1 & out1 & Hloop1 & -> & _ & _ & _).
  simpl in H2. unfold scrape_item, Queue_get in H2. simpl in H2.
  destruct (scrape_item_locked_result _ _ _ _ _ _ _ _ H2)
    as (σ2' & c2 & out2 & Hloop2 & -> & _ & _ & _).
  by exists σ1', c1, out1, σ2', c2, out2.
Qed.

End MoreProperties.

(** ** Runs: who holds the drivers, and what becomes of the records *)

Section RunProperties.
Context {InputDataT OutputDataT Session : Type}.
Context (state_run : PyClass → Session → ContextStatusSchema InputDataT OutputDataT
                     → StepEffect InputDataT OutputDataT Session).

#[local] Abbreviation Status := (ContextStatusSchema InputDataT OutputDataT).
#[local] Abbreviation Store := (list (ContextStatusSchema InputDataT OutputDataT)).
#[local] Abbreviation Context_ := (DriverContext Session).
#[local] Abbreviation Futures := (list (Future.State Session)).
#[local] Abbreviation Run_ := (Run InputDataT OutputDataT Session).

Lemma omap_cons {A B} (g : A → option B) a l :
  omap g (a :: l) = match g a with Some b => b :: omap g l | None => omap g l end.
Proof. done. Qed.

Lemma omap_insert_perm {A B} (g : A → option B) (l : list A) : ∀ i x y,
  l !! i = Some y →
  omap g (<[i := x]> l) ++ option_list (g y) ≡ₚ omap g l ++ option_list (g x).
Proof.
  induction l as [|a l IH]; intros [|i] x y; try done.
  - intros [= ->]. change (<[0 := x]> (y :: l)) with (x :: l).
    rewrite !omap_cons.
    destruct (g x) as [bx|], (g y) as [by_|]; simpl; rewrite ?app_nil_r; try done.
    + rewrite <- !Permutation_cons_append. apply Permutation_swap.
    + by rewrite <- Permutation_cons_append.
    + by rewrite <- Permutation_cons_append.
  - intros H. change (<[S i := x]> (a :: l)) with (a :: <[i := x]> l).
    rewrite !omap_cons.
    specialize (IH i x y H). destruct (g a); simpl; [by f_equiv|done].
Qed.

Lemma omap_nodup_lookup {A B} (g : A → option B) (l : list A) : ∀ i j a b x y,
  NoDup (omap g l) → i ≠ j → l !! i = Some a → l !! j = Some b →
  g a = Some x → g b = Some y → x ≠ y.
Proof.
  induction l as [|h t IH]; intros [|i] [|j] a b x y Hnd Hij Hi Hj Ha Hb; try done;
    simpl in Hi, Hj; rewrite omap_cons in Hnd.
  - injection Hi as ->.
    rewrite Ha in Hnd. apply NoDup_cons in Hnd as [Hx _].
    intros ->. apply Hx. apply list_elem_of_omap. exists b. split; [|done].
    by eapply list_elem_of_lookup_2.
  - injection Hj as ->.
    rewrite Hb in Hnd. apply NoDup_cons in Hnd as [Hy _].
    intros <-. apply Hy. apply list_elem_of_omap. exists a. split; [|done].
    by eapply list_elem_of_lookup_2.
  - eapply (IH i j a b); try done; [|congruence].
    destruct (g h); [by apply NoDup_cons in Hnd as [_ ?]|done].
Qed.

Lemma held_ids_cancel_futures (fs : Futures) :
  held_ids (cancel_futures fs) = held_ids fs.
Proof.
  unfold held_ids, cancel_futures. induction fs as [|f fs IH]; [done|].
  rewrite fmap_cons, !omap_cons, IH. by destruct f as [|[?|]| | | |].
Qed.

(** The drivers of a state: those in the queue and those the workers hold. *)
Lemma step_drivers K (s s' : Run_) l :
  step state_run K s l s' →
  (driver_id <$> queue (driver_queue s')) ++ held_ids (futures s')
  ≡ₚ (driver_id <$> queue (driver_queue s)) ++ held_ids (futures s).
Proof.
  intros Hstep. step_cases Hstep; simpl; [unfold held_ids..| |].
  - pose proof (omap_insert_perm held_driver fs i (Future.RUNNING None) _ Hi) as H.
    simpl in H. rewrite !app_nil_r in H. by rewrite H.
  - pose proof (omap_insert_perm held_driver fs i Future.CANCELLED_AND_NOTIFIED _ Hi) as H.
    simpl in H. rewrite !app_nil_r in H. by rewrite H.
  - pose proof (omap_insert_perm held_driver fs i (Future.RUNNING (Some c)) _ Hi) as H.
    simpl in H. rewrite app_nil_r in H. rewrite H.
    unfold Queue_get in Hget. destruct (queue q) as [|c0 rest] eqn:Hq; [done|].
    injection Hget as <- <-. simpl.
    rewrite <- Permutation_cons_append. by rewrite Permutation_middle.
  - pose proof (omap_insert_perm held_driver fs i
                  (Future.FINISHED (Raise queue_Empty)) _ Hi) as H.
    simpl in H. rewrite !app_nil_r in H. by rewrite H.
  - destruct (scrape_item_try_result _ _ _ _ _ _ _ _ _ _ Htry)
      as (σ1 & out & _ & -> & _ & _ & Hid & _).
    pose proof (omap_insert_perm held_driver fs i
                  (Future.RETURNING (driver_id c')) _ Hi) as H.
    simpl in H. rewrite app_nil_r in H. rewrite <- H. simpl.
    rewrite fmap_app, <- app_assoc. simpl. rewrite Hid.
    f_equiv. by rewrite <- Permutation_cons_append.
  - destruct (scrape_item_try_result _ _ _ _ _ _ _ _ _ _ Htry)
      as (σ1 & out & _ & -> & _ & _ & Hid & _).
    pose proof (omap_insert_perm held_driver fs i (Future.FINISHED (Raise e)) _ Hi) as H.
    simpl in H. rewrite app_nil_r in H. rewrite <- H. simpl.
    rewrite fmap_app, <- app_assoc. simpl. rewrite Hid.
    f_equiv. by rewrite <- Permutation_cons_append.
  - pose proof (omap_insert_perm held_driver fs i
                  (Future.FINISHED (returned_status (b !! d))) _ Hi) as H.
    simpl in H. rewrite !app_nil_r in H. by rewrite H.
  - destruct (process_completed_future_shape _ _ _ _ _ _ Hp) as [_ [-> | ->]];
      [done|]. by rewrite (held_ids_cancel_futures fs).
  - destruct (process_completed_future_shape _ _ _ _ _ _ Hp) as [_ [-> | ->]];
      [done|]. by rewrite (held_ids_cancel_futures fs).
Qed.

Lemma held_ids_replicate_PENDING n :
  held_ids (replicate n (Future.PENDING : Future.State Session)) = [].
Proof. induction n as [|n IH]; [done|]. exact IH. Qed.

Lemma steps_drivers K (s s' : Run_) ls :
  steps state_run K s ls s' →
  (driver_id <$> queue (driver_queue s')) ++ held_ids (futures s')
  ≡ₚ (driver_id <$> queue (driver_queue s)) ++ held_ids (futures s).
Proof.
  induction 1 as [s|s1 l s2 ls s3 Hstep _ IH]; [done|].
  by rewrite IH, (step_drivers _ _ _ _ Hstep).
Qed.

Lemma drivers_are_owned (opts : WebscrapperOptionsSchema) (σ : Store)
    (drivers : list Context_) K ls (s : Run_) :
  steps state_run K (initial_run opts σ drivers) ls s →
  (driver_id <$> queue (driver_queue s)) ++ held_ids (futures s)
    ≡ₚ (driver_id <$> drivers)
  ∧ length (queue (driver_queue s)) + length (held_ids (futures s)) = length drivers.
Proof.
  intros Hsteps. pose proof (steps_drivers _ _ _ _ Hsteps) as Hperm.
  simpl in Hperm. rewrite held_ids_replicate_PENDING, app_nil_r in Hperm.
  split; [done|]. apply Permutation_length in Hperm.
  by rewrite length_app, !length_fmap in Hperm.
Qed.

(** X12: at every moment of a run each driver of the pool is in one place:
    in the queue, or in the hands of one worker. Whatever the schedule, the
    drivers in the queue and the drivers the workers hold are the drivers the
    warm-up has put into the queue; so no more workers hold a driver than
    there are drivers and, the drivers being distinct, no two workers hold the
    same one and none holds one that is in the queue. *)
Theorem drivers_are_held_exclusively (opts : WebscrapperOptionsSchema) (σ : Store)
    (drivers : list Context_) K ls (s : Run_) :
  steps state_run K (initial_run opts σ drivers) ls s →
  (driver_id <$> queue (driver_queue s)) ++ held_ids (futures s)
    ≡ₚ (driver_id <$> drivers)
  ∧ length (queue (driver_queue s)) + length (held_ids (futures s)) = length drivers
  ∧ (NoDup (driver_id <$> drivers) →
     ∀ i c, futures s !! i = Some (Future.RUNNING (Some c)) →
       (driver_id c ∉ (driver_id <$> queue (driver_queue s)))
       ∧ ∀ j c', j ≠ i → futures s !! j = Some (Future.RUNNING (Some c')) →
           driver_id c' ≠ driver_id c).
Proof.
  intros Hsteps. destruct (drivers_are_owned _ _ _ _ _ _ Hsteps) as [Hperm Hlen].
  split; [done|]. split; [done|].
  intros Hnd i c Hi. rewrite <- Hperm in Hnd.
  apply NoDup_app in Hnd as (_ & Hdisj & Hheld). split.
  - intros Hin. apply (Hdisj _ Hin). apply list_elem_of_omap.
    exists (Future.RUNNING (Some c)). split; [|done].
    by eapply list_elem_of_lookup_2.
  - intros j c' Hji Hj.
    by eapply (omap_nodup_lookup held_driver (futures s) j i _ _ _ _ Hheld Hji Hj Hi).
Qed.

(** X21: [cancel_futures] cancels the pending futures and nothing else: a
    future that is running, has finished or was cancelled before stays as it
    is, so a task that is being executed is not stopped and no driver changes
    hands; afterwards no future is pending, and a second call changes
    nothing. *)
Theorem cancel_futures_spares_what_has_started (fs : Futures) :
  length (cancel_futures fs) = length fs
  ∧ (∀ i f, fs !! i = Some f → f ≠ Future.PENDING → cancel_futures fs !! i = Some f)
  ∧ (∀ i, fs !! i = Some Future.PENDING → cancel_futures fs !! i = Some Future.CANCELLED)
  ∧ (∀ i, cancel_futures fs !! i ≠ Some Future.PENDING)
  ∧ running (cancel_futures fs) = running fs
  ∧ held_ids (cancel_futures fs) = held_ids fs
  ∧ cancel_futures (cancel_futures fs) = cancel_futures fs.
Proof.
  split; [apply length_fmap|]. split.
  { intros i f Hi Hf. rewrite cancel_futures_lookup, Hi. simpl. by destruct f. }
  split.
  { intros i Hi. by rewrite cancel_futures_lookup, Hi. }
  split.
  { intros i. rewrite cancel_futures_lookup. destruct (fs !! i) as [[]|]; done. }
  split.
  { rewrite !running_count. unfold cancel_futures. apply count_fmap.
    intros f. by destruct f. }
  split; [|apply cancel_futures_idemp].
  apply held_ids_cancel_futures.
Qed.

(** *** What becomes of the records *)

Lemma Terminal_collector_status s :
  s ∈ [FAILED; CRITICAL; CANCELLED] → s ∈ Terminal.
Proof. intros H. unfold Terminal. apply elem_of_cons. by right. Qed.

Lemma left_by_worker_rewrite (cs cs' : Status) :
  collector_rewrite cs cs' → left_by_worker cs → left_by_worker cs'.
Proof.
  intros [-> | (s & Hs & ->)] H; [done|]. left. by apply Terminal_collector_status.
Qed.

Lemma Terminal_rewrite (cs cs' : Status) :
  collector_rewrite cs cs' → status cs ∈ Terminal → status cs' ∈ Terminal.
Proof.
  intros [-> | (s & Hs & ->)] H; [done|]. by apply Terminal_collector_status.
Qed.

Lemma set_status_same s (cs : Status) : status cs = s → set_status s cs = cs.
Proof. intros <-. by destruct cs. Qed.

Lemma CancelledError_is_Exception e :
  isinstance_Exception e = false → isinstance_CancelledError e = false.
Proof. by destruct e. Qed.

(** The collector on a future that has returned the record [r]: it passes
    [r] on, rewrites no other record, and leaves [r] settled; a record that
    was settled stays as it is, and a record that a worker has left gets a
    terminal status. *)
Lemma process_completed_future_returned (σ σ' : Store) (fs fs' : Futures)
    i r cs out :
  fs !! i = Some (Future.FINISHED (Return r)) → σ !! r = Some cs →
  process_completed_future σ fs i = Some (σ', fs', out) →
  out = Return r
  ∧ (∀ k, k ≠ r → σ' !! k = σ !! k)
  ∧ ∃ cs', σ' !! r = Some cs' ∧ settled cs' ∧ (settled cs → cs' = cs)
           ∧ (left_by_worker cs → status cs' ∈ Terminal).
Proof.
  intros Hi Hr. unfold process_completed_future. rewrite Hi. simpl.
  rewrite Hr. simpl.
  destruct (error cs) as [e|] eqn:He.
  - destruct (isinstance_WebScrapperException e) eqn:Hws;
      [|destruct (isinstance_Exception e) eqn:Hex].
    + intros [= <- _ <-]. split; [done|].
      split; [intros k Hk; by rewrite list_lookup_alter_ne|].
      rewrite list_lookup_alter_eq, Hr. simpl. eexists. split; [done|].
      split; [|split].
      * intros e' He'. simpl in He'. rewrite He in He'. injection He' as <-.
        by rewrite Hws.
      * intros Hs. apply set_status_same. by apply (Hs e He).
      * intros _. simpl. apply elem_of_cons; right. by apply elem_of_cons; left.
    + intros [= <- _ <-]. split; [done|].
      split; [intros k Hk; by rewrite list_lookup_alter_ne|].
      rewrite list_lookup_alter_eq, Hr. simpl. eexists. split; [done|].
      split; [|split].
      * intros e' He'. simpl in He'. rewrite He in He'. injection He' as <-.
        by rewrite Hws.
      * intros Hs. apply set_status_same. by apply (Hs e He).
      * intros _. simpl. do 2 (apply elem_of_cons; right). by apply elem_of_cons; left.
    + intros [= <- _ <-]. split; [done|]. split; [done|].
      exists cs. split; [done|]. split; [|split; [done|]].
      * intros e' He'. rewrite He in He'. injection He' as <-. split; congruence.
      * intros [Ht|(e' & He' & Hex')]; [done|]. congruence.
  - intros [= <- _ <-]. split; [done|]. split; [done|].
    exists cs. split; [done|]. split; [|split; [done|]].
    + intros e' He'. congruence.
    + intros [Ht|(e' & He' & _)]; [done|congruence].
Qed.

(** A call that leaves its [try] by returning leaves its record terminal,
    or with the exception that ended its loop; it touches no other record. *)
Lemma scrape_item_try_record fuel (q q' : Queue Context_) (σ σ' : Store)
    (c c' : Context_) blank res :
  blank < length σ →
  scrape_item_try state_run fuel q σ c blank = Some (q', σ', c', res) →
  (res = Return () → ∃ cs, σ' !! blank = Some cs ∧ left_by_worker cs)
  ∧ (∀ j, j ≠ blank → σ' !! j = σ !! j).
Proof.
  intros Hlt Hs.
  destruct (scrape_item_try_result _ _ _ _ _ _ _ _ _ _ Hs)
    as (σ1 & out & Hloop & _ & -> & -> & _ & Hcs).
  destruct (run_until_finished_context _ _ _ _ _ _ _ Hloop) as (_ & _ & Hlen).
  split.
  - intros Hres. destruct out as [[]|e].
    + apply run_until_finished_sound in Hloop.
      2:{ unfold status_of. simpl. by apply lookup_lt_is_Some. }
      destruct (spec_execution_returns_terminal _ _ _ _ _ Hloop) as (cs & Hcs' & Ht).
      unfold status_of in Hcs'. rewrite Hcs in Hcs'. simpl in Hcs'.
      exists cs. split; [done|by left].
    + destruct (isinstance_Exception e) eqn:Hex; [|done].
      destruct (lookup_lt_is_Some_2 σ1 blank) as [cs1 Hcs1]; [lia|].
      exists (set_error (Some e) cs1). rewrite list_lookup_alter_eq, Hcs1.
      split; [done|]. right. by exists e.
  - intros j Hj.
    assert (σ1 !! j = σ !! j) as <-.
    { eapply run_until_finished_other_records; [exact Hloop|]. simpl. congruence. }
    destruct out as [[]|e]; [done|]. destruct (isinstance_Exception e); [|done].
    by rewrite list_lookup_alter_ne.
Qed.

(** A worker thread takes a step only while the executor is not joined. *)
Lemma worker_step_not_joined K (s s' : Run_) l :
  step state_run K s l s' → is_worker_step l = true → ¬ joined s.
Proof.
  intros Hstep Hl Hjoined.
  destruct (step_worker_inv _ _ _ _ _ Hstep Hl) as (_ & _ & _ & i & f & g & Hi & _ & Hlt).
  pose proof (Forall_lookup_1 _ _ _ _ Hjoined Hi) as Hr.
  destruct f as [|[?|]| | | |]; simpl in *; try done; lia.
Qed.

(** The collector has passed on a record only after the join. *)
Lemma handed_joined K N (s : Run_) r :
  invariant K N s → records_invariant s → r ∈ status_contexts s → joined s.
Proof.
  intros Hinv Hrec Hr. apply (rec_joined _ Hrec). intros Hy.
  pose proof (inv_sink_length _ _ _ Hinv) as Hl. rewrite Hy in Hl.
  destruct (status_contexts s); [by apply elem_of_nil in Hr|simpl in Hl; lia].
Qed.

(** The future that the collector takes has finished. *)
Lemma collected_future_finished K N (s s' : Run_) j :
  invariant K N s → step state_run K s (Collect j) s' →
  ∃ res, futures s !! j = Some (Future.FINISHED res)
         ∧ match res with
           | Return r => r < length (scraping_contexts s)
           | Raise e => isinstance_CancelledError e = false
           end.
Proof.
  intros Hinv Hstep.
  destruct (step_Collect_inv _ _ _ _ _ Hstep) as (Hj & _ & _ & Hlt & _).
  destruct (lookup_lt_is_Some_2 _ _ Hlt) as [f Hf].
  pose proof (Forall_lookup_1 _ _ _ _ Hj Hf) as Hready.
  destruct f as [|?|?| | |res]; try done.
  { destruct (inv_no_cancel _ _ _ Hinv j _ Hf). by right. }
  exists res. split; [done|]. destruct res as [r|e].
  - rewrite (inv_contexts _ _ _ Hinv). by eapply (inv_returned _ _ _ Hinv).
  - apply CancelledError_is_Exception. by eapply (inv_raised _ _ _ Hinv).
Qed.

Lemma step_records K N (s s' : Run_) l :
  invariant K N s → records_invariant s → step state_run K s l s' →
  records_invariant s'.
Proof.
  intros Hinv Hrec Hstep. pose proof Hrec as [Hrj Hrh].
  destruct (step_label _ _ _ _ _ Hstep) as [Hl|[j ->]].
  - pose proof (worker_step_not_joined _ _ _ _ Hstep Hl) as Hnj.
    destruct (step_worker_inv _ _ _ _ _ Hstep Hl) as (Hs & Hy & _).
    split.
    + rewrite Hy. intros Hne. destruct Hnj. by apply Hrj.
    + rewrite Hs. intros r Hr. destruct Hnj. by eapply handed_joined.
  - destruct (collected_future_finished _ _ _ _ _ Hinv Hstep) as (fres & Hf & Hres).
    destruct (step_Collect_inv _ _ _ _ _ Hstep)
      as (Hj & _ & _ & Hlt & Hfs & _ & _ & Hy & res & Hp & Hs & _).
    split.
    + intros _. unfold joined. by rewrite Hfs.
    + pose proof (process_completed_future_finished _ _ _ _ _ _ _ Hf Hp) as Hout.
      destruct fres as [r|e].
      * destruct (lookup_lt_is_Some_2 _ _ Hres) as [cs Hcs].
        destruct (process_completed_future_returned _ _ _ _ _ _ _ _ Hf Hcs Hp)
          as (-> & Hother & cs' & Hcs' & Hset & Hsame & _).
        rewrite Hs. intros r0 [Hr0| ->%list_elem_of_singleton]%elem_of_app;
          [|by exists cs'].
        destruct (decide (r0 = r)) as [->|Hne]; [by exists cs'|].
        rewrite Hother by done. by apply Hrh.
      * rewrite Hres in Hout. destruct Hout as (-> & Hσ & _).
        rewrite Hs, Hσ. exact Hrh.
Qed.

Lemma initial_run_records opts (σ : Store) (drivers : list Context_) :
  records_invariant (initial_run opts σ drivers).
Proof.
  split; simpl; [done|]. intros i H. by apply elem_of_nil in H.
Qed.

Lemma steps_records K N (s s' : Run_) ls :
  invariant K N s → records_invariant s → steps state_run K s ls s' →
  records_invariant s'.
Proof.
  intros Hinv Hrec Hsteps. induction Hsteps as [s|s1 l s2 ls s3 Hstep _ IH]; [done|].
  apply IH; [by eapply step_invariant|by eapply step_records].
Qed.

Lemma step_handled K N (s s' : Run_) l :
  raises_only_Exception state_run →
  invariant K N s → records_invariant s → handled_invariant s →
  step state_run K s l s' → handled_invariant s'.
Proof.
  intros Hpure Hinv Hrec [Hret Hfin Hhand] Hstep.
  assert (Hnone : is_worker_step l = true → status_contexts s = []).
  { intros Hl. destruct (status_contexts s) as [|r sink0] eqn:Hsink; [done|].
    destruct (worker_step_not_joined _ _ _ _ Hstep Hl).
    eapply (handed_joined _ _ _ r); [done..|]. rewrite Hsink. by left. }
  destruct (step_label _ _ _ _ _ Hstep) as [Hl|[j ->]].
  - specialize (Hnone Hl).
    assert (Hlen : ∀ k f, futures s !! k = Some f → k < length (scraping_contexts s)).
    { intros k f Hk. rewrite (inv_contexts _ _ _ Hinv), <- (inv_futures _ _ _ Hinv).
      by eapply lookup_lt_Some. }
    pose proof (inv_returning _ _ _ Hinv) as Hreturning.
    step_cases Hstep; simpl in *; try done.
    + split; simpl; [| |subst sink; intros r0 Hr0; by apply elem_of_nil in Hr0].
      * intros j e0 Hj.
        apply list_lookup_insert_Some in Hj as [(_ & ? & _)|(_ & Hj)]; [done|].
        by eapply Hret.
      * intros j f Hj Hleft.
        apply list_lookup_insert_Some in Hj as [(_ & <- & _)|(_ & Hj)]; [done|].
        by eapply Hfin.
    + destruct (inv_no_cancel _ _ _ Hinv i _ Hi). by left.
    + split; simpl; [| |subst sink; intros r0 Hr0; by apply elem_of_nil in Hr0].
      * intros j e0 Hj.
        apply list_lookup_insert_Some in Hj as [(_ & ? & _)|(_ & Hj)]; [done|].
        by eapply Hret.
      * intros j f Hj Hleft.
        apply list_lookup_insert_Some in Hj as [(_ & <- & _)|(_ & Hj)]; [done|].
        by eapply Hfin.
    + pose proof (waiting_worker_finds_driver _ _ _ i Hinv Hi) as Hpos. simpl in Hpos.
      unfold Queue_get in Hget. destruct (queue q); [simpl in Hpos; lia|done].
    + destruct (scrape_item_try_record _ _ _ _ _ _ _ _ _ (Hlen i _ Hi) Htry)
        as [Hown Hother].
      split; simpl; [| |subst sink; intros r0 Hr0; by apply elem_of_nil in Hr0].
      * intros j e0 Hj.
        apply list_lookup_insert_Some in Hj as [(_ & ? & _)|(_ & Hj)]; [done|].
        by eapply Hret.
      * intros j f Hj Hleft.
        apply list_lookup_insert_Some in Hj as [(-> & <- & _)|(Hne & Hj)];
          [by apply Hown|].
        rewrite Hother by done. by eapply Hfin.
    + destruct (scrape_item_try_result _ _ _ _ _ _ _ _ _ _ Htry)
        as (σ1 & out & Hloop & _ & _ & Hres & _).
      destruct out as [[]|e0]; [done|].
      by rewrite (run_until_finished_raises _ _ _ _ _ _ _ Hpure Hloop) in Hres.
    + destruct (Hreturning i d Hi) as [r Hr]. rewrite Hr. simpl.
      split; simpl; [| |subst sink; intros r0 Hr0; by apply elem_of_nil in Hr0].
      * intros j e0 Hj.
        apply list_lookup_insert_Some in Hj as [(_ & ? & _)|(_ & Hj)]; [done|].
        by eapply Hret.
      * intros j f Hj Hleft.
        apply list_lookup_insert_Some in Hj as [(-> & <- & _)|(Hne & Hj)];
          [by eapply Hfin|by eapply Hfin].
  - destruct (collected_future_finished _ _ _ _ _ Hinv Hstep) as (fres & Hf & Hres).
    destruct (step_Collect_inv _ _ _ _ _ Hstep)
      as (Hj & _ & _ & Hlt & Hfs & _ & _ & Hy & res & Hp & Hs & _).
    destruct fres as [r|e]; [|by destruct (Hret j e)].
    destruct (lookup_lt_is_Some_2 _ _ Hres) as [cs Hcs].
    destruct (process_completed_future_returned _ _ _ _ _ _ _ _ Hf Hcs Hp)
      as (-> & Hother & cs' & Hcs' & _ & _ & Hterm).
    destruct (process_completed_future_shape _ _ _ _ _ _ Hp) as [Hlen _].
    assert (Hleft : left_by_worker cs).
    { rewrite (inv_contexts _ _ _ Hinv), <- (inv_futures _ _ _ Hinv) in Hres.
      destruct (lookup_lt_is_Some_2 _ _ Hres) as [g Hg].
      pose proof (Forall_lookup_1 _ _ _ _ Hj Hg) as Hready.
      destruct g as [|?|?| | |gres]; try done.
      { destruct (inv_no_cancel _ _ _ Hinv r _ Hg). by right. }
      destruct (Hfin r _ Hg I) as (cs0 & Hcs0 & Hl0). congruence. }
    split.
    + rewrite Hfs. exact Hret.
    + rewrite Hfs. intros k f Hk Hleft'.
      destruct (Hfin k f Hk Hleft') as (cs0 & Hcs0 & Hl0).
      destruct (lookup_lt_is_Some_2 (scraping_contexts s') k) as [cs1 Hcs1].
      { rewrite Hlen. by eapply lookup_lt_Some. }
      destruct (process_completed_future_rewrites _ _ _ _ _ _ Hp k cs1 Hcs1)
        as (cs2 & Hcs2 & Hrw).
      exists cs1. split; [done|]. eapply left_by_worker_rewrite; [exact Hrw|].
      congruence.
    + rewrite Hs. intros r0 [Hr0| ->%list_elem_of_singleton]%elem_of_app.
      * destruct (decide (r0 = r)) as [->|Hne]; [exists cs'; auto|].
        rewrite Hother by done. by apply Hhand.
      * exists cs'. auto.
Qed.

Lemma initial_run_handled opts (σ : Store) (drivers : list Context_) :
  handled_invariant (initial_run opts σ drivers).
Proof.
  split; simpl.
  - intros i e [H _]%lookup_replicate. done.
  - intros i f [-> _]%lookup_replicate. done.
  - intros i H. by apply elem_of_nil in H.
Qed.

Lemma steps_handled K N (s s' : Run_) ls :
  raises_only_Exception state_run →
  invariant K N s → records_invariant s → handled_invariant s →
  steps state_run K s ls s' → handled_invariant s'.
Proof.
  intros Hpure Hinv Hrec Hhan Hsteps. revert Hinv Hrec Hhan.
  induction Hsteps as [s|s1 l s2 ls s3 Hstep _ IH]; intros Hinv Hrec Hhan; [done|].
  apply IH; [by eapply step_invariant|by eapply step_records|by eapply step_handled].
Qed.

(** X13: when the steps raise nothing but [Exception]s, every record that a
    run passes to [add_context_status] has a terminal status at that moment
    and afterwards, whatever the schedule: SUCCEED, FAILED, CRITICAL or
    CANCELLED. The worker's own exception handlers store the exception
    without a status; it is the collector that makes the status of such a
    record FAILED or CRITICAL before it passes it on. (A step that raises
    [SystemExit] leaves its record with neither a terminal status nor an
    error, and a call that reads the attribute of its driver late can return
    such a record; see [handed_record_without_terminal_status].) *)
Theorem handed_records_are_terminal (opts : WebscrapperOptionsSchema) (σ : Store)
    (drivers : list Context_) ls (s : Run_) :
  length drivers = threads_num opts →
  raises_only_Exception state_run →
  steps state_run (threads_num opts) (initial_run opts σ drivers) ls s →
  ∀ i, i ∈ status_contexts s →
    ∃ cs, scraping_contexts s !! i = Some cs ∧ status cs ∈ Terminal.
Proof.
  intros Hfull Hpure Hsteps.
  pose proof (initial_run_invariant opts σ drivers Hfull) as Hinv0.
  apply (han_handed s).
  eapply steps_handled; [done|exact Hinv0|apply initial_run_records| |exact Hsteps].
  apply initial_run_handled.
Qed.

Lemma step_keeps_handed K N (s s' : Run_) l r :
  invariant K N s → records_invariant s → step state_run K s l s' →
  r ∈ status_contexts s →
  r ∈ status_contexts s' ∧ scraping_contexts s' !! r = scraping_contexts s !! r.
Proof.
  intros Hinv Hrec Hstep Hr.
  destruct (step_label _ _ _ _ _ Hstep) as [Hl|[j ->]].
  - destruct (worker_step_not_joined _ _ _ _ Hstep Hl). by eapply handed_joined.
  - destruct (collected_future_finished _ _ _ _ _ Hinv Hstep) as (fres & Hf & Hres).
    destruct (step_Collect_inv _ _ _ _ _ Hstep)
      as (Hj & _ & _ & Hlt & Hfs & _ & _ & Hy & res & Hp & Hs & _).
    pose proof (process_completed_future_finished _ _ _ _ _ _ _ Hf Hp) as Hout.
    destruct fres as [r0|e].
    + destruct (lookup_lt_is_Some_2 _ _ Hres) as [cs Hcs].
      destruct (process_completed_future_returned _ _ _ _ _ _ _ _ Hf Hcs Hp)
        as (-> & Hother & cs' & Hcs' & _ & Hsame & _).
      rewrite Hs. split; [apply elem_of_app; by left|].
      destruct (decide (r = r0)) as [->|Hne]; [|by apply Hother].
      destruct (rec_handed _ Hrec r0 Hr) as (cs0 & Hcs0 & Hset0).
      rewrite Hcs in Hcs0. injection Hcs0 as <-.
      rewrite Hcs', Hcs. f_equal. by apply Hsame.
    + rewrite Hres in Hout. destruct Hout as (-> & Hσ & _).
      by rewrite Hs, Hσ.
Qed.

(** X14: a record that has been passed to [add_context_status] is not
    written any more: whatever the workers and the collector do afterwards,
    the record stays as it was passed on, and stays among the records passed
    on. *)
Theorem handed_records_are_not_written_again (opts : WebscrapperOptionsSchema)
    (σ : Store) (drivers : list Context_) ls ls' (s s' : Run_) i :
  length drivers = threads_num opts →
  steps state_run (threads_num opts) (initial_run opts σ drivers) ls s →
  steps state_run (threads_num opts) s ls' s' →
  i ∈ status_contexts s →
  i ∈ status_contexts s' ∧ scraping_contexts s' !! i = scraping_contexts s !! i.
Proof.
  intros Hfull Hsteps Hsteps' Hi.
  pose proof (initial_run_invariant opts σ drivers Hfull) as Hinv0.
  pose proof (steps_invariant _ _ _ _ _ _ Hinv0 Hsteps) as Hinv.
  pose proof (steps_records _ _ _ _ _ Hinv0 (initial_run_records _ _ _) Hsteps) as Hrec.
  clear Hsteps Hinv0. revert Hinv Hrec Hi.
  induction Hsteps' as [s|s1 l s2 ls' s3 Hstep _ IH]; intros Hinv Hrec Hi; [done|].
  destruct (step_keeps_handed _ _ _ _ _ _ Hinv Hrec Hstep Hi) as [Hi2 Heq].
  rewrite <- Heq. apply IH; [by eapply step_invariant|by eapply step_records|done].
Qed.

(** *** The join of the executor *)

Lemma joined_no_holder (s : Run_) :
  joined s → count holds_driver (futures s) = 0.
Proof.
  intros Hjoined.
  destruct (count holds_driver (futures s)) as [|n] eqn:Hc; [done|].
  destruct (count_pos holds_driver (futures s)) as (j & g & Hj & Hg); [lia|].
  unfold joined in Hjoined. rewrite Forall_lookup in Hjoined.
  specialize (Hjoined j g Hj). by destruct g as [|[?|]| | | |].
Qed.

Lemma collector_done_joined (s : Run_) :
  records_invariant s → collector_done s → joined s.
Proof.
  intros Hrec Hdone.
  destruct (futures s) as [|f fs] eqn:Hfs; [unfold joined; rewrite Hfs; constructor|].
  apply (rec_joined _ Hrec). intros Hy.
  assert (H0 : 0 ∈ yielded s) by (apply Hdone; rewrite Hfs; simpl; lia).
  rewrite Hy in H0. by apply elem_of_nil in H0.
Qed.

(** The worker threads pass nothing on. *)
Lemma worker_steps_hand_nothing K (s s' : Run_) ls :
  steps state_run K s ls s' →
  Forall (λ l, is_worker_step l = true) ls →
  status_contexts s' = status_contexts s ∧ yielded s' = yielded s
  ∧ collector_raised s' = collector_raised s.
Proof.
  induction 1 as [s|s1 l s2 ls s3 Hstep _ IH]; intros Hworkers; [done|].
  apply Forall_cons in Hworkers as [Hl Hls].
  destruct (step_worker_inv _ _ _ _ _ Hstep Hl) as (<- & <- & <- & _).
  by apply IH.
Qed.

(** X15: the state in which [create_and_submit_tasks] leaves its [with]
    block, when only the workers have run and the executor has joined them:
    every future has finished, no task was skipped or cancelled (a task that
    failed has not stopped the others), nothing has been passed on yet and
    all the drivers are back in the queue. When the steps raise nothing but
    [Exception]s, every future has returned a record and every record is as
    its worker left it; with a single worker thread each future has
    returned its own record. *)
Theorem joined_workers_have_run_every_task (opts : WebscrapperOptionsSchema)
    (σ : Store) (drivers : list Context_) ls (s : Run_) :
  length drivers = threads_num opts →
  steps state_run (threads_num opts) (initial_run opts σ drivers) ls s →
  Forall (λ l, is_worker_step l = true) ls →
  joined s →
  (∀ i, i < length σ → ∃ res, futures s !! i = Some (Future.FINISHED res))
  ∧ status_contexts s = [] ∧ yielded s = [] ∧ collector_raised s = None
  ∧ length (queue (driver_queue s)) = threads_num opts
  ∧ (driver_id <$> queue (driver_queue s)) ≡ₚ (driver_id <$> drivers)
  ∧ (raises_only_Exception state_run →
       ∀ i, i < length σ →
         (∃ r, futures s !! i = Some (Future.FINISHED (Return r)) ∧ r < length σ)
         ∧ ∃ cs, scraping_contexts s !! i = Some cs ∧ left_by_worker cs)
  ∧ (raises_only_Exception state_run → threads_num opts = 1 →
       ∀ i, i < length σ → futures s !! i = Some (Future.FINISHED (Return i))).
Proof.
  intros Hfull Hsteps Hworkers Hjoined.
  pose proof (initial_run_invariant opts σ drivers Hfull) as Hinv0.
  pose proof (steps_invariant _ _ _ _ _ _ Hinv0 Hsteps) as Hinv.
  destruct (drivers_are_owned _ _ _ _ _ _ Hsteps) as (Hperm & Hlen).
  destruct (worker_steps_hand_nothing _ _ _ _ Hsteps Hworkers) as (Hsink & Hy & Hnr).
  pose proof (joined_no_holder _ Hjoined) as Hheld.
  pose proof (inv_drivers _ _ _ Hinv) as Hd. rewrite Hheld in Hd.
  assert (Hids : held_ids (futures s) = []).
  { apply nil_length_inv. lia. }
  rewrite Hids, app_nil_r in Hperm.
  assert (Hfin : ∀ i, i < length σ →
            ∃ res, futures s !! i = Some (Future.FINISHED res)).
  { intros i Hi.
    destruct (lookup_lt_is_Some_2 (futures s) i) as [f Hf].
    { by rewrite (inv_futures _ _ _ Hinv). }
    pose proof (Forall_lookup_1 _ _ _ _ Hjoined Hf) as Hready.
    destruct f as [|?|?| | |res]; try done; [|by exists res].
    destruct (inv_no_cancel _ _ _ Hinv i _ Hf). by right. }
  split; [done|]. split; [done|]. split; [done|]. split; [done|].
  split; [lia|]. split; [done|]. split.
  - intros Hpure i Hi.
    pose proof (steps_handled _ _ _ _ _ Hpure Hinv0 (initial_run_records _ _ _)
                  (initial_run_handled _ _ _) Hsteps) as Hhan.
    destruct (Hfin i Hi) as [[r|e] Hf]; [|by destruct (han_returned _ Hhan i e)].
    split; [exists r; split; [done|]; by eapply (inv_returned _ _ _ Hinv)|].
    by eapply (han_finished _ Hhan).
  - intros Hpure HK1 i Hi. destruct (Hfin i Hi) as [res Hf].
    rewrite HK1 in Hsteps, Hinv0.
    pose proof (steps_sequential _ _ _ _ _ Hpure Hinv0 Hsteps
                  (initial_run_sequential _ _ _)) as Hseq.
    by rewrite (seq_finished _ Hseq i res Hf) in Hf.
Qed.

Lemma join_by_progress K (P : Run_ → Prop) :
  (∀ s l s', P s → step state_run K s l s' → is_worker_step l = true → P s') →
  (∀ s, P s → joined s ∨ ∃ l s', step state_run K s l s' ∧ is_worker_step l = true) →
  ∀ s, P s →
    ∃ ls s', steps state_run K s ls s'
             ∧ Forall (λ l, is_worker_step l = true) ls
             ∧ joined s'.
Proof.
  intros Hpres Hprog s. remember (remaining s) as n eqn:Hn.
  assert (Hle : remaining s ≤ n) by lia. clear Hn. revert s Hle.
  induction n as [|n IH]; intros s Hle HP.
  - destruct (Hprog s HP) as [Hj|(l & s' & Hstep & Hl)].
    + exists [], s. split; [constructor|]. split; [constructor|done].
    + apply step_remaining in Hstep. lia.
  - destruct (Hprog s HP) as [Hj|(l & s' & Hstep & Hl)].
    + exists [], s. split; [constructor|]. split; [constructor|done].
    + destruct (IH s') as (ls' & s'' & Hsteps' & Hall & Hj).
      * apply step_remaining in Hstep. lia.
      * by eapply Hpres.
      * exists (l :: ls'), s''. split; [by econstructor|].
        split; [by constructor|done].
Qed.

(** X16: the [with] block of [create_and_submit_tasks] ends. When every
    task's loop ends, then from every state that a run can reach the workers
    alone, without a step of the collector, bring the run to a state in which
    the executor is joined: no future is pending or running. *)
Theorem workers_can_always_be_joined (opts : WebscrapperOptionsSchema)
    (σ : Store) (drivers : list Context_) ls (s : Run_) :
  1 ≤ threads_num opts →
  length drivers = threads_num opts →
  always_terminates state_run →
  steps state_run (threads_num opts) (initial_run opts σ drivers) ls s →
  ∃ ls' s', steps state_run (threads_num opts) s ls' s'
            ∧ Forall (λ l, is_worker_step l = true) ls'
            ∧ joined s'.
Proof.
  intros HK Hfull Hterm Hsteps.
  pose proof (initial_run_invariant opts σ drivers Hfull) as Hinv0.
  pose proof (steps_invariant _ _ _ _ _ _ Hinv0 Hsteps) as Hinv.
  apply (join_by_progress _ (invariant (threads_num opts) (length σ))); [| |done].
  - intros s1 l s2 H1 Hstep _. by eapply step_invariant.
  - intros s1 H1. by eapply worker_progress.
Qed.

(** *** The drain at the end of a run *)

Lemma step_unfinished_tasks K (s s' : Run_) l :
  step state_run K s l s' →
  unfinished_tasks (driver_queue s') = unfinished_tasks (driver_queue s).
Proof.
  intros Hstep. step_cases Hstep; simpl; try done.
  - by destruct (Queue_get_Got _ _ _ _ Hget) as (_ & _ & ?).
  - by destruct (scrape_item_try_result _ _ _ _ _ _ _ _ _ _ Htry)
      as (σ1 & out & _ & -> & _).
  - by destruct (scrape_item_try_result _ _ _ _ _ _ _ _ _ _ Htry)
      as (σ1 & out & _ & -> & _).
Qed.

Lemma steps_unfinished_tasks K (s s' : Run_) ls :
  steps state_run K s ls s' →
  unfinished_tasks (driver_queue s') = unfinished_tasks (driver_queue s).
Proof.
  induction 1 as [s|s1 l s2 ls s3 Hstep _ IH]; [done|].
  by rewrite IH, (step_unfinished_tasks _ _ _ _ Hstep).
Qed.

Lemma drain_of_idle_pool (opts : WebscrapperOptionsSchema) N (s : Run_) :
  invariant (threads_num opts) N s →
  unfinished_tasks (driver_queue s) = threads_num opts →
  joined s →
  clear_driver_queue opts (driver_queue s) =
    mkDrained (mkQueue (threads_num opts) [] 0)
              (clear_context <$> queue (driver_queue s)) None 0 None.
Proof.
  intros Hinv Hunf Hjoined.
  pose proof (inv_drivers _ _ _ Hinv) as Hd.
  rewrite (joined_no_holder _ Hjoined) in Hd.
  unfold clear_driver_queue.
  rewrite (clear_from_takes_all _ (queue (driver_queue s))) by (done || lia).
  rewrite (inv_maxsize _ _ _ Hinv), Hunf.
  rewrite !decide_True by lia. simpl.
  by replace (threads_num opts - length (queue (driver_queue s))) with 0 by lia.
Qed.

(** X17: the drain of [start_scraping], which follows the collector. When
    [as_completed] has yielded every future, [clear_driver_queue] finds all
    the drivers of the pool in the queue: it quits each of them, does not
    wait, logs no warning, raises nothing and leaves the queue empty with no
    unfinished task. *)
Theorem drain_after_a_complete_run (opts : WebscrapperOptionsSchema)
    (σ : Store) (drivers : list Context_) ls (s : Run_) :
  length drivers = threads_num opts →
  steps state_run (threads_num opts) (initial_run opts σ drivers) ls s →
  collector_done s →
  clear_driver_queue opts (driver_queue s) =
    mkDrained (mkQueue (threads_num opts) [] 0)
              (clear_context <$> queue (driver_queue s)) None 0 None
  ∧ (driver_id <$> cleared (clear_driver_queue opts (driver_queue s)))
      ≡ₚ (driver_id <$> drivers)
  ∧ Forall (λ c, quit_called c = true)
           (cleared (clear_driver_queue opts (driver_queue s))).
Proof.
  intros Hfull Hsteps Hdone.
  pose proof (initial_run_invariant opts σ drivers Hfull) as Hinv0.
  pose proof (steps_invariant _ _ _ _ _ _ Hinv0 Hsteps) as Hinv.
  pose proof (steps_records _ _ _ _ _ Hinv0 (initial_run_records _ _ _) Hsteps) as Hrec.
  destruct (drivers_are_owned _ _ _ _ _ _ Hsteps) as (Hperm & Hlen).
  pose proof (steps_unfinished_tasks _ _ _ _ Hsteps) as Hunf. simpl in Hunf.
  pose proof (collector_done_joined _ Hrec Hdone) as Hjoined.
  pose proof (inv_drivers _ _ _ Hinv) as Hd.
  rewrite (joined_no_holder _ Hjoined) in Hd.
  assert (Hids : held_ids (futures s) = []) by (apply nil_length_inv; lia).
  rewrite Hids, app_nil_r in Hperm.
  rewrite (drain_of_idle_pool opts _ s Hinv) by (done || lia).
  simpl. split; [done|]. split.
  - rewrite <- Hperm, <- list_fmap_compose. done.
  - apply Forall_fmap, Forall_true. done.
Qed.

End RunProperties.

(** ** Cancellation: by the collector and by the stop signal *)

Section Cancellation.
Context {InputDataT OutputDataT Session : Type}.
Context (state_run : PyClass → Session → ContextStatusSchema InputDataT OutputDataT
                     → StepEffect InputDataT OutputDataT Session).

#[local] Abbreviation Status := (ContextStatusSchema InputDataT OutputDataT).
#[local] Abbreviation Store := (list (ContextStatusSchema InputDataT OutputDataT)).
#[local] Abbreviation Context_ := (DriverContext Session).
#[local] Abbreviation Futures := (list (Future.State Session)).
#[local] Abbreviation Run_ := (Run InputDataT OutputDataT Session).

(** In a run that no signal interrupts no future is ever cancelled: the
    only call of [cancel_futures] is the collector's, after the join. *)
Lemma step_cancels_nothing K (s s' : Run_) l :
  step state_run K s l s' →
  (∀ j f, futures s !! j = Some f → ¬ is_cancelled f) →
  ∀ j f, futures s' !! j = Some f → ¬ is_cancelled f.
Proof.
  intros Hstep Hnone. destruct (step_label _ _ _ _ _ Hstep) as [Hl|[k ->]].
  - step_cases Hstep; simpl in *; try done.
    2:{ destruct (Hnone i _ Hi). by left. }
    all: intros j f0 Hj;
      apply list_lookup_insert_Some in Hj as [(_ & <- & _)|(_ & Hj)];
      [by intros [?|?]|by eapply Hnone].
  - destruct (step_Collect_inv _ _ _ _ _ Hstep) as (_ & _ & _ & _ & -> & _). done.
Qed.

Lemma steps_cancel_nothing K (s s' : Run_) ls :
  steps state_run K s ls s' →
  (∀ j f, futures s !! j = Some f → ¬ is_cancelled f) →
  ∀ j f, futures s' !! j = Some f → ¬ is_cancelled f.
Proof.
  induction 1 as [s|s1 l s2 ls s3 Hstep _ IH]; [done|].
  intros Hnone. apply IH. by eapply step_cancels_nothing.
Qed.

(** Once the executor is joined only the collector takes steps, and the
    futures stay as they are. *)
Lemma joined_steps K (s s' : Run_) ls :
  steps state_run K s ls s' → joined s →
  futures s' = futures s ∧ Forall (λ l, is_worker_step l = false) ls.
Proof.
  induction 1 as [s|s1 l s2 ls s3 Hstep _ IH]; intros Hjoined; [by split|].
  destruct (step_label _ _ _ _ _ Hstep) as [Hl|[k ->]].
  - by destruct (worker_step_not_joined _ _ _ _ _ Hstep Hl).
  - destruct (step_Collect_inv _ _ _ _ _ Hstep) as (_ & _ & _ & _ & Hfs & _).
    destruct IH as [Hfs' Hall]; [unfold joined; by rewrite Hfs|].
    split; [congruence|by constructor].
Qed.

(** The same when SIGINT arrives after the join: the handler finds no
    future to cancel, and no worker thread has a step to take. *)
Lemma joined_signal_steps K (ms ms' : Main Session * Run_) ls :
  signal_steps state_run K ms ls ms' → joined ms.2 →
  futures ms'.2 = futures ms.2
  ∧ Forall (λ l, ∀ l', l = Thread l' → is_worker_step l' = false) ls.
Proof.
  induction 1 as [ms|ms1 l ms2 ls ms3 Hstep _ IH]; intros Hjoined; [by split|].
  assert (Hone : futures ms2.2 = futures ms1.2
                 ∧ ∀ l', l = Thread l' → is_worker_step l' = false).
  { destruct Hstep as [m s l s' Hstep Hl| | | | |]; simpl in *;
      try (split; [done|]; done).
    - destruct (step_label _ _ _ _ _ Hstep) as [Hw|[k ->]].
      + by destruct (worker_step_not_joined _ _ _ _ _ Hstep Hw).
      + destruct (step_Collect_inv _ _ _ _ _ Hstep) as (_ & _ & _ & _ & Hfs & _).
        split; [done|]. by intros l' [= <-].
    - split; [by apply cancel_futures_ready|done]. }
  destruct Hone as [Hfs Hl].
  destruct IH as [Hfs' Hall]; [unfold joined; by rewrite Hfs|].
  split; [congruence|by constructor].
Qed.


(** *** The stop signal *)

Lemma step_no_PENDING K (s s' : Run_) l :
  step state_run K s l s' →
  (∀ j, futures s !! j ≠ Some Future.PENDING) →
  (∀ j, l ≠ Start j) ∧ (∀ j, futures s' !! j ≠ Some Future.PENDING).
Proof.
  intros Hstep Hnone. destruct (step_label _ _ _ _ _ Hstep) as [Hl|[k ->]].
  - split.
    + intros j ->. inversion Hstep; subst. by eapply Hnone.
    + destruct (step_worker_inv _ _ _ _ _ Hstep Hl)
        as (_ & _ & _ & i & f & g & Hi & -> & Hlt).
      intros j Hj.
      apply list_lookup_insert_Some in Hj as [(_ & -> & _)|(_ & Hj)];
        [|by eapply Hnone].
      destruct f as [|[?|]| | | |]; simpl in Hlt; lia.
  - split; [done|].
    by destruct (step_Collect_inv _ _ _ _ _ Hstep) as (_ & _ & _ & _ & -> & _).
Qed.

Lemma step_cancelled K (s s' : Run_) l j g :
  step state_run K s l s' →
  futures s !! j = Some g → is_cancelled g →
  ∃ g', futures s' !! j = Some g' ∧ is_cancelled g'.
Proof.
  intros Hstep Hj Hcanc. destruct (step_label _ _ _ _ _ Hstep) as [Hl|[k ->]].
  - step_cases Hstep; simpl in *; try done.
    2:{ destruct (decide (i = j)) as [->|Hne].
        - rewrite list_lookup_insert_eq by (by eapply lookup_lt_Some).
          eexists. split; [done|by right].
        - rewrite list_lookup_insert_ne by done. eauto. }
    all: destruct (decide (i = j)) as [->|Hne];
      [rewrite Hi in Hj; injection Hj as <-; by destruct Hcanc
      |rewrite list_lookup_insert_ne by done; eauto].
  - destruct (step_Collect_inv _ _ _ _ _ Hstep) as (_ & _ & _ & _ & -> & _). eauto.
Qed.

Lemma signal_step_no_PENDING K (ms ms' : Main Session * Run_) l :
  signal_step state_run K ms l ms' →
  (∀ j, futures ms.2 !! j ≠ Some Future.PENDING) →
  (∀ j, l ≠ Thread (Start j)) ∧ (∀ j, futures ms'.2 !! j ≠ Some Future.PENDING).
Proof.
  intros Hstep Hnone.
  destruct Hstep as [m s l s' Hstep Hl| | | | |]; simpl in *;
    try (split; [done|]; try done).
  - destruct (step_no_PENDING _ _ _ _ Hstep Hnone) as [Hl' Hnone'].
    split; [|done]. intros j [= ->]. by destruct (Hl' j).
  - intros j. apply cancel_futures_no_PENDING.
Qed.

Lemma signal_step_cancelled K (ms ms' : Main Session * Run_) l j f :
  signal_step state_run K ms l ms' →
  futures ms.2 !! j = Some f → is_cancelled f →
  ∃ f', futures ms'.2 !! j = Some f' ∧ is_cancelled f'.
Proof.
  intros Hstep Hj Hcanc.
  destruct Hstep as [m s l s' Hstep Hl| | | | |]; simpl in *; eauto.
  - by eapply step_cancelled.
  - rewrite cancel_futures_lookup, Hj. simpl. eexists. split; [done|].
    by destruct Hcanc as [-> | ->]; [left|right].
Qed.


End Cancellation.

(** ** [start_scraping], end to end *)

Section EndToEnd.
Context {InputDataT OutputDataT Session : Type}.
Context (state_run : PyClass → Session → ContextStatusSchema InputDataT OutputDataT
                     → StepEffect InputDataT OutputDataT Session).

#[local] Abbreviation Status := (ContextStatusSchema InputDataT OutputDataT).
#[local] Abbreviation Store := (list (ContextStatusSchema InputDataT OutputDataT)).
#[local] Abbreviation Context_ := (DriverContext Session).
#[local] Abbreviation Futures := (list (Future.State Session)).
#[local] Abbreviation Run_ := (Run InputDataT OutputDataT Session).

(** *** Schedules as functions *)

Lemma scrape_item_try_more fuel (q : Queue Context_) (σ : Store) c blank out :
  scrape_item_try state_run fuel q σ c blank = Some out →
  scrape_item_try state_run (S fuel) q σ c blank = Some out.
Proof.
  unfold scrape_item_try, scrape_item_run.
  destruct (run_until_finished state_run fuel σ (with_status (Some blank) c))
    as [out'|] eqn:Hloop; [|done].
  by rewrite (run_until_finished_more _ _ _ _ _ Hloop).
Qed.

Lemma exec_step_more K fuel l (s s' : Run_) :
  exec_step state_run K fuel l s = Some s' →
  exec_step state_run K (S fuel) l s = Some s'.
Proof.
  destruct s as [σ fs q sink ys err b]. destruct l as [i|i|i|i|i|i|i]; simpl; try done.
  destruct (fs !! i) as [[|[c|]| | | |]|] eqn:Hi; try done.
  destruct (scrape_item_try _ fuel _ _ _ _) as [out|] eqn:Hs; [|done].
  by rewrite (scrape_item_try_more _ _ _ _ _ _ Hs).
Qed.

Lemma exec_steps_more K fuel ls : ∀ (s s' : Run_),
  exec_steps state_run K fuel ls s = Some s' →
  exec_steps state_run K (S fuel) ls s = Some s'.
Proof.
  induction ls as [|l ls IH]; intros s s'; [done|]. simpl.
  destruct (exec_step state_run K fuel l s) as [s1|] eqn:Hstep; [|done].
  rewrite (exec_step_more _ _ _ _ _ Hstep). simpl. apply IH.
Qed.

Lemma exec_steps_le K fuel fuel' ls (s s' : Run_) :
  fuel ≤ fuel' →
  exec_steps state_run K fuel ls s = Some s' →
  exec_steps state_run K fuel' ls s = Some s'.
Proof.
  induction 1 as [|fuel' _ IH]; [done|]. intros H. by apply exec_steps_more, IH.
Qed.

Lemma step_exec K l (s s' : Run_) :
  step state_run K s l s' → ∃ fuel0, exec_step state_run K fuel0 l s = Some s'.
Proof.
  intros Hstep. step_cases Hstep.
  - exists 0. simpl. rewrite Hi. by rewrite decide_True.
  - exists 0. simpl. by rewrite Hi.
  - exists 0. simpl. by rewrite Hi, Hget.
  - exists 0. simpl. by rewrite Hi, Hget.
  - exists fuel. simpl. by rewrite Hi, Htry.
  - exists fuel. simpl. by rewrite Hi, Htry.
  - exists 0. simpl. by rewrite Hi.
  - exists 0. simpl. rewrite Hi, (proj2 (forallb_ready _) Hjoin). simpl.
    rewrite bool_decide_true by done. by rewrite Hp.
  - exists 0. simpl. rewrite Hi, (proj2 (forallb_ready _) Hjoin). simpl.
    rewrite bool_decide_true by done. by rewrite Hp.
Qed.

Lemma exec_step_le K fuel fuel' l (s s' : Run_) :
  fuel ≤ fuel' →
  exec_step state_run K fuel l s = Some s' →
  exec_step state_run K fuel' l s = Some s'.
Proof.
  induction 1 as [|fuel' _ IH]; [done|]. intros H. by apply exec_step_more, IH.
Qed.

Lemma steps_exec K ls (s s' : Run_) :
  steps state_run K s ls s' → ∃ fuel, exec_steps state_run K fuel ls s = Some s'.
Proof.
  induction 1 as [s|s1 l s2 ls s3 Hstep _ [fuel2 IH]]; [by exists 0|].
  destruct (step_exec _ _ _ _ Hstep) as [fuel1 H1].
  exists (fuel1 `max` fuel2). simpl.
  rewrite (exec_step_le _ fuel1 (fuel1 `max` fuel2) _ _ _ (Nat.le_max_l _ _) H1).
  simpl. eapply exec_steps_le; [|exact IH]. lia.
Qed.

Lemma forallb_intro {A} (p : A → bool) (l : list A) :
  Forall (λ x, p x = true) l → forallb p l = true.
Proof. induction 1 as [|x l Hx _ IH]; [done|]. simpl. by rewrite Hx, IH. Qed.

Lemma forallb_elim {A} (p : A → bool) (l : list A) :
  forallb p l = true → Forall (λ x, p x = true) l.
Proof.
  induction l as [|x l IH]; [by constructor|]. simpl.
  intros [Hx Hl]%andb_true_iff. constructor; auto.
Qed.

(** The loop of [process_completed_tasks] on a joined executor is a run of
    the collector: one step of the main thread per future that
    [as_completed] yields. *)
Lemma process_completed_tasks_steps K (order : list nat) :
  ∀ (σ σ' : Store) (fs fs' : Futures) q sink sink' ys b,
    NoDup order → (∀ i, i ∈ order → i ∉ ys) →
    Forall (λ f, Future.as_completed_ready f = true) fs →
    process_completed_tasks order σ fs sink = Some (σ', fs', sink', Return ()) →
    steps state_run K (mkRun σ fs q sink ys None b) (Collect <$> order)
          (mkRun σ' fs' q sink' (ys ++ order) None b).
Proof.
  induction order as [|i order IH]; intros σ σ' fs fs' q sink sink' ys b Hnd Hnew Hall.
  { simpl. intros [= <- <- <-]. rewrite app_nil_r. constructor. }
  apply NoDup_cons in Hnd as [Hi Hnd]. simpl.
  destruct (process_completed_future σ fs i) as [[[σ1 fs1] [r|e]]|] eqn:Hp; try done.
  intros Hrest.
  destruct (process_completed_future_shape _ _ _ _ _ _ Hp) as [_ Hfs1].
  assert (fs1 = fs) as ->
    by (destruct Hfs1 as [-> | ->]; [done|by apply cancel_futures_ready]).
  assert (∃ f, fs !! i = Some f) as [f Hf].
  { unfold process_completed_future in Hp. destruct (fs !! i); [eauto|done]. }
  eapply steps_cons.
  - eapply step_Collect_Return; [exact Hall|exact Hf| |exact Hp].
    apply Hnew. by left.
  - rewrite (cons_middle i ys order), app_assoc. apply IH; [done| |done|done].
    intros j Hj [Hin| ->%list_elem_of_singleton]%elem_of_app; [|done].
    apply (Hnew j); [by right|done].
Qed.

(** When every future has returned a record, the loop of
    [process_completed_tasks] returns. *)
Lemma process_completed_tasks_returns (order : list nat) :
  ∀ (σ : Store) (fs : Futures) sink,
    Forall (λ f, ∃ r, f = Future.FINISHED (Return r)) fs →
    (∀ i, i ∈ order → i < length fs) →
    ∃ σ' sink', process_completed_tasks order σ fs sink
                = Some (σ', fs, sink', Return ()).
Proof.
  induction order as [|i order IH]; intros σ fs sink Hall Hlt; [simpl; eauto|].
  destruct (lookup_lt_is_Some_2 fs i) as [f Hf]; [apply Hlt; by left|].
  destruct (Forall_lookup_1 _ _ _ _ Hall Hf) as [r ->].
  destruct (process_completed_future_total σ fs i _ Hf eq_refl)
    as (σ1 & fs1 & res & Hp).
  pose proof (process_completed_future_finished _ _ _ _ _ _ _ Hf Hp) as Hout.
  simpl in Hout. subst res.
  destruct (process_completed_future_shape _ _ _ _ _ _ Hp) as [_ Hfs1].
  assert (fs1 = fs) as ->.
  { destruct Hfs1 as [-> | ->]; [done|]. apply cancel_futures_ready.
    eapply Forall_impl; [exact Hall|]. by intros g [r' ->]. }
  simpl. rewrite Hp. apply IH; [done|]. intros j Hj. apply Hlt. by right.
Qed.

(** *** The warm-up that precedes the run *)

Lemma pooled_all (initial_state : PyClass) (create : nat → PyResult Session)
    (order : list nat) :
  cls_issubclass_DriverState initial_state = true →
  cls_abstract initial_state = false →
  cls_init initial_state = None →
  Forall (λ id, returned (create id) = true) order →
  driver_id <$> omap (pooled_context initial_state create) order = order.
Proof.
  intros Hsub Habs Hinit. induction 1 as [|id order Hid _ IH]; [done|].
  rewrite omap_cons. unfold pooled_context at 1, generate_driver_context, set_state.
  rewrite Hsub, Habs, Hinit. destruct (create id) as [d|e]; [|done]. simpl.
  f_equal. exact IH.
Qed.

Lemma warm_up_result (opts : WebscrapperOptionsSchema) (initial_state : PyClass)
    (create : nat → PyResult Session) (order : list nat) :
  threads_num opts ≠ 0 → length order = threads_num opts →
  initialize_driver_pool opts initial_state create order (new_driver_queue opts)
  = Some (Return (mkQueue (threads_num opts)
                    (omap (pooled_context initial_state create) order)
                    (length (omap (pooled_context initial_state create) order)))).
Proof.
  intros HK Hlen. unfold initialize_driver_pool. rewrite decide_False by done.
  by rewrite setup_driver_contexts_fills by (simpl; lia).
Qed.

(** *** A pool without drivers *)

Lemma worker_step_waits_in_vain K (recs : Store) (s s' : Run_) l :
  waits_in_vain recs s → step state_run K s l s' → is_worker_step l = true →
  waits_in_vain recs s'.
Proof.
  intros (Hq & Hσ & Hlen & Hfs) Hstep Hl.
  step_cases Hstep; unfold waits_in_vain; simpl in *; try done.
  - split; [done|]. split; [done|]. split; [by rewrite length_insert|].
    intros j g Hj. apply list_lookup_insert_Some in Hj as [(_ & <- & _)|(_ & Hj)];
      [auto|by eapply Hfs].
  - destruct (Hfs i _ Hi) as [?|[?|?]]; done.
  - unfold Queue_get in Hget. by rewrite Hq in Hget.
  - split; [done|]. split; [done|]. split; [by rewrite length_insert|].
    intros j g Hj. apply list_lookup_insert_Some in Hj as [(_ & <- & _)|(_ & Hj)];
      [auto|by eapply Hfs].
  - destruct (Hfs i _ Hi) as [?|[?|?]]; done.
  - destruct (Hfs i _ Hi) as [?|[?|?]]; done.
  - destruct (Hfs i _ Hi) as [?|[?|?]]; done.
Qed.

Lemma worker_steps_wait_in_vain K (recs : Store) (s s' : Run_) ls :
  steps state_run K s ls s' → Forall (λ l, is_worker_step l = true) ls →
  waits_in_vain recs s → waits_in_vain recs s'.
Proof.
  induction 1 as [s|s1 l s2 ls s3 Hstep _ IH]; intros Hall H0; [done|].
  apply Forall_cons in Hall as [Hl Hls]. apply IH; [done|].
  by eapply worker_step_waits_in_vain.
Qed.

Lemma waits_in_vain_progress K (recs : Store) (s : Run_) :
  1 ≤ K → waits_in_vain recs s →
  joined s ∨ ∃ l s', step state_run K s l s' ∧ is_worker_step l = true.
Proof.
  intros HK (Hq & Hσ & Hlen & Hfs). unfold joined.
  destruct (decide (Forall (λ f, Future.as_completed_ready f = true) (futures s)))
    as [Hall|Hnot]; [by left|right].
  apply not_Forall_Exists, Exists_exists in Hnot; [|apply _].
  destruct Hnot as (f & Hin & Hf). apply list_elem_of_lookup_1 in Hin as [i Hi].
  destruct s as [σ0 fs q sink ys err b]; simpl in *.
  assert (Hwait : ∀ j, fs !! j = Some (Future.RUNNING None) →
            ∃ l s', step state_run K (mkRun σ0 fs q sink ys err b) l s'
                    ∧ is_worker_step l = true).
  { intros j Hj. eexists (AcquireTimeout j), _. split; [|done].
    eapply step_AcquireTimeout; [done|]. unfold Queue_get. by rewrite Hq. }
  destruct (Hfs i f Hi) as [-> | [-> | ->]]; [|by eauto|done].
  destruct (decide (running fs < K)) as [Hlt|Hge].
  - eexists (Start i), _. split; [|done]. by eapply step_Start.
  - destruct (count_pos Future.is_RUNNING fs) as (j & g & Hj & Hg).
    { rewrite <- running_count. lia. }
    destruct (Hfs j g Hj) as [-> | [-> | ->]]; [done|by eauto|done].
Qed.


(** *** The whole of [start_scraping] *)

Lemma joined_held_ids (s : Run_) : joined s → held_ids (futures s) = [].
Proof.
  unfold joined, held_ids. induction 1 as [|f fs Hf _ IH]; [done|].
  rewrite omap_cons. by destruct f as [|[?|]| | | |].
Qed.

Lemma create_and_submit_tasks_run (opts : WebscrapperOptionsSchema) fuel schedule
    (σ : Store) (q : Queue Context_) res :
  threads_num opts ≠ 0 →
  create_and_submit_tasks state_run opts fuel schedule σ q = Some res →
  ∃ s, res = Return s
       ∧ steps state_run (threads_num opts) (submitted σ q) schedule s
       ∧ Forall (λ l, is_worker_step l = true) schedule
       ∧ joined s.
Proof.
  intros HK. unfold create_and_submit_tasks. rewrite decide_False by done.
  destruct (forallb is_worker_step schedule) eqn:Hw; [|done].
  destruct (exec_steps _ _ _ _ _) as [s|] eqn:Hexec; [|done].
  destruct (forallb Future.as_completed_ready (futures s)) eqn:Hj; [|done].
  intros [= <-]. exists s. split; [done|].
  split; [by eapply exec_steps_sound|]. split; by apply forallb_elim.
Qed.

(** X19: [start_scraping] from the warm-up to the drain. With at least one
    worker, a webdriver created in every slot, an initial state that can be
    installed, tasks whose loops end and steps that raise nothing but
    [Exception]s, [start_scraping] reaches [stop_processing] and raises
    nothing on the way, whatever the workers' schedule and the orders of
    [as_completed]: it has passed one record per future to
    [add_context_status], each with a terminal status, and the drain has
    quit every driver of the pool without waiting and has left the queue
    empty. With a single worker thread the records passed on are the
    records of the futures, in the order in which [as_completed] yields
    them: every record exactly once, and every record has a terminal
    status. *)
Theorem start_scraping_end_to_end (opts : WebscrapperOptionsSchema)
    (initial_state : PyClass) (create : nat → PyResult Session) (σ : Store)
    (warm_order order : list nat) :
  1 ≤ threads_num opts →
  length warm_order = threads_num opts →
  Forall (λ id, returned (create id) = true) warm_order →
  cls_issubclass_DriverState initial_state = true →
  cls_abstract initial_state = false →
  cls_init initial_state = None →
  always_terminates state_run →
  raises_only_Exception state_run →
  order ≡ₚ seq 0 (length σ) →
  (∃ fuel schedule,
     is_Some (start_scraping state_run opts initial_state create (Return σ)
                             warm_order fuel schedule order))
  ∧ ∀ fuel schedule res,
      start_scraping state_run opts initial_state create (Return σ)
                     warm_order fuel schedule order = Some res →
      raised res = None
      ∧ length (records res) = length σ
      ∧ length (handed res) = length σ
      ∧ (∀ r, r ∈ handed res →
           ∃ cs, records res !! r = Some cs ∧ status cs ∈ Terminal)
      ∧ (threads_num opts = 1 →
           handed res = order
           ∧ Forall (λ cs, status cs ∈ Terminal) (records res))
      ∧ ∃ d, drain res = Some d
             ∧ (driver_id <$> cleared d) ≡ₚ warm_order
             ∧ Forall (λ c, quit_called c = true) (cleared d)
             ∧ waited d = 0
             ∧ warned_remaining d = None
             ∧ drained_queue d = mkQueue (threads_num opts) [] 0.
Proof.
  intros HK Hlen Hcreated Hsub Habs Hinit Hterm Hpure Horder.
  assert (HK0 : threads_num opts ≠ 0) by lia.
  set (drivers := omap (pooled_context initial_state create) warm_order).
  pose proof (pooled_all _ _ _ Hsub Habs Hinit Hcreated) as Hids. fold drivers in Hids.
  assert (Hfull : length drivers = threads_num opts).
  { rewrite <- Hlen. transitivity (length (driver_id <$> drivers));
      [by rewrite length_fmap|by rewrite Hids]. }
  pose proof (warm_up_result opts initial_state create warm_order
                HK0 Hlen) as Hwarm. fold drivers in Hwarm.
  pose proof (initial_run_invariant opts σ drivers Hfull) as Hinv0.
  assert (Hcore : ∀ fuel schedule res',
            create_and_submit_tasks state_run opts fuel schedule σ
              (mkQueue (threads_num opts) drivers (length drivers)) = Some res' →
            ∃ res,
              start_scraping state_run opts initial_state create (Return σ)
                             warm_order fuel schedule order = Some res
              ∧ raised res = None
              ∧ length (records res) = length σ
              ∧ length (handed res) = length σ
              ∧ (∀ r, r ∈ handed res →
                   ∃ cs, records res !! r = Some cs ∧ status cs ∈ Terminal)
              ∧ (threads_num opts = 1 →
                   handed res = order
                   ∧ Forall (λ cs, status cs ∈ Terminal) (records res))
              ∧ ∃ d, drain res = Some d
                     ∧ (driver_id <$> cleared d) ≡ₚ warm_order
                     ∧ Forall (λ c, quit_called c = true) (cleared d)
                     ∧ waited d = 0
                     ∧ warned_remaining d = None
                     ∧ drained_queue d = mkQueue (threads_num opts) [] 0).
  { intros fuel schedule res' Hs.
    destruct (create_and_submit_tasks_run _ _ _ _ _ _ HK0 Hs)
      as (s & -> & Hsteps & Hworkers & Hjoined).
    change (submitted σ (mkQueue (threads_num opts) drivers (length drivers)))
      with (initial_run opts σ drivers) in Hsteps.
    pose proof (steps_invariant _ _ _ _ _ _ Hinv0 Hsteps) as Hinv.
    pose proof (steps_handled _ _ _ _ _ _ Hpure Hinv0 (initial_run_records _ _ _)
                  (initial_run_handled _ _ _) Hsteps) as Hhan.
    destruct (worker_steps_hand_nothing _ _ _ _ _ Hsteps Hworkers) as (Hsink & Hy & Hnr).
    simpl in Hsink, Hy, Hnr.
    assert (Hreturned : Forall (λ f, ∃ r, f = Future.FINISHED (Return r)) (futures s)).
    { apply Forall_lookup. intros i f Hf.
      pose proof (Forall_lookup_1 _ _ _ _ Hjoined Hf) as Hready.
      destruct f as [|?|?| | |[r|e]]; try done.
      - destruct (inv_no_cancel _ _ _ Hinv i _ Hf). by right.
      - by eexists.
      - by destruct (han_returned _ Hhan i e). }
    assert (Hnd : NoDup order) by (rewrite Horder; apply NoDup_seq).
    destruct (process_completed_tasks_returns order (scraping_contexts s)
                (futures s) [] Hreturned) as (σ' & sink' & Hp).
    { intros i Hi. rewrite Horder in Hi. apply elem_of_seq in Hi as [_ Hi].
      simpl in Hi. by rewrite (inv_futures _ _ _ Hinv). }
    pose proof (process_completed_tasks_steps (threads_num opts) order
                  (scraping_contexts s) σ' (futures s) (futures s) (driver_queue s)
                  [] sink' [] (bound s)
                  Hnd (λ i _, not_elem_of_nil i) Hjoined Hp) as Hsteps2.
    simpl in Hsteps2.
    assert (Hs_eq : s = mkRun (scraping_contexts s) (futures s) (driver_queue s)
                          [] [] None (bound s)).
    { destruct s; simpl in *. congruence. }
    rewrite <- Hs_eq in Hsteps2.
    pose proof (steps_app _ _ _ _ _ _ _ Hsteps Hsteps2) as Hall.
    set (s2 := mkRun σ' (futures s) (driver_queue s) sink' order None (bound s)) in *.
    pose proof (steps_invariant _ _ _ _ _ _ Hinv0 Hall) as Hinv2.
    pose proof (steps_handled _ _ _ _ _ _ Hpure Hinv0 (initial_run_records _ _ _)
                  (initial_run_handled _ _ _) Hall) as Hhan2.
    pose proof (steps_unfinished_tasks _ _ _ _ _ Hall) as Hunf2. simpl in Hunf2.
    assert (Hjoined2 : joined s2) by exact Hjoined.
    pose proof (drain_of_idle_pool opts _ s2 Hinv2 ltac:(simpl; lia) Hjoined2) as Hdrain.
    simpl in Hdrain.
    destruct (drivers_are_owned _ _ _ _ _ _ _ Hall) as [Hperm _].
    rewrite (joined_held_ids _ Hjoined2), app_nil_r in Hperm. simpl in Hperm.
    assert (Hlen_order : length order = length σ).
    { rewrite Horder. apply length_seq. }
    eexists. split.
    { unfold start_scraping. rewrite Hwarm, Hs, Hp. reflexivity. }
    rewrite Hdrain. simpl.
    split; [done|]. split; [exact (inv_contexts _ _ _ Hinv2)|].
    split.
    { pose proof (inv_no_raise _ _ _ Hinv2 eq_refl) as Hl. simpl in Hl. lia. }
    split; [exact (han_handed _ Hhan2)|]. split.
    { intros HK1.
      assert (Hown : own_records s2).
      { apply seq_finished. rewrite HK1 in Hall, Hinv0.
        eapply steps_sequential; [done|exact Hinv0|exact Hall|].
        apply initial_run_sequential. }
      destruct (steps_clean _ _ _ _ _ Hall Hown) as [_ Heq]; [done|].
      simpl in Heq. split; [done|].
      apply Forall_lookup. intros i cs Hi.
      destruct (han_handed _ Hhan2 i) as (cs' & Hcs' & Ht).
      - simpl. rewrite Heq, Horder. apply elem_of_seq.
        apply lookup_lt_Some in Hi. pose proof (inv_contexts _ _ _ Hinv2) as Hl.
        simpl in Hl. lia.
      - simpl in Hcs'. congruence. }
    eexists. split; [done|]. simpl. split.
    { rewrite <- list_fmap_compose. rewrite <- Hids, <- Hperm. done. }
    split; [|done].
    apply Forall_fmap, Forall_true. done. }
  split.
  - destruct (join_by_progress state_run (threads_num opts)
                (invariant (threads_num opts) (length σ)))
      with (s := initial_run opts σ drivers)
      as (ls & s & Hsteps & Hall & Hjoined); [| |done|].
    + intros s1 l s2 H1 Hstep _. by eapply step_invariant.
    + intros s1 H1. by eapply worker_progress.
    + destruct (steps_exec _ _ _ _ Hsteps) as [fuel Hexec].
      exists fuel, ls.
      destruct (Hcore fuel ls (Return s)) as (res & -> & _); [|done].
      unfold create_and_submit_tasks. rewrite decide_False by lia.
      rewrite (forallb_intro _ _ Hall).
      change (submitted σ (mkQueue (threads_num opts) drivers (length drivers)))
        with (initial_run opts σ drivers).
      rewrite Hexec. by rewrite (forallb_intro _ _ Hjoined).
  - intros fuel schedule res Hres.
    destruct (create_and_submit_tasks state_run opts fuel schedule σ
                (mkQueue (threads_num opts) drivers (length drivers)))
      as [res'|] eqn:Hs.
    + destruct (Hcore fuel schedule res' Hs) as (res0 & Heq & Hrest).
      rewrite Heq in Hres. by injection Hres as <-.
    + unfold start_scraping in Hres. by rewrite Hwarm, Hs in Hres.
Qed.

End EndToEnd.

(** ** The further properties on the example *)

(** X1, on the example: the header cells are stripped, the rows keep their
    order. *)
Lemma table_with_header_row_witness :
  th_texts (mkRow [Some " Name "; Some "Age"] []) ≠ []
  ∧ get_simple_table_data strip_blanks headed_rows =
      Return (mkTableData [Some "Name"; Some "Age"]
                [[Some "Ann"; Some "7"]; [Some "Bob"; None]]).
Proof.
  assert (H : th_texts (mkRow [Some " Name "; Some "Age"] []) ≠ [])
    by discriminate.
  split; [exact H|].
  exact (table_with_header_row strip_blanks _
           [mkRow [] [Some "Ann"; Some " 7"]; mkRow [] [Some "Bob "; None]] H).
Defined.

(** X2, on the example: the first row is the last of the body. *)
Lemma table_without_header_row_witness :
  th_texts (mkRow [] [Some "Ann"; Some " 7"]) = []
  ∧ get_simple_table_data strip_blanks headless_rows =
      Return (mkTableData [] [[Some "Bob"; None]; [Some "Ann"; Some "7"]]).
Proof.
  split; [reflexivity|].
  exact (table_without_header_row strip_blanks (mkRow [] [Some "Ann"; Some " 7"])
           [mkRow [] [Some "Bob "; None]] eq_refl).
Defined.

(** X3, on the example: two rows without a header give a body of two, and
    no rows give the exception. *)
Lemma table_rows_counted_witness :
  (∃ e, get_simple_table_data strip_blanks [] = Raise e)
  ∧ ∀ t, get_simple_table_data strip_blanks headless_rows = Return t →
      length (body t) = match header t with [] => 2 | _ :: _ => 1 end.
Proof.
  split.
  - exact (proj2 (proj1 (table_rows_counted strip_blanks [])) eq_refl).
  - exact (proj2 (table_rows_counted strip_blanks headless_rows)).
Defined.

(** X4, on the example: the last item comes first. *)
Lemma list_data_is_reversed_witness :
  0 < length list_items
  ∧ get_simple_list_data strip_blanks list_items !! 0 = Some (Some "three").
Proof.
  assert (H : 0 < length list_items) by (simpl; lia).
  split; [exact H|].
  exact (proj2 (list_data_is_reversed strip_blanks list_items) 0 H).
Defined.




(** X7, on the example: with no driver in the queue the call raises
    [queue.Empty] and leaves the queue and the records as they were; with a
    driver whose step calls [sys.exit] the call raises [SystemExit], and the
    driver is back in the queue. *)
Lemma scrape_item_raises_witness :
  (∃ q' σ' res,
     scrape_item state_run 5 (mkQueue 1 [] 0) ex_store 0 = Some (q', σ', res)
     ∧ res = Raise queue_Empty ∧ q' = mkQueue 1 [] 0 ∧ σ' = ex_store)
  ∧ ∃ q' σ' c1,
      scrape_item exiting_run 5 (mkQueue 1 [new_driver 0 ExitState] 1) ex_store 0
      = Some (q', σ', Raise (SystemExit 1))
      ∧ queue q' = [] ++ [c1].
Proof.
  split.
  - eexists _, _, _. split; [reflexivity|].
    exact (proj1 (scrape_item_raises_what_no_handler_catches state_run 5
                    (mkQueue 1 [] 0) _ ex_store _ 0 _ eq_refl) eq_refl).
  - destruct (proj2 (scrape_item_raises_what_no_handler_catches exiting_run 5
                       (mkQueue 1 [new_driver 0 ExitState] 1) _ ex_store _ 0 _ eq_refl)
                _ _ eq_refl) as (σ1 & c1 & out & _ & Hq & _).
    eexists _, _, c1. split; [reflexivity|exact Hq].
Defined.

(** X8, on the example: the task of the first record leaves the second
    record as it was. *)
Lemma scrape_item_touches_witness :
  ∃ q' σ' res,
    scrape_item state_run 5 (mkQueue 1 [new_driver 0 InitialState] 1)
                two_searches 0 = Some (q', σ', res)
    ∧ length σ' = 2
    ∧ σ' !! 1 = two_searches !! 1.
Proof.
  eexists _, _, _. split; [reflexivity|].
  destruct (scrape_item_touches_only_its_record state_run 5
              (mkQueue 1 [new_driver 0 InitialState] 1) _ two_searches _ 0 _ eq_refl)
    as [Hlen Hother].
  split; [exact Hlen|]. apply Hother. discriminate.
Defined.

(** X9, on the example: the second future has raised [queue.Empty]; the
    collector passes on the first record and raises. *)
Lemma collector_stops_witness :
  Forall (collectable starved_futures) [0]
  ∧ starved_futures !! 1 = Some (Future.FINISHED (Raise queue_Empty))
  ∧ isinstance_CancelledError queue_Empty = false
  ∧ ∃ σ' fs', process_completed_tasks ([0] ++ 1 :: [2]) collected_store
                starved_futures [] = Some (σ', fs', [] ++ [0], Raise queue_Empty).
Proof.
  assert (H : Forall (collectable starved_futures) [0]).
  { constructor; [|constructor]. exists (Future.FINISHED (Return 0)).
    split; [reflexivity|]. split; [reflexivity|]. by intros res [= <-]. }
  split; [exact H|]. split; [reflexivity|]. split; [reflexivity|].
  exact (collector_stops_at_the_first_exception [0] [2] 1 queue_Empty
           collected_store starved_futures [] H eq_refl eq_refl).
Defined.

(** X10, on the example: all four futures have returned; the collector
    passes on the four records and cancels nothing, although the second
    record has crashed. *)
Lemma collector_after_join_witness :
  Forall (λ f, ∃ r, f = Future.FINISHED (Return r)) joined_futures
  ∧ ∃ σ' fs' sink' res,
      process_completed_tasks [0; 1; 2; 3] collected_store joined_futures []
        = Some (σ', fs', sink', res)
      ∧ status <$> σ' = [FAILED; CRITICAL; INITIALIZED; INITIALIZED]
      ∧ fs' = joined_futures
      ∧ res = Return ()
      ∧ length sink' = 4.
Proof.
  assert (H : Forall (λ f : Future.State Page, ∃ r, f = Future.FINISHED (Return r))
                joined_futures).
  { repeat constructor; by eexists. }
  split; [exact H|].
  destruct (collector_after_join_cancels_nothing [0; 1; 2; 3] collected_store _
              joined_futures _ [] _ _ H eq_refl) as (Hfs & Hres & Hlen & _).
  eexists _, _, _, _. split; [reflexivity|]. split; [reflexivity|].
  split; [exact Hfs|]. split; [exact Hres|exact Hlen].
Defined.

(** X12, on the example: two workers hold the two drivers; the queue is
    empty and the drivers they hold differ. *)
Lemma drivers_are_held_exclusively_witness :
  let drivers := [new_driver 1 InitialState; new_driver 0 InitialState] in
  steps state_run 2 (initial_run (mkOptions 2) two_searches drivers)
        holding_schedule both_held
  ∧ NoDup (driver_id <$> drivers)
  ∧ length (queue (driver_queue both_held)) + length (held_ids (futures both_held)) = 2
  ∧ ∀ j c', j ≠ 0 → futures both_held !! j = Some (Future.RUNNING (Some c')) →
      driver_id c' ≠ 0.
Proof.
  intros drivers.
  assert (H : steps state_run 2 (initial_run (mkOptions 2) two_searches drivers)
                holding_schedule both_held)
    by (apply (exec_steps_sound state_run 2 5); reflexivity).
  assert (Hnd : NoDup (driver_id <$> drivers)).
  { apply NoDup_cons. split; [|apply NoDup_singleton].
    intros Hin. apply list_elem_of_singleton in Hin. discriminate Hin. }
  destruct (drivers_are_held_exclusively state_run (mkOptions 2) two_searches drivers
              2 holding_schedule both_held H) as (_ & Hlen & Hexcl).
  split; [exact H|]. split; [exact Hnd|]. split; [exact Hlen|].
  exact (proj2 (Hexcl Hnd 0 (new_driver 0 InitialState) eq_refl)).
Defined.

(** X13, on the example: the crashed record is CRITICAL and the other one
    SUCCEED when they have been passed on. *)
Lemma handed_records_are_terminal_witness :
  let drivers := [new_driver 0 CrashState] in
  length drivers = threads_num (mkOptions 1)
  ∧ steps state_run 1 (initial_run (mkOptions 1) two_records drivers)
          collecting_schedule after_collection
  ∧ ∀ i, i ∈ status_contexts after_collection →
      ∃ cs, scraping_contexts after_collection !! i = Some cs
            ∧ status cs ∈ Terminal.
Proof.
  intros drivers.
  assert (H : steps state_run 1 (initial_run (mkOptions 1) two_records drivers)
                collecting_schedule after_collection)
    by (apply (exec_steps_sound state_run 1 5); reflexivity).
  split; [reflexivity|]. split; [exact H|].
  exact (handed_records_are_terminal state_run (mkOptions 1) two_records drivers
           collecting_schedule after_collection eq_refl
           example_raises_only_Exception H).
Defined.

(** Without the hypothesis on the steps the property of X13 fails: with two
    workers the call for record 0 reads the attribute of its driver when the
    other worker has bound record 2 to it, and the step of that task calls
    [sys.exit]. The collector passes on record 2, which has no error and the
    status INITIALIZED. *)
Lemma handed_record_without_terminal_status :
  ∃ s, steps exiting_run 2
         (initial_run (mkOptions 2) three_records
            [new_driver 0 OnceState; new_driver 1 InitialState])
         (exiting_schedule ++ [Collect 0]) s
       ∧ futures s !! 0 = Some (Future.FINISHED (Return 2))
       ∧ futures s !! 2 = Some (Future.FINISHED (Raise (SystemExit 1)))
       ∧ status_contexts s = [2]
       ∧ status <$> scraping_contexts s !! 2 = Some INITIALIZED
       ∧ INITIALIZED ∉ Terminal.
Proof.
  eexists. split; [apply (exec_steps_sound exiting_run 2 5); vm_compute; reflexivity|].
  split; [reflexivity|]. split; [reflexivity|]. split; [reflexivity|].
  split; [reflexivity|]. unfold Terminal. intros H.
  rewrite !elem_of_cons, elem_of_nil in H. by destruct H as [?|[?|[?|[?|[]]]]].
Qed.

(** X14, on the example: the CRITICAL record, passed on by the first step
    of the collector, is the same after the second. *)
Lemma handed_records_are_not_written_again_witness :
  let drivers := [new_driver 0 CrashState] in
  steps state_run 1 (initial_run (mkOptions 1) two_records drivers)
        (joining_schedule ++ [Collect 0]) first_collected
  ∧ steps state_run 1 first_collected [Collect 1] after_collection
  ∧ 0 ∈ status_contexts first_collected
  ∧ scraping_contexts after_collection !! 0 = scraping_contexts first_collected !! 0.
Proof.
  intros drivers.
  assert (H1 : steps state_run 1 (initial_run (mkOptions 1) two_records drivers)
                 (joining_schedule ++ [Collect 0]) first_collected)
    by (apply (exec_steps_sound state_run 1 5); reflexivity).
  assert (H2 : steps state_run 1 first_collected [Collect 1] after_collection)
    by (apply (exec_steps_sound state_run 1 5); reflexivity).
  assert (H3 : 0 ∈ status_contexts first_collected) by (apply elem_of_cons; by left).
  split; [exact H1|]. split; [exact H2|]. split; [exact H3|].
  exact (proj2 (handed_records_are_not_written_again state_run (mkOptions 1)
                  two_records drivers
                  _ _ first_collected after_collection 0 eq_refl H1 H2 H3)).
Defined.

(** X15, on the example: the first task crashes, the second runs all the
    same; both futures have returned their records and the driver is back. *)
Lemma joined_workers_witness :
  let drivers := [new_driver 0 CrashState] in
  steps state_run 1 (initial_run (mkOptions 1) two_records drivers)
        joining_schedule after_join
  ∧ Forall (λ l, is_worker_step l = true) joining_schedule
  ∧ joined after_join
  ∧ futures after_join !! 1 = Some (Future.FINISHED (Return 1))
  ∧ status_contexts after_join = []
  ∧ length (queue (driver_queue after_join)) = 1.
Proof.
  intros drivers.
  assert (H1 : steps state_run 1 (initial_run (mkOptions 1) two_records drivers)
                 joining_schedule after_join)
    by (apply (exec_steps_sound state_run 1 5); reflexivity).
  assert (H2 : Forall (λ l, is_worker_step l = true) joining_schedule)
    by (repeat constructor).
  assert (H3 : joined after_join) by (repeat constructor).
  destruct (joined_workers_have_run_every_task state_run (mkOptions 1) two_records
              drivers joining_schedule after_join eq_refl H1 H2 H3)
    as (_ & Hsink & _ & _ & Hlen & _ & _ & Hown).
  split; [exact H1|]. split; [exact H2|]. split; [exact H3|].
  split; [|split; [exact Hsink|exact Hlen]].
  apply (Hown example_raises_only_Exception eq_refl 1). simpl. lia.
Defined.

(** X16, on the example: from the state in which the first task holds the
    driver, the workers alone reach the join. *)
Lemma workers_can_always_be_joined_witness :
  let drivers := [new_driver 0 CrashState] in
  1 ≤ threads_num (mkOptions 1)
  ∧ steps state_run 1 (initial_run (mkOptions 1) two_records drivers)
          [Start 0; Acquire 0] first_acquired
  ∧ ∃ ls s, steps state_run 1 first_acquired ls s
            ∧ Forall (λ l, is_worker_step l = true) ls
            ∧ joined s.
Proof.
  intros drivers.
  assert (H1 : steps state_run 1 (initial_run (mkOptions 1) two_records drivers)
                 [Start 0; Acquire 0] first_acquired)
    by (apply (exec_steps_sound state_run 1 5); reflexivity).
  split; [apply le_n|]. split; [exact H1|].
  exact (workers_can_always_be_joined state_run (mkOptions 1) two_records drivers _
           first_acquired (le_n 1) eq_refl example_terminates H1).
Defined.

(** X17, on the example: after the run the drain quits the one driver and
    does not wait. *)
Lemma drain_after_a_complete_run_witness :
  let drivers := [new_driver 0 CrashState] in
  steps state_run 1 (initial_run (mkOptions 1) two_records drivers)
        collecting_schedule after_collection
  ∧ collector_done after_collection
  ∧ clear_driver_queue (mkOptions 1) (driver_queue after_collection) =
      mkDrained (mkQueue 1 [] 0)
        [clear_context (with_status (Some 1) (new_driver 0 FinalState))] None 0 None.
Proof.
  intros drivers.
  assert (H1 : steps state_run 1 (initial_run (mkOptions 1) two_records drivers)
                 collecting_schedule after_collection)
    by (apply (exec_steps_sound state_run 1 5); reflexivity).
  assert (Hdone : collector_done after_collection).
  { intros [|[|i]] Hi.
    - apply elem_of_cons. by left.
    - apply elem_of_cons. right. apply elem_of_cons. by left.
    - simpl in Hi. lia. }
  split; [exact H1|]. split; [exact Hdone|].
  exact (proj1 (drain_after_a_complete_run state_run (mkOptions 1) two_records drivers
                  collecting_schedule after_collection eq_refl H1 Hdone)).
Defined.


(** X19, on the example: the scraper of the example with two records. *)
Lemma start_scraping_end_to_end_witness :
  1 ≤ threads_num (mkOptions 1)
  ∧ Forall (λ id, returned (create_all id) = true) [0]
  ∧ [1; 0] ≡ₚ seq 0 (length two_searches)
  ∧ ∃ res,
      start_scraping state_run (mkOptions 1) InitialState create_all
        (Return two_searches) [0] 5 joining_schedule [1; 0] = Some res
      ∧ raised res = None
      ∧ handed res = [1; 0]
      ∧ Forall (λ cs, status cs ∈ Terminal) (records res)
      ∧ ∃ d, drain res = Some d ∧ waited d = 0.
Proof.
  assert (H1 : Forall (λ id, returned (create_all id) = true) [0])
    by (repeat constructor).
  assert (H2 : [1; 0] ≡ₚ seq 0 (length two_searches)) by apply Permutation_swap.
  split; [apply le_n|]. split; [exact H1|]. split; [exact H2|].
  eexists. split; [vm_compute; reflexivity|].
  destruct (proj2 (start_scraping_end_to_end state_run (mkOptions 1) InitialState
                     create_all two_searches [0] [1; 0] (le_n 1) eq_refl H1
                     eq_refl eq_refl eq_refl example_terminates
                     example_raises_only_Exception H2)
              5 joining_schedule _ eq_refl)
    as (Hraised & _ & _ & _ & Hone & d & Hd & _ & _ & Hwait & _).
  destruct (Hone eq_refl) as [Hhanded Hterm].
  split; [exact Hraised|]. split; [exact Hhanded|]. split; [exact Hterm|].
  exists d. split; [exact Hd|exact Hwait].
Defined.


(** X23: the late read of [driver_context.status]. [scrape_item] puts its
    driver back in its [finally] block and only then evaluates
    [return driver_context.status], on a driver object that another worker
    may have taken meanwhile. In this run of two workers, two drivers and
    three records the call for record 0 returns record 2: the collector
    passes record 2 on twice and record 0 never, without raising. *)
Theorem late_read_returns_another_record :
  ∃ s, steps state_run 2
         (initial_run (mkOptions 2) three_records
            [new_driver 0 InitialState; new_driver 1 InitialState])
         (racing_schedule ++ [Collect 0; Collect 1; Collect 2]) s
       ∧ futures s = [Future.FINISHED (Return 2); Future.FINISHED (Return 1);
                      Future.FINISHED (Return 2)]
       ∧ status_contexts s = [2; 1; 2]
       ∧ yielded s = [0; 1; 2]
       ∧ collector_raised s = None
       ∧ (0 ∉ status_contexts s)
       ∧ ¬ NoDup (status_contexts s)
       ∧ ¬ own_records s.
Proof.
  eexists. split; [apply (exec_steps_sound state_run 2 5); vm_compute; reflexivity|].
  split; [reflexivity|]. split; [reflexivity|]. split; [reflexivity|].
  split; [reflexivity|]. simpl. split; [|split].
  - intros H. rewrite !elem_of_cons, elem_of_nil in H.
    by destruct H as [?|[?|[?|[]]]].
  - intros Hnd. apply NoDup_cons in Hnd as [Hnd _]. apply Hnd.
    apply elem_of_cons; right. apply elem_of_cons; by left.
  - intros Hown. specialize (Hown 0 (Return 2) eq_refl). discriminate Hown.
Qed.

(** X20, on the example: one driver, two searches. The second task starts
    in [FinalState], where the first has left the driver: it does not search,
    and its record gets the page of the first search. *)
Lemma driver_keeps_its_state_witness :
  let q := mkQueue 1 [new_driver 0 InitialState] 1 in
  ∃ q1 σ1 q2 σ2 c1,
    scrape_item state_run 5 q two_searches 0 = Some (q1, σ1, Return 0)
    ∧ scrape_item state_run 5 q1 σ1 1 = Some (q2, σ2, Return 1)
    ∧ queue q1 = [c1]
    ∧ state_cls <$> state c1 = Some FinalState
    ∧ output_data <$> σ2 =
        [mkOutput (Some "https://www.google.com//search?q=python");
         mkOutput (Some "https://www.google.com//search?q=python")].
Proof.
  intros q.
  destruct (driver_keeps_its_state_between_tasks state_run 5 5 q _ _ two_searches
              _ _ (new_driver 0 InitialState) 0 1 _ _ eq_refl eq_refl eq_refl)
    as (σ1' & c1 & out1 & σ2' & c2 & out2 & Hloop1 & Hq1 & _).
  eexists _, _, _, _, c1. split; [reflexivity|]. split; [reflexivity|].
  split; [exact Hq1|]. split; [|reflexivity].
  injection Hloop1 as _ <- _. reflexivity.
Defined.

